(** * The SIFT command line driver (src/sift-driver.c)

    A shallow embedding of [save_gss] and [main] of the driver, and the
    properties of the driver that its specification states.

    The driver is a sequential C program whose interesting behaviour is the
    order and the guards of its calls into the C library, the PGM codec, the
    file-meta helpers and the SIFT filter.  The embedding therefore threads an
    explicit program state (the variables of [main]) together with a trace of
    the calls performed; the results of the calls that the driver cannot
    compute itself (does [fopen] succeed, what does the filter detect) are read
    from an environment record. *)

From Stdlib Require Import ZArith List String Ascii Bool Lia Floats DecimalString.
Import ListNotations.

Local Open Scope string_scope.
Local Open Scope Z_scope.
Local Open Scope list_scope.

Infix "+++" := String.append (at level 60, right associativity).

(** ** Constants of the library headers

    [vl/generic.h] and [generic-driver.h] are not among the sources: the error
    codes, the protocol tag and the size of the [name] buffer of a
    [VlFileMeta] are taken as parameters.  The driver itself relies on
    [VL_ERR_OK] being zero ([while (!err)], [if (err)]) and on the other codes
    being errors, i.e. non-zero. *)

Record vl_headers := {
  VL_ERR_OK       : Z ;
  VL_ERR_OVERFLOW : Z ;
  VL_ERR_ALLOC    : Z ;
  VL_ERR_BAD_ARG  : Z ;
  VL_ERR_IO       : Z ;
  VL_ERR_EOF      : Z ;
  VL_PROT_ASCII   : Z ;
  name_size       : Z ;
  err_ok_zero     : VL_ERR_OK = 0 ;
  err_overflow_nz : VL_ERR_OVERFLOW <> 0 ;
  err_alloc_nz    : VL_ERR_ALLOC <> 0 ;
  err_bad_arg_nz  : VL_ERR_BAD_ARG <> 0 ;
  err_io_nz       : VL_ERR_IO <> 0 ;
  err_eof_nz      : VL_ERR_EOF <> 0
}.

(** ** Output sinks: [VlFileMeta] *)

(** The five file-meta variables of [main]. *)
Inductive sink_id := Frm | Dsc | Met | Gss | Ifr.

Definition sink_id_eqb (a b : sink_id) : bool :=
  match a, b with
  | Frm, Frm | Dsc, Dsc | Met, Met | Gss, Gss | Ifr, Ifr => true
  | _, _ => false
  end.

(** [VlFileMeta], in the field order of the initialisers of [main].  The
    [FILE *] in [file] is [None] when it is the null pointer, and otherwise
    the open stream, identified by the path it was opened on. *)
Record VlFileMeta := mkFileMeta {
  active   : bool ;
  pattern  : string ;
  protocol : Z ;
  name     : string ;
  file     : option string
}.

Definition set_name (fm : VlFileMeta) (n : string) : VlFileMeta :=
  mkFileMeta (active fm) (pattern fm) (protocol fm) n (file fm).

Definition set_file (fm : VlFileMeta) (f : option string) : VlFileMeta :=
  mkFileMeta (active fm) (pattern fm) (protocol fm) (name fm) f.

Record VlPgmImage := mkPgm {
  width     : Z ;
  height    : Z ;
  max_value : Z ;
  is_raw    : Z
}.

(** ** String helpers *)

(** The length of a string, as the [int] that the C code holds. *)
Definition strlen (s : string) : Z := Z.of_nat (String.length s).

(** [snprintf (dst, n, "%s", s)] keeps at most [n - 1] characters. *)
Definition truncate (n : Z) (s : string) : string := substring 0 (Z.to_nat (n - 1)) s.

Arguments truncate : simpl never.

Fixpoint zeros (n : nat) : string :=
  match n with
  | O => ""
  | S k => String "0" (zeros k)
  end.

(** The conversion [%0<w>d] of printf: sign first, then zeros up to the
    minimum field width [w], then the decimal digits. *)
Definition fmt_0d (w : nat) (z : Z) : string :=
  let digits := NilZero.string_of_uint (N.to_uint (Z.abs_N z)) in
  let sign := if z <? 0 then "-" else "" in
  sign +++ zeros (w - String.length sign - String.length digits) +++ digits.

(** The text of [snprintf (..., "_%02d_%03d", o, s)] before truncation. *)
Definition gss_suffix (o s : Z) : string :=
  "_" +++ fmt_0d 2 o +++ "_" +++ fmt_0d 3 s.

(** Modelled from the spec: [vl_string_replace_wildcard] of vl/stringop.c is
    not among the sources; the candidate path is the pattern with the
    base-name placeholder ['%'] replaced by the base name. *)
Fixpoint vl_string_replace_wildcard (pat repl : string) : string :=
  match pat with
  | EmptyString => EmptyString
  | String c rest =>
      if Ascii.eqb c "%" then repl +++ vl_string_replace_wildcard rest repl
      else String c (vl_string_replace_wildcard rest repl)
  end.

(** Modelled from the spec: the typedef of [vl_sift_pix] is in vl/sift.h,
    which is not among the sources; the samples of the filter and the fields
    of a keypoint are floats.  A C [float] is held by the [double] it
    promotes to. *)
Definition vl_sift_pix : Type := float.

(** ** Trace of the calls performed *)

Inductive arg :=
| AInt (z : Z)
| AStr (s : string)
| ADbl (d : float).

(** The stream of an [fprintf]: [File id f] is the expression [id.file] of
    the source, [f] being its value. *)
Inductive stream :=
| Stdout
| Stderr
| File (id : sink_id) (f : option string).

Inductive buf := Data | Fdata | GssBuffer.

(** The calls that the trace records.  [FopenIn] and [FcloseIn] open and
    close the input file; [Fopen id p mode ok] is the [fopen] that
    [vl_file_meta_open] performs for the sink [id], with its outcome, and
    [Fclose id p] the [fclose] of [vl_file_meta_close]; [PgmInsert id f pim
    buffer rc] is [vl_pgm_insert (id.file, &pim, buffer)] with its status. *)
Inductive event :=
| FopenIn (p : string) (ok : bool)
| FcloseIn
| Fopen (id : sink_id) (p : string) (mode : string) (ok : bool)
| Fclose (id : sink_id) (p : string)
| Fprintf (s : stream) (fmt : string) (args : list arg)
| Malloc (b : buf) (ok : bool)
| Free (b : buf)
| PgmInsert (id : sink_id) (f : option string) (pim : VlPgmImage) (buffer : list Z) (rc : Z)
| SiftNew (w h O S omin : Z) (ok : bool)
| SiftDelete.

(** ** What the SIFT filter yields *)

Record VlSiftKeypoint := mkKey {
  x     : vl_sift_pix ;
  y     : vl_sift_pix ;
  sigma : vl_sift_pix
}.

(** One keypoint of a detection pass: the keypoint itself, and for each of the
    [nangles] orientations that [vl_sift_calc_keypoint_orientations] stores
    for it, the angle and the descriptor array that
    [vl_sift_calc_keypoint_descriptor] fills for that angle. *)
Record key_env := mkKeyEnv {
  key          : VlSiftKeypoint ;
  orientations : list (float * (nat -> vl_sift_pix))
}.

(** One octave of the filter: the fields and accessors read by [save_gss]
    and by the detection pass, and the outcome of the calls made while the
    octave is current.  [octave_level s i] is the sample
    [vl_sift_get_octave (filt, s) [i]]; [keys] is the array that
    [vl_sift_get_keypoints] returns after [vl_sift_detect], its length being
    [nkeys]; [gss_indeterminate] is the value that the caller of [save_gss]
    happens to read when [save_gss] returned none. *)
Record octave_env := mkOctave {
  o_cur             : Z ;
  octave_width      : Z ;
  octave_height     : Z ;
  octave_level      : Z -> nat -> vl_sift_pix ;
  gss_malloc_ok     : bool ;
  pgm_insert_rc     : string -> Z ;
  gss_indeterminate : Z ;
  keys              : list key_env
}.

(** What the outside world answers while one image is processed.
    [img_name] is [*argv]; [img_basename] is the base name that
    [vl_string_basename] finds in it, whose length is the value [q] that the
    call returns; [octaves] lists, call after call, the status of
    [vl_sift_process_first_octave] / [vl_sift_process_next_octave] and the
    octave that is current after the call; when the list is exhausted the
    filter answers with [VL_ERR_EOF]. *)
Record image_env := mkImage {
  img_name        : string ;
  img_basename    : string ;
  fopen_in_ok     : bool ;
  fopen_ok        : string -> string -> bool ;
  pgm_head_rc     : Z ;
  pim             : VlPgmImage ;
  malloc_data_ok  : bool ;
  malloc_fdata_ok : bool ;
  pgm_data_rc     : Z ;
  sift_new_ok     : bool ;
  filt_S          : Z ;
  octaves         : list (Z * octave_env)
}.

(** ** The variables of [main] *)

(** The algorithm parameters and the verbosity level. *)
Record params := mkParams {
  edges_tresh : float ;
  peaks_tresh : float ;
  par_O       : Z ;
  par_S       : Z ;
  par_omin    : Z ;
  verbose     : Z
}.

(** The pointers declared in the body of the image loop, as null ([false]) or
    not null ([true]). *)
Record locals := mkLoc {
  in_   : bool ;
  data  : bool ;
  fdata : bool ;
  filt  : bool
}.

Record state := mkState {
  sinks     : sink_id -> VlFileMeta ;
  par       : params ;
  err       : Z ;
  err_msg   : string ;
  exit_code : Z ;
  loc       : locals
}.

Definition sizeof_err_msg : Z := 1024.
Definition sizeof_basename : Z := 1024.

Definition upd_sink (id : sink_id) (fm : VlFileMeta) (f : sink_id -> VlFileMeta)
  : sink_id -> VlFileMeta :=
  fun j => if sink_id_eqb j id then fm else f j.

Arguments upd_sink : simpl never.

(** ** A monad for the body of [main]

    A computation reads and writes the state, emits the calls it performs and
    either falls through to the next statement or leaves the normal flow:
    by [goto done], by [exit (code)], or by a failed [assert]. *)

Inductive flow (A : Type) :=
| Next (a : A)
| GotoDone
| Exit (code : Z)
| Abort.

Arguments Next {A} a.
Arguments GotoDone {A}.
Arguments Exit {A} code.
Arguments Abort {A}.

Definition M (A : Type) : Type := state -> flow A * state * list event.

Definition ret {A} (a : A) : M A := fun st => (Next a, st, []).

Definition bind {A B} (m : M A) (f : A -> M B) : M B :=
  fun st =>
    match m st with
    | (Next a, st1, ev1) =>
        let '(r, st2, ev2) := f a st1 in (r, st2, ev1 ++ ev2)
    | (GotoDone, st1, ev1) => (GotoDone, st1, ev1)
    | (Exit c, st1, ev1) => (Exit c, st1, ev1)
    | (Abort, st1, ev1) => (Abort, st1, ev1)
    end.

Notation "x <- m ;; f" := (bind m (fun x => f))
  (at level 61, m at next level, right associativity).
Notation "m ;; f" := (bind m (fun _ => f))
  (at level 61, right associativity).

Definition get : M state := fun st => (Next st, st, []).
Definition call (evs : list event) : M unit := fun st => (Next tt, st, evs).
Definition goto_done {A} : M A := fun st => (GotoDone, st, []).
Definition exit {A} (code : Z) : M A := fun st => (Exit code, st, []).
Definition assert_fail {A} : M A := fun st => (Abort, st, []).

Definition when (b : bool) (m : M unit) : M unit := if b then m else ret tt.

Definition with_err (e : Z) (st : state) : state :=
  mkState (sinks st) (par st) e (err_msg st) (exit_code st) (loc st).

Definition with_err_msg (m : string) (st : state) : state :=
  mkState (sinks st) (par st) (err st) m (exit_code st) (loc st).

Definition with_exit_code (c : Z) (st : state) : state :=
  mkState (sinks st) (par st) (err st) (err_msg st) c (loc st).

Definition with_par (p : params) (st : state) : state :=
  mkState (sinks st) p (err st) (err_msg st) (exit_code st) (loc st).

Definition with_loc (l : locals) (st : state) : state :=
  mkState (sinks st) (par st) (err st) (err_msg st) (exit_code st) l.

Definition with_sink (id : sink_id) (fm : VlFileMeta) (st : state) : state :=
  mkState (upd_sink id fm (sinks st)) (par st) (err st) (err_msg st) (exit_code st) (loc st).

Definition set_err (e : Z) : M unit := fun st => (Next tt, with_err e st, []).

(** [snprintf (err_msg, sizeof (err_msg), ...)] with the text [m]. *)
Definition set_err_msg (m : string) : M unit :=
  fun st => (Next tt, with_err_msg (truncate sizeof_err_msg m) st, []).

Definition set_exit_code (c : Z) : M unit := fun st => (Next tt, with_exit_code c st, []).

Definition set_par (p : params) : M unit := fun st => (Next tt, with_par p st, []).

Definition set_loc (l : locals) : M unit := fun st => (Next tt, with_loc l st, []).

Definition set_sink (id : sink_id) (fm : VlFileMeta) : M unit :=
  fun st => (Next tt, with_sink id fm st, []).

Definition printf (fmt : string) (args : list arg) : M unit :=
  call [Fprintf Stdout fmt args].

(** ** Sample inputs

    One admissible choice of the header constants, a truncating conversion
    of a sample to eight bits, and a small image: one octave of 2 by 2
    samples with two keypoints, the first with two orientations and the
    second with one. *)

Definition sample_headers : vl_headers.
Proof.
  refine (Build_vl_headers 0 1 2 3 4 5 1 1024 eq_refl _ _ _ _ _); discriminate.
Defined.

Definition float_trunc (p : float) : Z :=
  match Prim2SF p with
  | S754_finite s m e =>
      let a := if 0 <=? e then Z.pos m * 2 ^ e else Z.pos m / 2 ^ (- e) in
      if s then - a else a
  | _ => 0
  end.

Definition trunc_uint8 (p : vl_sift_pix) : Z := float_trunc p mod 256.

Definition sample_key1 : key_env :=
  mkKeyEnv (mkKey 10%float 11%float 12%float)
           [(1%float, fun i => PrimFloat.of_uint63 (Uint63.of_Z (Z.of_nat i)));
            (2%float, fun _ => 0%float)].

Definition sample_key2 : key_env :=
  mkKeyEnv (mkKey 20%float 21%float 22%float) [(3%float, fun _ => 7%float)].

Definition sample_level (s : Z) (i : nat) : vl_sift_pix :=
  PrimFloat.of_uint63 (Uint63.of_Z (s * 10 + Z.of_nat i)).

Definition sample_octave : octave_env :=
  mkOctave (-1) 2 2 sample_level true (fun _ => 0) 0 [sample_key1; sample_key2].

Definition sample_image : image_env :=
  mkImage "dir/a.pgm" "a" true (fun _ _ => true) 0 (mkPgm 2 2 255 1)
          true true 0 true 3 [(0, sample_octave)].

(** An image whose filter answers the second octave advance with the status
    2, the allocation error of [sample_headers], which is not its signal for
    no more octaves. *)
Definition failing_filter_image : image_env :=
  mkImage "dir/a.pgm" "a" true (fun _ _ => true) 0 (mkPgm 2 2 255 1)
          true true 0 true 3 [(0, sample_octave); (2, sample_octave)].

(** An octave whose snapshot cannot allocate its narrowing buffer. *)
Definition alloc_failing_octave : octave_env :=
  mkOctave (-1) 2 2 sample_level false (fun _ => 0) 0 [sample_key1; sample_key2].

(** An image for which the file of the first snapshot level cannot be
    opened, all other files being fine. *)
Definition snapshot_failing_image : image_env :=
  mkImage "dir/a.pgm" "a" true (fun p _ => negb (String.eqb p "a_-1_000.pgm")) 0
          (mkPgm 2 2 255 1) true true 0 true 3 [(0, sample_octave)].

(** A sample answer of [vl_file_meta_parse]: the sink is wanted, with the
    pattern it had and the ASCII protocol of [sample_headers]. *)
Definition sample_parse (fm : VlFileMeta) (oa : option string) : Z * VlFileMeta :=
  (0, mkFileMeta true (pattern fm) 1 (name fm) (file fm)).

(** An answer of [vl_file_meta_parse] that selects a protocol other than
    the ASCII protocol of [sample_headers]. *)
Definition binary_parse (fm : VlFileMeta) (oa : option string) : Z * VlFileMeta :=
  (0, mkFileMeta true (pattern fm) 2 (name fm) (file fm)).

Definition sample_sscanf_d (oa : option string) (v : Z) : Z * Z := (1, v).

Definition sample_sscanf_lf (oa : option string) (v : float) : Z * float := (1, v).

(** Images that fail: one whose file cannot be opened, one whose base name
    has 1024 characters, one whose header is refused with the status 7, one
    for which the image data cannot be allocated, and one whose descriptors
    file cannot be opened. *)
Definition unreadable_image : image_env :=
  mkImage "dir/b.pgm" "b" false (fun _ _ => true) 0 (mkPgm 2 2 255 1)
          true true 0 true 3 [(0, sample_octave)].

Definition long_named_image : image_env :=
  mkImage "dir/0.pgm" (zeros 1024) true (fun _ _ => true) 0 (mkPgm 2 2 255 1)
          true true 0 true 3 [(0, sample_octave)].

Definition corrupt_header_image : image_env :=
  mkImage "dir/a.pgm" "a" true (fun _ _ => true) 7 (mkPgm 2 2 255 1)
          true true 0 true 3 [(0, sample_octave)].

Definition data_alloc_failing_image : image_env :=
  mkImage "dir/a.pgm" "a" true (fun _ _ => true) 0 (mkPgm 2 2 255 1)
          false true 0 true 3 [(0, sample_octave)].

Definition descriptors_unwritable_image : image_env :=
  mkImage "dir/a.pgm" "a" true (fun p _ => negb (String.eqb p "a.descr")) 0
          (mkPgm 2 2 255 1) true true 0 true 3 [(0, sample_octave)].

(** An image for which no filter can be created. *)
Definition filter_failing_image : image_env :=
  mkImage "dir/a.pgm" "a" true (fun _ _ => true) 0 (mkPgm 2 2 255 1)
          true true 0 false 3 [(0, sample_octave)].

(** ** The driver

    [K] holds the header constants and [cast_uint8] is the C conversion
    [(vl_uint8) p] of a sample. *)

Section Driver.

Variable K : vl_headers.
Variable cast_uint8 : vl_sift_pix -> Z.

(** ** The file-meta helpers *)

(** Modelled from the spec: [vl_file_meta_open] of generic-driver.h is not
    among the sources.  If the sink is not active this is a no-op that leaves
    the sink untouched.  Otherwise the base-name placeholder of the pattern is
    substituted to produce a candidate path, the call fails with the overflow
    error if the path exceeds the name buffer, and then the path is opened in
    the requested mode, failing with the I/O error if it cannot be opened. *)
Definition vl_file_meta_open (fopen_ok : string -> string -> bool)
    (id : sink_id) (fm : VlFileMeta) (basename mode : string)
  : Z * VlFileMeta * list event :=
  if negb (active fm) then (VL_ERR_OK K, fm, [])
  else
    let full := vl_string_replace_wildcard (pattern fm) basename in
    let fm1 := set_name fm (truncate (name_size K) full) in
    if name_size K <=? strlen full
    then (VL_ERR_OVERFLOW K, fm1, [])
    else
      if fopen_ok (name fm1) mode
      then (VL_ERR_OK K, set_file fm1 (Some (name fm1)), [Fopen id (name fm1) mode true])
      else (VL_ERR_IO K, set_file fm1 None, [Fopen id (name fm1) mode false]).

(** Modelled from the spec: [vl_file_meta_close] of generic-driver.h is not
    among the sources.  Closing is idempotent: it releases the handle if the
    sink is open and is a no-op otherwise. *)
Definition vl_file_meta_close (id : sink_id) (fm : VlFileMeta)
  : VlFileMeta * list event :=
  match file fm with
  | Some f => (set_file fm None, [Fclose id f])
  | None => (fm, [])
  end.

(** ** [save_gss] *)

(** What a call of [save_gss] leaves behind: the value of its [return]
    statement, if control left the function through one ([None] when the
    closing brace was reached instead: the function then returns no value
    and the value of the call is indeterminate); the local [err] when the
    function was left ([None] if never assigned); the sink and the calls
    performed. *)
Record gss_result := mkGss {
  gss_returned : option Z ;
  gss_err      : option Z ;
  gss_fm       : VlFileMeta ;
  gss_events   : list event
}.

Definition sizeof_tmp : Z := 1024.

(** The body of [for (s = 0 ; s < S ; ++s)], [n] iterations from level [s] on.
    The first component is [Some e] when the loop is left by
    [goto save_gss_quit] with [err = e], and [None] when all iterations
    complete; the second is the local [err].  [tmp] holds the base name
    ([q] characters, as [vl_string_copy] returned) followed by the suffix
    that fits in the rest of the buffer. *)
Fixpoint save_gss_levels (fopen_ok : string -> string -> bool)
    (oc : octave_env) (id : sink_id) (basename : string) (verbose : Z)
    (pim : VlPgmImage) (n : nat) (s : Z) (err : option Z) (fm : VlFileMeta)
  : option Z * option Z * VlFileMeta * list event :=
  match n with
  | O => (None, err, fm, [])
  | S n' =>
      let w := octave_width oc in
      let h := octave_height oc in
      let q := strlen basename in
      let buffer :=
        map (fun i => cast_uint8 (octave_level oc s i)) (seq 0 (Z.to_nat (w * h))) in
      let tmp := basename +++ truncate (sizeof_tmp - q) (gss_suffix (o_cur oc) s) in
      let '(e1, fm1, ev1) := vl_file_meta_open fopen_ok id fm tmp "w" in
      if negb (e1 =? 0) then (Some e1, Some e1, fm1, ev1)
      else
        let e2 := pgm_insert_rc oc (name fm1) in
        let ev2 := [PgmInsert id (file fm1) pim buffer e2] in
        if negb (e2 =? 0) then (Some e2, Some e2, fm1, ev1 ++ ev2)
        else
          let ev3 :=
            if negb (verbose =? 0)
            then [Fprintf Stdout "sift: saved gss level to '%s'\n" [AStr (name fm1)]]
            else [] in
          let '(fm2, ev4) := vl_file_meta_close id fm1 in
          let '(r, e', fm3, ev5) :=
            save_gss_levels fopen_ok oc id basename verbose pim n' (s + 1) (Some e2) fm2 in
          (r, e', fm3, ev1 ++ ev2 ++ ev3 ++ ev4 ++ ev5)
  end.

(** [save_gss (filt, fm, basename, verbose)].  [S] is [filt->S] and [oc] the
    current octave of [filt]; [id] says which sink [fm] points to.  Only the
    early exit for an inactive sink has a [return] statement: the label
    [save_gss_quit] is followed by the release of the buffer, the closing of
    the sink and the closing brace of the function. *)
Definition save_gss (fopen_ok : string -> string -> bool) (S : Z)
    (oc : octave_env) (id : sink_id) (fm : VlFileMeta) (basename : string)
    (verbose : Z) : gss_result :=
  if negb (active fm) then mkGss (Some (VL_ERR_OK K)) None fm []
  else
    let w := octave_width oc in
    let h := octave_height oc in
    let pim := mkPgm w h 255 1 in
    if negb (gss_malloc_ok oc) then
      let '(fm', ev) := vl_file_meta_close id fm in
      mkGss None (Some (VL_ERR_ALLOC K)) fm' (Malloc GssBuffer false :: ev)
    else if sizeof_tmp <=? strlen basename then
      let '(fm', ev) := vl_file_meta_close id fm in
      mkGss None (Some (VL_ERR_OVERFLOW K)) fm'
            (Malloc GssBuffer true :: Free GssBuffer :: ev)
    else
      let '(_, e, fm1, ev1) :=
        save_gss_levels fopen_ok oc id basename verbose pim (Z.to_nat S) 0 None fm in
      let '(fm2, ev2) := vl_file_meta_close id fm1 in
      mkGss None e fm2 (Malloc GssBuffer true :: ev1 ++ Free GssBuffer :: ev2).

(** ** Start-up *)

(** The initialisers at the head of [main]. *)
Definition init_sinks (id : sink_id) : VlFileMeta :=
  match id with
  | Frm => mkFileMeta true  "%.frame" (VL_PROT_ASCII K) "" None
  | Dsc => mkFileMeta false "%.descr" (VL_PROT_ASCII K) "" None
  | Met => mkFileMeta false "%.meta"  (VL_PROT_ASCII K) "" None
  | Gss => mkFileMeta false "%.pgm"   (VL_PROT_ASCII K) "" None
  | Ifr => mkFileMeta false "%.frame" (VL_PROT_ASCII K) "" None
  end.

Definition init_state : state :=
  mkState init_sinks (mkParams 2%float 2%float (-1) 3 (-1) 0)
          (VL_ERR_OK K) "" 0 (mkLoc false false false false).

(** [err = vl_file_meta_open (&sink, basename, mode)] *)
Definition file_meta_open (fopen_ok : string -> string -> bool) (id : sink_id)
    (basename mode : string) : M unit :=
  st <- get ;;
  let '(e, fm, evs) := vl_file_meta_open fopen_ok id (sinks st id) basename mode in
  set_sink id fm ;; call evs ;; set_err e.

(** [vl_file_meta_close (&sink)] *)
Definition file_meta_close (id : sink_id) : M unit :=
  st <- get ;;
  let '(fm, evs) := vl_file_meta_close id (sinks st id) in
  set_sink id fm ;; call evs.

(** ** Option parsing *)

(** The library calls of the option loop whose code is not part of the
    driver.  [vl_file_meta_parse fm optarg] gives the status and the sink as
    the call leaves it; [sscanf_d optarg v] and [sscanf_lf optarg v] give the
    number of conversions and the content of the scanned variable after the
    call, [v] being its content before. *)
Variable vl_file_meta_parse : VlFileMeta -> option string -> Z * VlFileMeta.
Variable sscanf_d : option string -> Z -> Z * Z.
Variable sscanf_lf : option string -> float -> Z * float.
Variable vl_get_version_string : string.
Variable vl_string_protocol_name : Z -> string.

Definition VL_SIFT_DRIVER_VERSION_STRING : string := "alpha-1".

(** Format strings are kept as they are written in the source, escape
    sequences included. *)
Definition help_message : string :=
  "Usage: %s [options] files ...\n" +++
  "\n" +++
  "Where options include:\n" +++
  " --verbose -v    Be verbose\n" +++
  " --help -h       Print this help message\n" +++
  " --version       Print version information\n" +++
  " --frames        Specify frames file\n" +++
  " --descriptors   Specify descriptors file\n" +++
  " --meta          Specify meta file\n" +++
  " --gss           Specify Gaussian scale space file\n" +++
  " --octaves -O    Number of octaves\n" +++
  " --levels -S     Number of levels per octave\n" +++
  " --first-octave  Index of the first octave\n" +++
  " --edges-tresh   Edges treshold\n" +++
  " --peaks-tresh   Peaks treshold\n" +++
  " --read-frames   Specify a file from which to read frames\n" +++
  " --orientations  Force the computation of the oriantations\n" +++
  "\n".

(** Long option codes. *)
Definition opt_version      : Z := 1000.
Definition opt_meta         : Z := 1001.
Definition opt_frames       : Z := 1002.
Definition opt_descriptors  : Z := 1003.
Definition opt_gss          : Z := 1004.
Definition opt_first_octave : Z := 1005.
Definition opt_edges_tresh  : Z := 1006.
Definition opt_peaks_tresh  : Z := 1007.
Definition opt_read_frames  : Z := 1008.
Definition opt_orientations : Z := 1009.

Definition chr (c : ascii) : Z := Z.of_nat (nat_of_ascii c).

(** One result of [getopt_long]: the code it returns, [optarg], and the text
    of [argv [optind - 1]] that the diagnostics quote. *)
Record opt_item := mkOpt {
  ch      : Z ;
  optarg  : option string ;
  optname : string
}.

(** The macro [ERR]: the [break] that ends it leaves the [switch]. *)
Definition ERR (msg : string) : M unit :=
  set_err (VL_ERR_BAD_ARG K) ;; set_err_msg msg.

(** [err = vl_file_meta_parse (&sink, optarg)].  The call parses the naming
    pattern and the protocol of the sink and says whether it is wanted; the
    resolved name and the handle are not its concern and keep their
    content. *)
Definition file_meta_parse (id : sink_id) (oa : option string) : M unit :=
  st <- get ;;
  let old := sinks st id in
  let '(e, fm) := vl_file_meta_parse old oa in
  set_sink id (mkFileMeta (active fm) (pattern fm) (protocol fm) (name old) (file old)) ;;
  set_err e.

Definition invalid_arguments (it : opt_item) : string :=
  "The arguments of '" +++ optname it +++ "' is invalid.".

Definition not_an_integer (it : opt_item) : string :=
  "The argument of '" +++ optname it +++ "' must be a non-negative integer.".

Definition not_a_float (it : opt_item) : string :=
  "The argument of '" +++ optname it +++ "' must be a non-negative float.".

(** A sink option other than [--meta]. *)
Definition sink_option (id : sink_id) (it : opt_item) : M unit :=
  file_meta_parse id (optarg it) ;;
  st <- get ;;
  when (negb (err st =? 0)) (ERR (invalid_arguments it)).

(** The body of [switch (ch)]. *)
Definition process_option (argv0 : string) (it : opt_item) : M unit :=
  let c := ch it in
  if c =? chr "?" then
    ERR ("Invalid option '" +++ optname it +++ "'.")
  else if c =? chr ":" then
    ERR ("Missing mandatory argument for option '" +++ optname it +++ "'.")
  else if c =? chr "h" then
    printf help_message [AStr argv0] ;; exit 0
  else if c =? chr "v" then
    st <- get ;;
    let p := par st in
    set_par (mkParams (edges_tresh p) (peaks_tresh p) (par_O p) (par_S p) (par_omin p)
                      (verbose p + 1))
  else if c =? opt_version then
    printf "sift: driver version: %s libvl version: %s"
           [AStr VL_SIFT_DRIVER_VERSION_STRING; AStr vl_get_version_string] ;;
    exit 0
  else if c =? opt_frames then sink_option Frm it
  else if c =? opt_descriptors then sink_option Dsc it
  else if c =? opt_meta then
    file_meta_parse Met (optarg it) ;;
    st <- get ;;
    if negb (err st =? 0) then ERR (invalid_arguments it)
    else when (negb (protocol (sinks st Met) =? VL_PROT_ASCII K))
              (ERR "meta file supports only ASCII protocol")
  else if c =? opt_read_frames then sink_option Ifr it
  else if c =? opt_gss then sink_option Gss it
  else if c =? chr "O" then
    st <- get ;;
    let p := par st in
    let '(n, v) := sscanf_d (optarg it) (par_O p) in
    set_par (mkParams (edges_tresh p) (peaks_tresh p) v (par_S p) (par_omin p) (verbose p)) ;;
    when ((n =? 0) || (v <? 0)) (ERR (not_an_integer it))
  else if c =? chr "S" then
    st <- get ;;
    let p := par st in
    let '(n, v) := sscanf_d (optarg it) (par_S p) in
    set_par (mkParams (edges_tresh p) (peaks_tresh p) (par_O p) v (par_omin p) (verbose p)) ;;
    when ((n =? 0) || (v <? 0)) (ERR (not_an_integer it))
  else if c =? opt_first_octave then
    st <- get ;;
    let p := par st in
    let '(n, v) := sscanf_d (optarg it) (par_omin p) in
    set_par (mkParams (edges_tresh p) (peaks_tresh p) (par_O p) (par_S p) v (verbose p)) ;;
    when ((n =? 0) || (v <? 0)) (ERR (not_an_integer it))
  else if c =? opt_edges_tresh then
    st <- get ;;
    let p := par st in
    let '(n, v) := sscanf_lf (optarg it) (edges_tresh p) in
    set_par (mkParams v (peaks_tresh p) (par_O p) (par_S p) (par_omin p) (verbose p)) ;;
    when ((n =? 0) || PrimFloat.ltb v 0%float) (ERR (not_a_float it))
  else if c =? opt_peaks_tresh then
    st <- get ;;
    let p := par st in
    let '(n, v) := sscanf_lf (optarg it) (peaks_tresh p) in
    set_par (mkParams (edges_tresh p) v (par_O p) (par_S p) (par_omin p) (verbose p)) ;;
    when ((n =? 0) || PrimFloat.ltb v 0%float) (ERR (not_a_float it))
  else
    assert_fail.

(** [while (!err) { ch = getopt_long (...) ; if (ch == -1) break ; switch ... }]
    over the results that [getopt_long] yields before it returns [-1]. *)
Fixpoint parse_options (argv0 : string) (items : list opt_item) : M unit :=
  st <- get ;;
  if negb (err st =? 0) then ret tt
  else
    match items with
    | [] => ret tt
    | it :: rest => process_option argv0 it ;; parse_options argv0 rest
    end.

(** The check for parsing errors that follows the loop. *)
Definition check_parsing_errors (argv0 : string) : M unit :=
  st <- get ;;
  if negb (err st =? 0) then
    call [Fprintf Stderr "%s: error: %s (%d)\n"
                  [AStr argv0; AStr (err_msg st); AInt (err st)]] ;;
    exit 1
  else ret tt.

(** The macro [PRNFO]. *)
Definition PRNFO (label : string) (fm : VlFileMeta) : M unit :=
  printf ("sift: " +++ label +++ ": ") [] ;;
  printf "active=%d " [AInt (if active fm then 1 else 0)] ;;
  printf "pattern=%-10s " [AStr (pattern fm)] ;;
  printf "protocol=%-6s " [AStr (vl_string_protocol_name (protocol fm))] ;;
  printf "\n" [].

Definition print_sinks : M unit :=
  st <- get ;;
  when (1 <? verbose (par st))
       (PRNFO "frames      " (sinks st Frm) ;;
        PRNFO "descriptors " (sinks st Dsc) ;;
        PRNFO "meta        " (sinks st Met) ;;
        PRNFO "gss         " (sinks st Gss)).

(** ** Processing one image *)

Fixpoint for_each {A} (l : list A) (body : A -> M unit) : M unit :=
  match l with
  | [] => ret tt
  | a :: rest => body a ;; for_each rest body
  end.

Definition fprintf (id : sink_id) (fmt : string) (args : list arg) : M unit :=
  st <- get ;;
  call [Fprintf (File id (file (sinks st id))) fmt args].

(** The body of the loop over the orientations, after the descriptor has
    been computed.  [keys0] is what [keys] points to. *)
Definition emit_orientation (keys0 : VlSiftKeypoint) (o : float * (nat -> vl_sift_pix))
  : M unit :=
  st <- get ;;
  when (active (sinks st Frm))
       (fprintf Frm "%g %g %g %g\n"
                [ADbl (x keys0); ADbl (y keys0); ADbl (sigma keys0); ADbl (fst o)]) ;;
  when (active (sinks st Dsc))
       (for_each (seq 0 128) (fun i => fprintf Dsc "%g " [ADbl (snd o i)]) ;;
        fprintf Dsc "\n" []).

(** [for (k = 0 ; k < nkeys ; ++k)] over the keypoints of the current octave.
    The frames record reads [keys->x], [keys->y] and [keys->sigma]: [keys]
    points to the first element of the array. *)
Definition emit_keys (ks : list key_env) : M unit :=
  match ks with
  | [] => ret tt
  | k0 :: _ =>
      for_each ks (fun k => for_each (orientations k) (emit_orientation (key k0)))
  end.

(** [if (gss.active) { err = save_gss (...) ; if (err) { ... goto done ; } }] *)
Definition optionally_save_gss (e : image_env) (basename : string) (oc : octave_env)
  : M unit :=
  st <- get ;;
  when (active (sinks st Gss))
       (let r := save_gss (fopen_ok e) (filt_S e) oc Gss (sinks st Gss) basename
                          (verbose (par st)) in
        set_sink Gss (gss_fm r) ;;
        call (gss_events r) ;;
        set_err (match gss_returned r with
                 | Some v => v
                 | None => gss_indeterminate oc
                 end) ;;
        st' <- get ;;
        if negb (err st' =? 0) then
          set_err_msg "Could not write GSS level to PGM file." ;; goto_done
        else ret tt).

(** [while (1)] over the octaves.  The flag [first] only selects which of the
    two filter calls is made. *)
Fixpoint octave_loop (e : image_env) (basename : string)
    (steps : list (Z * octave_env)) : M unit :=
  match steps with
  | [] => set_err (VL_ERR_EOF K) ;; set_err (VL_ERR_OK K)
  | (rc, oc) :: rest =>
      set_err rc ;;
      if negb (rc =? 0) then set_err (VL_ERR_OK K)
      else
        st <- get ;;
        when (1 <? verbose (par st)) (printf "sift: next octave\n" []) ;;
        optionally_save_gss e basename oc ;;
        when (1 <? verbose (par st))
             (printf "sift: %d keypoints\n" [AInt (Z.of_nat (List.length (keys oc)))]) ;;
        emit_keys (keys oc) ;;
        octave_loop e basename rest
  end.

(** The macro [WERR]. *)
Definition WERR (id : sink_id) : M unit :=
  st <- get ;;
  if err st =? VL_ERR_OVERFLOW K then
    set_err_msg "Output file name too long." ;; goto_done
  else if negb (err st =? 0) then
    set_err_msg ("Could not open '" +++ name (sinks st id) +++ "' for writing.") ;;
    goto_done
  else ret tt.

Definition meta_file (e : image_env) : M unit :=
  st <- get ;;
  when (active (sinks st Met))
       (fprintf Met "<sift\n" [] ;;
        fprintf Met "  input       = '%s'\n" [AStr (img_name e)] ;;
        when (active (sinks st Dsc))
             (fprintf Met "  descriptors = '%s'\n" [AStr (name (sinks st Dsc))]) ;;
        when (active (sinks st Frm))
             (fprintf Met "  frames      = '%s'\n" [AStr (name (sinks st Frm))]) ;;
        fprintf Met ">\n" []).

Definition set_in (b : bool) : M unit :=
  st <- get ;; set_loc (mkLoc b (data (loc st)) (fdata (loc st)) (filt (loc st))).
Definition set_data (b : bool) : M unit :=
  st <- get ;; set_loc (mkLoc (in_ (loc st)) b (fdata (loc st)) (filt (loc st))).
Definition set_fdata (b : bool) : M unit :=
  st <- get ;; set_loc (mkLoc (in_ (loc st)) (data (loc st)) b (filt (loc st))).
Definition set_filt (b : bool) : M unit :=
  st <- get ;; set_loc (mkLoc (in_ (loc st)) (data (loc st)) (fdata (loc st)) b).

(** The part of the loop body headed [Determine files]: the base name, the
    input file and the output files.  The value is the content of the buffer
    [basename]. *)
Definition determine_files (e : image_env) : M string :=
  let nm := img_name e in
  let q := strlen (img_basename e) in
  let basename := truncate sizeof_basename (img_basename e) in
  set_err (if sizeof_basename <=? q then 1 else 0) ;;
  st <- get ;;
  (if negb (err st =? 0) then
     set_err_msg ("Basename of '" +++ nm +++ "' is too long") ;;
     set_err (VL_ERR_OVERFLOW K) ;;
     goto_done
   else ret tt) ;;
  let v := verbose (par st) in
  when (negb (v =? 0)) (printf "sift: processing '%s'\n" [AStr nm]) ;;
  when (1 <? v) (printf "sift: basename is '%s'\n" [AStr basename]) ;;
  (* open input file *)
  (call [FopenIn nm (fopen_in_ok e)] ;; set_in (fopen_in_ok e)) ;;
  (if negb (fopen_in_ok e) then
     set_err (VL_ERR_IO K) ;;
     set_err_msg ("Could not open '" +++ nm +++ "' for reading.") ;;
     goto_done
   else ret tt) ;;
  (* open output files *)
  file_meta_open (fopen_ok e) Dsc basename "w" ;; WERR Dsc ;;
  file_meta_open (fopen_ok e) Frm basename "w" ;; WERR Frm ;;
  file_meta_open (fopen_ok e) Met basename "w" ;; WERR Met ;;
  st <- get ;;
  when (1 <? v)
       (when (active (sinks st Dsc))
             (printf "sift: writing descriptors to '%s'\n" [AStr (name (sinks st Dsc))]) ;;
        when (active (sinks st Frm))
             (printf "sift: writing frames to '%s'\n" [AStr (name (sinks st Frm))]) ;;
        when (active (sinks st Met))
             (printf "sift: writign meta to '%s'\n" [AStr (name (sinks st Met))])) ;;
  ret basename.

(** The part headed [Read image data].  The conversion of the samples to
    [vl_sift_pix] that ends it performs no call. *)
Definition read_image_data (e : image_env) : M unit :=
  (* read source image header *)
  set_err (pgm_head_rc e) ;;
  (if negb (pgm_head_rc e =? 0) then
     set_err (VL_ERR_IO K) ;;
     set_err_msg "PGM header corrputed." ;;
     goto_done
   else ret tt) ;;
  st <- get ;;
  when (negb (verbose (par st) =? 0))
       (printf "sift: image is %d by %d pixels\n"
               [AInt (width (pim e)); AInt (height (pim e))]) ;;
  (* allocate buffer *)
  (call [Malloc Data (malloc_data_ok e); Malloc Fdata (malloc_fdata_ok e)] ;;
   set_data (malloc_data_ok e) ;;
   set_fdata (malloc_fdata_ok e)) ;;
  (if negb (malloc_data_ok e) || negb (malloc_fdata_ok e) then
     set_err (VL_ERR_ALLOC K) ;;
     set_err_msg "Could not allocate enough memory." ;;
     goto_done
   else ret tt) ;;
  (* read PGM *)
  set_err (pgm_data_rc e) ;;
  (if negb (pgm_data_rc e =? 0) then
     set_err_msg "PGM body corrputed." ;;
     goto_done
   else ret tt).

(** [filt = vl_sift_new (...)] and its check. *)
Definition new_filter (e : image_env) : M unit :=
  st <- get ;;
  (call [SiftNew (width (pim e)) (height (pim e))
                 (par_O (par st)) (par_S (par st)) (par_omin (par st)) (sift_new_ok e)] ;;
   set_filt (sift_new_ok e)) ;;
  (if negb (sift_new_ok e) then
     set_err_msg "Could not allocate SIFT filter." ;;
     set_err (VL_ERR_ALLOC K) ;;
     goto_done
   else ret tt).

(** The body of the image loop up to the label [done]. *)
Definition image_body (e : image_env) : M unit :=
  set_loc (mkLoc false false false false) ;;
  basename <- determine_files e ;;
  read_image_data e ;;
  new_filter e ;;
  octave_loop e basename (octaves e) ;;
  meta_file e.

(** The statements that follow the label [done]. *)
Definition release_filter : M unit :=
  st <- get ;; when (filt (loc st)) (call [SiftDelete] ;; set_filt false).

Definition release_image_data : M unit :=
  st <- get ;; when (data (loc st)) (call [Free Data] ;; set_data false).

Definition close_input : M unit :=
  st <- get ;; when (in_ (loc st)) (call [FcloseIn] ;; set_in false).

Definition print_error : M unit :=
  st <- get ;;
  when (negb (err st =? 0))
       (call [Fprintf Stderr "sift: err: %s (%d)\n" [AStr (err_msg st); AInt (err st)]] ;;
        set_exit_code 1).

Definition done_block : M unit :=
  release_filter ;;
  release_image_data ;;
  close_input ;;
  file_meta_close Frm ;;
  file_meta_close Dsc ;;
  file_meta_close Met ;;
  file_meta_close Gss ;;
  print_error.

(** [body] followed by the label [done] and [after]: a [goto done] in [body]
    continues at [after]. *)
Definition at_done (body after : M unit) : M unit :=
  fun st =>
    match body st with
    | (Next _, st1, ev1) | (GotoDone, st1, ev1) =>
        let '(r, st2, ev2) := after st1 in (r, st2, ev1 ++ ev2)
    | other => other
    end.

(** One iteration of [while (argc--)]. *)
Definition process_image (e : image_env) : M unit :=
  at_done (image_body e) done_block.

(** ** [main] *)

(** The result is [Next c] when [main] returns [c]. *)
Definition main (argv0 : string) (items : list opt_item) (images : list image_env)
  : flow Z * state * list event :=
  (parse_options argv0 items ;;
   check_parsing_errors argv0 ;;
   print_sinks ;;
   for_each images process_image ;;
   st <- get ;;
   ret (exit_code st)) init_state.

(** * Vocabulary of the properties *)

Definition is_stderr (ev : event) : bool :=
  match ev with
  | Fprintf Stderr _ _ => true
  | _ => false
  end.

(** [preserves I m]: running [m] in a state that, together with the calls
    performed so far, satisfies [I] leads to a state that satisfies [I]
    together with the extended history, however [m] is left. *)
Definition preserves (I : list event -> state -> Prop) {A} (m : M A) : Prop :=
  forall h st, I h st ->
    let '(_, st', evs) := m st in I (h ++ evs) st'.

(** What it means for a call to use a sink: to open it, to write through its
    handle, to report it in the meta record, or, for the gss sink, to
    allocate the narrowing buffer of a snapshot. *)
Definition opens (id : sink_id) (ev : event) : bool :=
  match ev with
  | Fopen j _ _ _ => sink_id_eqb j id
  | _ => false
  end.

Definition writes (id : sink_id) (ev : event) : bool :=
  match ev with
  | Fprintf (File j _) _ _ => sink_id_eqb j id
  | PgmInsert j _ _ _ _ => sink_id_eqb j id
  | _ => false
  end.

Definition reports (id : sink_id) (ev : event) : bool :=
  match ev with
  | Fprintf (File Met _) fmt _ =>
      match id with
      | Dsc => String.eqb fmt "  descriptors = '%s'\n"
      | Frm => String.eqb fmt "  frames      = '%s'\n"
      | _ => false
      end
  | _ => false
  end.

Definition allocates_for (id : sink_id) (ev : event) : bool :=
  match ev, id with
  | Malloc GssBuffer _, Gss => true
  | _, _ => false
  end.

Definition uses (id : sink_id) (ev : event) : bool :=
  opens id ev || writes id ev || reports id ev || allocates_for id ev.

(** The [active] flag of the sink [id] is [b], and if the sink is inactive no
    call so far has used it. *)
Definition sink_inv (id : sink_id) (b : bool) (h : list event) (st : state) : Prop :=
  (b = false -> Forall (fun ev => uses id ev = false) h) /\ active (sinks st id) = b.

(** The codes of the options that configure a sink. *)
Definition sink_option_code (c : Z) : bool :=
  (c =? opt_frames) || (c =? opt_descriptors) || (c =? opt_meta)
  || (c =? opt_gss) || (c =? opt_read_frames).

(** [wp E m Q R st]: run from [st], [m] performs only calls that satisfy [E]
    and either falls through with a value and a state that satisfy [Q], or
    jumps to [done] in a state that satisfies [R]; it neither exits nor
    aborts. *)
Definition wp {A} (E : event -> Prop) (m : M A) (Q : A -> state -> Prop)
    (R : state -> Prop) (st : state) : Prop :=
  let '(fl, st', evs) := m st in
  Forall E evs /\
  match fl with
  | Next a => Q a st'
  | GotoDone => R st'
  | Exit _ | Abort => False
  end.

(** The state that the statements after the label [done] leave: the filter,
    the image data and the input file released, the four output sinks
    closed, and the exit code set if [err] reports an error. *)
Definition closed (id : sink_id) (st : state) : state :=
  with_sink id (set_file (sinks st id) None) st.

Definition done_state (st : state) : state :=
  let st1 := with_loc (mkLoc false false (fdata (loc st)) false) st in
  let st2 := closed Gss (closed Met (closed Dsc (closed Frm st1))) in
  if negb (err st =? 0) then with_exit_code 1 st2 else st2.

(** The records of one orientation: the line for the frames sink, with the
    keypoint [keys0] and the angle, and the 128 fields and the end of line
    for the descriptors sink. *)
Definition frames_record (st : state) (keys0 : VlSiftKeypoint) (angle : float) : event :=
  Fprintf (File Frm (file (sinks st Frm))) "%g %g %g %g\n"
          [ADbl (x keys0); ADbl (y keys0); ADbl (sigma keys0); ADbl angle].

Definition descriptor_record (st : state) (descr : nat -> vl_sift_pix) : list event :=
  map (fun i => Fprintf (File Dsc (file (sinks st Dsc))) "%g " [ADbl (descr i)])
      (seq 0 128)
  ++ [Fprintf (File Dsc (file (sinks st Dsc))) "\n" []].

Definition orientation_events (st : state) (keys0 : VlSiftKeypoint)
    (o : float * (nat -> vl_sift_pix)) : list event :=
  (if active (sinks st Frm) then [frames_record st keys0 (fst o)] else [])
  ++ (if active (sinks st Dsc) then descriptor_record st (snd o) else []).

(** The snapshot of one level: the path of its file, the narrowed plane, and
    the calls that write it. *)
Definition levels (S : Z) : list Z := map Z.of_nat (seq 0 (Z.to_nat S)).

Definition gss_level_path (pat basename : string) (o s : Z) : string :=
  vl_string_replace_wildcard pat (basename +++ gss_suffix o s).

Definition narrowed_plane (oc : octave_env) (s : Z) : list Z :=
  map (fun i => cast_uint8 (octave_level oc s i))
      (seq 0 (Z.to_nat (octave_width oc * octave_height oc))).

Definition gss_level_events (id : sink_id) (pat basename : string) (v : Z)
    (oc : octave_env) (s : Z) : list event :=
  let p := gss_level_path pat basename (o_cur oc) s in
  [Fopen id p "w" true;
   PgmInsert id (Some p) (mkPgm (octave_width oc) (octave_height oc) 255 1)
             (narrowed_plane oc s) 0]
  ++ (if negb (v =? 0)
      then [Fprintf Stdout "sift: saved gss level to '%s'\n" [AStr p]]
      else [])
  ++ [Fclose id p].

(** The resources that a trace holds: for each sink the streams opened for
    it and not closed, and how many times the input file, the image data, the
    converted data, the snapshot buffer and the filter are held. *)
Record resources := mkRes {
  r_frm    : list string ;
  r_dsc    : list string ;
  r_met    : list string ;
  r_gss    : list string ;
  r_ifr    : list string ;
  r_input  : nat ;
  r_data   : nat ;
  r_fdata  : nat ;
  r_gssbuf : nat ;
  r_filt   : nat
}.

Definition no_resources : resources := mkRes [] [] [] [] [] 0 0 0 0 0.

Definition r_files (r : resources) (id : sink_id) : list string :=
  match id with
  | Frm => r_frm r
  | Dsc => r_dsc r
  | Met => r_met r
  | Gss => r_gss r
  | Ifr => r_ifr r
  end.

Fixpoint remove_one (p : string) (l : list string) : list string :=
  match l with
  | [] => []
  | q :: rest => if String.eqb p q then rest else q :: remove_one p rest
  end.

Definition with_files (id : sink_id) (l : list string) (r : resources) : resources :=
  match id with
  | Frm => mkRes l (r_dsc r) (r_met r) (r_gss r) (r_ifr r)
                 (r_input r) (r_data r) (r_fdata r) (r_gssbuf r) (r_filt r)
  | Dsc => mkRes (r_frm r) l (r_met r) (r_gss r) (r_ifr r)
                 (r_input r) (r_data r) (r_fdata r) (r_gssbuf r) (r_filt r)
  | Met => mkRes (r_frm r) (r_dsc r) l (r_gss r) (r_ifr r)
                 (r_input r) (r_data r) (r_fdata r) (r_gssbuf r) (r_filt r)
  | Gss => mkRes (r_frm r) (r_dsc r) (r_met r) l (r_ifr r)
                 (r_input r) (r_data r) (r_fdata r) (r_gssbuf r) (r_filt r)
  | Ifr => mkRes (r_frm r) (r_dsc r) (r_met r) (r_gss r) l
                 (r_input r) (r_data r) (r_fdata r) (r_gssbuf r) (r_filt r)
  end.

Definition with_counts (i d f g fl : nat) (r : resources) : resources :=
  mkRes (r_frm r) (r_dsc r) (r_met r) (r_gss r) (r_ifr r) i d f g fl.

Definition track (r : resources) (ev : event) : resources :=
  match ev with
  | FopenIn _ true =>
      with_counts (S (r_input r)) (r_data r) (r_fdata r) (r_gssbuf r) (r_filt r) r
  | FcloseIn =>
      with_counts (pred (r_input r)) (r_data r) (r_fdata r) (r_gssbuf r) (r_filt r) r
  | Fopen id p _ true => with_files id (p :: r_files r id) r
  | Fclose id p => with_files id (remove_one p (r_files r id)) r
  | Malloc Data true =>
      with_counts (r_input r) (S (r_data r)) (r_fdata r) (r_gssbuf r) (r_filt r) r
  | Malloc Fdata true =>
      with_counts (r_input r) (r_data r) (S (r_fdata r)) (r_gssbuf r) (r_filt r) r
  | Malloc GssBuffer true =>
      with_counts (r_input r) (r_data r) (r_fdata r) (S (r_gssbuf r)) (r_filt r) r
  | Free Data =>
      with_counts (r_input r) (pred (r_data r)) (r_fdata r) (r_gssbuf r) (r_filt r) r
  | Free Fdata =>
      with_counts (r_input r) (r_data r) (pred (r_fdata r)) (r_gssbuf r) (r_filt r) r
  | Free GssBuffer =>
      with_counts (r_input r) (r_data r) (r_fdata r) (pred (r_gssbuf r)) (r_filt r) r
  | SiftNew _ _ _ _ _ true =>
      with_counts (r_input r) (r_data r) (r_fdata r) (r_gssbuf r) (S (r_filt r)) r
  | SiftDelete =>
      with_counts (r_input r) (r_data r) (r_fdata r) (r_gssbuf r) (pred (r_filt r)) r
  | _ => r
  end.

Definition held (r : resources) (evs : list event) : resources := fold_left track evs r.

Definition b2n (b : bool) : nat := if b then 1%nat else 0%nat.

Definition o2l (o : option string) : list string :=
  match o with
  | Some p => [p]
  | None => []
  end.

(** The variables of [main] account for the resources held: a sink holds the
    stream in its [file] field, and the pointers [in], [data] and [filt] are
    null exactly when nothing is held through them; no snapshot buffer is
    held. *)
Definition coupled (r : resources) (st : state) : Prop :=
  (forall id, r_files r id = o2l (file (sinks st id))) /\
  r_input r = b2n (in_ (loc st)) /\
  r_data r = b2n (data (loc st)) /\
  r_filt r = b2n (filt (loc st)) /\
  r_gssbuf r = 0%nat.

(** Nothing is open: every sink has a null handle. *)
Definition quiescent (st : state) : Prop := forall id, file (sinks st id) = None.

(** The streams of all sinks, the input file, the image data, the snapshot
    buffer and the filter are released. *)
Definition released (r : resources) : Prop :=
  (forall id, r_files r id = []) /\
  r_input r = 0%nat /\ r_data r = 0%nat /\ r_gssbuf r = 0%nat /\ r_filt r = 0%nat.

(** [wpr m Q R r st]: run from [st] with the resources [r] held, [m] falls
    through with a value, resources and a state that satisfy [Q], or jumps to
    [done] with resources and a state that satisfy [R]; it neither exits nor
    aborts. *)
Definition wpr {A} (m : M A) (Q : A -> resources -> state -> Prop)
    (R : resources -> state -> Prop) (r : resources) (st : state) : Prop :=
  let '(fl, st', evs) := m st in
  match fl with
  | Next a => Q a (held r evs) st'
  | GotoDone => R (held r evs) st'
  | Exit _ | Abort => False
  end.

(** A block that leaves the state as it is and falls through, and whose
    calls satisfy [P]. *)
Definition emits (P : list event -> Prop) (m : M unit) : Prop :=
  forall st, exists evs, m st = (Next tt, st, evs) /\ P evs.

(** The calls hold and release nothing. *)
Definition neutral : M unit -> Prop := emits (fun evs => forall r, held r evs = r).

(** The calls write no record to the frames or the descriptors sink. *)
Definition is_record (ev : event) : bool :=
  match ev with
  | Fprintf (File Frm _) _ _ | Fprintf (File Dsc _) _ _ => true
  | _ => false
  end.

Definition no_record (ev : event) : Prop := is_record ev = false.

Definition quiet : M unit -> Prop := emits (Forall no_record).

(** The invariant of the loop body: the variables account for the resources
    held, and the gss and read-frames sinks are closed. *)
Definition body_inv (r : resources) (st : state) : Prop :=
  coupled r st /\ file (sinks st Gss) = None /\ file (sinks st Ifr) = None.

(** The [active] flag of the sink [id] is [act]; [err] holds an error. *)
Definition keeps (id : sink_id) (act : bool) (s : state) : Prop :=
  active (sinks s id) = act.

Definition failed (s : state) : Prop := err s <> 0.

(** [wpx m Q R st]: as [wp], with postconditions that see the calls
    performed. *)
Definition wpx {A} (m : M A) (Q : A -> state -> list event -> Prop)
    (R : state -> list event -> Prop) (st : state) : Prop :=
  let '(fl, st', evs) := m st in
  match fl with
  | Next a => Q a st' evs
  | GotoDone => R st' evs
  | Exit _ | Abort => False
  end.

(** The lines of the frames output, and the fields and the lines of the
    descriptors output. *)
Definition is_frames_line (ev : event) : bool :=
  match ev with
  | Fprintf (File Frm _) fmt _ => String.eqb fmt "%g %g %g %g\n"
  | _ => false
  end.

Definition is_descriptor_field (ev : event) : bool :=
  match ev with
  | Fprintf (File Dsc _) fmt _ => String.eqb fmt "%g "
  | _ => false
  end.

Definition is_descriptor_line (ev : event) : bool :=
  match ev with
  | Fprintf (File Dsc _) fmt _ => String.eqb fmt "\n"
  | _ => false
  end.

Definition count (p : event -> bool) (evs : list event) : nat :=
  List.length (filter p evs).

(** The octaves that the loop processes: those that the filter provides
    before its first non-zero status. *)
Fixpoint processed (steps : list (Z * octave_env)) : list octave_env :=
  match steps with
  | [] => []
  | (rc, oc) :: rest => if rc =? 0 then oc :: processed rest else []
  end.

(** The sum, over the keypoints detected in the octaves, of their numbers of
    orientations. *)
Definition orientation_count (ks : list key_env) : nat :=
  list_sum (map (fun k => List.length (orientations k)) ks).

Definition orientation_total (ocs : list octave_env) : nat :=
  list_sum (map (fun oc => orientation_count (keys oc)) ocs).

(** ** Vocabulary of the option loop *)

(** The codes that [switch (ch)] has a case for. *)
Definition handled_option (c : Z) : bool :=
  (c =? chr "?") || (c =? chr ":") || (c =? chr "h") || (c =? chr "v")
  || (c =? opt_version) || (c =? opt_frames) || (c =? opt_descriptors)
  || (c =? opt_meta) || (c =? opt_read_frames) || (c =? opt_gss)
  || (c =? chr "O") || (c =? chr "S") || (c =? opt_first_octave)
  || (c =? opt_edges_tresh) || (c =? opt_peaks_tresh).

(** The number of [-v] among the options. *)
Definition count_verbose (items : list opt_item) : Z :=
  Z.of_nat (List.length (filter (fun it => ch it =? chr "v") items)).

(** What [--help] and [--version] print. *)
Definition information (vs argv0 : string) (c : Z) : event :=
  if c =? chr "h" then Fprintf Stdout help_message [AStr argv0]
  else Fprintf Stdout "sift: driver version: %s libvl version: %s"
                      [AStr VL_SIFT_DRIVER_VERSION_STRING; AStr vs].

(** The diagnostic of the check that follows the option loop. *)
Definition option_diagnostic (argv0 : string) (st : state) : event :=
  Fprintf Stderr "%s: error: %s (%d)\n" [AStr argv0; AStr (err_msg st); AInt (err st)].

(** The ranges that the option loop keeps the parameters in: the defaults,
    or values that passed the test of their option. *)
Definition params_in_range (p : params) : Prop :=
  -1 <= par_O p /\ 0 <= par_S p /\ -1 <= par_omin p /\
  PrimFloat.ltb (edges_tresh p) 0%float = false /\
  PrimFloat.ltb (peaks_tresh p) 0%float = false.

(** ** Vocabulary of the image loop *)

(** The calls that the body of the image loop may perform before the meta
    record, [v] being the value of [verbose]: it opens the input, opens sinks
    other than the read-frames sink for writing, prints on the standard
    output if [v] is not zero, writes records to the frames and descriptors
    sinks, takes memory, creates the filter, and, for the snapshots, writes
    and closes the gss sink and releases the snapshot buffer. *)
Definition stage_event (v : Z) (ev : event) : bool :=
  match ev with
  | FopenIn _ _ => true
  | Fopen id _ mode _ => negb (sink_id_eqb id Ifr) && String.eqb mode "w"
  | Fclose id _ => sink_id_eqb id Gss
  | Fprintf Stdout _ _ => negb (v =? 0)
  | Fprintf (File id _) _ _ => sink_id_eqb id Frm || sink_id_eqb id Dsc
  | Malloc _ _ => true
  | Free b => match b with GssBuffer => true | _ => false end
  | PgmInsert id _ _ _ _ => sink_id_eqb id Gss
  | SiftNew _ _ _ _ _ _ => true
  | _ => false
  end.

Definition stage (v : Z) (ev : event) : Prop := stage_event v ev = true.

(** The parameters are [p] and the exit code is [c]. *)
Definition framed (p : params) (c : Z) (s : state) : Prop :=
  par s = p /\ exit_code s = c.

(** The meta record of an image, as the block headed [Meta file] writes it
    through the handle [f]. *)
Definition meta_record (e : image_env) (f : option string) (st : state) : list event :=
  if active (sinks st Met) then
    [Fprintf (File Met f) "<sift\n" [];
     Fprintf (File Met f) "  input       = '%s'\n" [AStr (img_name e)]]
    ++ (if active (sinks st Dsc)
        then [Fprintf (File Met f) "  descriptors = '%s'\n" [AStr (name (sinks st Dsc))]]
        else [])
    ++ (if active (sinks st Frm)
        then [Fprintf (File Met f) "  frames      = '%s'\n" [AStr (name (sinks st Frm))]]
        else [])
    ++ [Fprintf (File Met f) ">\n" []]
  else [].

Definition meta_events (e : image_env) (st : state) : list event :=
  meta_record e (file (sinks st Met)) st.

Definition is_stdout (ev : event) : bool :=
  match ev with
  | Fprintf Stdout _ _ => true
  | _ => false
  end.

(** The calls that the processing of an image may perform: those of its
    stages, the meta record, and those of the statements after [done]. *)
Definition image_event (ev : event) : bool :=
  stage_event 1 ev ||
  match ev with
  | Fprintf (File Met _) _ _ => true
  | Fprintf Stderr fmt _ => String.eqb fmt "sift: err: %s (%d)\n"
  | SiftDelete | Free Data | FcloseIn => true
  | Fclose id _ => negb (sink_id_eqb id Ifr)
  | _ => false
  end.

(** The calls of the statements that follow the label [done]. *)
Definition close_events (id : sink_id) (st : state) : list event :=
  match file (sinks st id) with
  | Some f => [Fclose id f]
  | None => []
  end.

Definition error_line (st : state) : event :=
  Fprintf Stderr "sift: err: %s (%d)\n" [AStr (err_msg st); AInt (err st)].

Definition done_events (st : state) : list event :=
  (if filt (loc st) then [SiftDelete] else [])
  ++ (if data (loc st) then [Free Data] else [])
  ++ (if in_ (loc st) then [FcloseIn] else [])
  ++ close_events Frm st ++ close_events Dsc st
  ++ close_events Met st ++ close_events Gss st
  ++ (if negb (err st =? 0) then [error_line st] else []).

(** The value of [err] at the end of each image of the loop, in order. *)
Fixpoint batch_errors (images : list image_env) (st : state) : list Z :=
  match images with
  | [] => []
  | e :: rest =>
      let '(_, st1, _) := process_image e st in
      err st1 :: batch_errors rest st1
  end.

(** What the loop body prints before it opens the input. *)
Definition image_banner (e : image_env) (st : state) : list event :=
  (if negb (verbose (par st) =? 0)
   then [Fprintf Stdout "sift: processing '%s'\n" [AStr (img_name e)]] else [])
  ++ (if 1 <? verbose (par st)
      then [Fprintf Stdout "sift: basename is '%s'\n"
                    [AStr (truncate sizeof_basename (img_basename e))]]
      else []).

(** What the loop body prints once the header is read. *)
Definition image_size_line (e : image_env) (st : state) : list event :=
  if negb (verbose (par st) =? 0)
  then [Fprintf Stdout "sift: image is %d by %d pixels\n"
                [AInt (width (pim e)); AInt (height (pim e))]]
  else [].

(** The state in which the loop body jumps to [done] with the status [rc] and
    the message [m], the pointers [data] and [fdata] being as [d] and [f]
    say. *)
Definition failed_read (rc : Z) (m : string) (d f : bool) (st : state) : state :=
  with_err_msg (truncate sizeof_err_msg m)
    (with_err rc (with_loc (mkLoc (in_ (loc st)) d f (filt (loc st))) st)).

(** The calls of the level at which a snapshot fails: the [fopen], with its
    outcome [ok], and, if the file was opened, the write that fails with the
    status [rc]. *)
Definition gss_failed_level_events (id : sink_id) (pat basename : string)
    (oc : octave_env) (s : Z) (ok : bool) (rc : Z) : list event :=
  let p := gss_level_path pat basename (o_cur oc) s in
  Fopen id p "w" ok
  :: (if ok
      then [PgmInsert id (Some p) (mkPgm (octave_width oc) (octave_height oc) 255 1)
                      (narrowed_plane oc s) rc]
      else []).

(** The state with the thresholds replaced, and what it means for a
    computation to ignore them: run with other thresholds, it takes the same
    path, performs the same calls and leaves the same state, thresholds
    apart. *)
Definition with_thresholds (et pt : float) (st : state) : state :=
  with_par (mkParams et pt (par_O (par st)) (par_S (par st)) (par_omin (par st))
                     (verbose (par st))) st.

Definition ignores_thresholds {A} (m : M A) : Prop :=
  forall et pt st,
    m (with_thresholds et pt st)
    = let '(fl, st', evs) := m st in (fl, with_thresholds et pt st', evs).

(** The variable that an integer option scans into, and the one that a
    threshold option scans into. *)
Definition int_option_var (c : Z) (p : params) : Z :=
  if c =? chr "O" then par_O p else if c =? chr "S" then par_S p else par_omin p.

Definition float_option_var (c : Z) (p : params) : float :=
  if c =? opt_edges_tresh then edges_tresh p else peaks_tresh p.

(** ** Vocabulary of the frames output *)

(** A call other than the [fopen] of the frames sink. *)
Definition no_open (ev : event) : Prop := opens Frm ev = false.

(** The frames sink is active with the pattern [P]. *)
Definition frames_sink (P : string) (s : state) : Prop :=
  active (sinks s Frm) = true /\ pattern (sinks s Frm) = P.

(** The path of the frames file of an image: its base name put into the
    pattern. *)
Definition frame_path (P : string) (e : image_env) : string :=
  vl_string_replace_wildcard P (img_basename e).

Definition frames_open (P : string) (e : image_env) : event :=
  Fopen Frm (frame_path P e) "w" true.

(** The number of frames records that an image processed to its end yields:
    one for each orientation of each keypoint of the octaves processed. *)
Definition frames_lines (e : image_env) : nat :=
  orientation_total (processed (octaves e)).

(** * Properties *)

(** ** The octave-advance step *)

Lemma neqb_true (z : Z) : z <> 0 -> negb (z =? 0) = true.
Proof. intros H. apply negb_true_iff, Z.eqb_neq, H. Qed.

Lemma neqb_false (z : Z) : z = 0 -> negb (z =? 0) = false.
Proof. intros ->. reflexivity. Qed.

(** Any non-zero status of the filter ends the octave loop by [break], with
    [err] cleared. *)
Lemma octave_loop_stop (e : image_env) (basename : string) (rc : Z)
    (oc : octave_env) (rest : list (Z * octave_env)) (st : state) :
  rc <> 0 ->
  octave_loop e basename ((rc, oc) :: rest) st
  = (Next tt, with_err (VL_ERR_OK K) st, []).
Proof.
  intros Hrc. cbn [octave_loop]. unfold bind at 1. cbn [set_err].
  rewrite (neqb_true _ Hrc). destruct st; reflexivity.
Qed.

Lemma octave_loop_exhausted (e : image_env) (basename : string) (st : state) :
  octave_loop e basename [] st = (Next tt, with_err (VL_ERR_OK K) st, []).
Proof. destruct st; reflexivity. Qed.

(** ** Invariants of the trace *)

Section Preserves.

Variable I : list event -> state -> Prop.


Lemma preserves_ret {A} (a : A) : preserves I (ret a).
Proof. intros h st H. cbn. now rewrite app_nil_r. Qed.

Lemma preserves_goto_done {A} : preserves I (@goto_done A).
Proof. intros h st H. cbn. now rewrite app_nil_r. Qed.

Lemma preserves_exit {A} (c : Z) : preserves I (@exit A c).
Proof. intros h st H. cbn. now rewrite app_nil_r. Qed.

Lemma preserves_assert_fail {A} : preserves I (@assert_fail A).
Proof. intros h st H. cbn. now rewrite app_nil_r. Qed.

Lemma preserves_bind {A B} (m : M A) (f : A -> M B) :
  preserves I m -> (forall a, preserves I (f a)) -> preserves I (bind m f).
Proof.
  intros Hm Hf h st H. unfold bind. specialize (Hm h st H).
  destruct (m st) as [[fl st1] ev1]. destruct fl as [a| | |]; try exact Hm.
  specialize (Hf a (h ++ ev1) st1 Hm).
  destruct (f a st1) as [[r st2] ev2]. now rewrite app_assoc.
Qed.

(** The state read by [get] satisfies the invariant with some history. *)
Lemma preserves_get {B} (f : state -> M B) :
  (forall s, (exists h, I h s) -> preserves I (f s)) -> preserves I (bind get f).
Proof.
  intros Hf h st H. unfold bind, get.
  assert (Hs : exists h0, I h0 st) by (exists h; exact H).
  specialize (Hf st Hs h st H). destruct (f st st) as [[r st2] ev2]. exact Hf.
Qed.

Lemma preserves_when (b : bool) (m : M unit) :
  (b = true -> preserves I m) -> preserves I (when b m).
Proof. destruct b; cbn; intros H; [now apply H | apply preserves_ret]. Qed.

Lemma preserves_if {A} (b : bool) (m1 m2 : M A) :
  (b = true -> preserves I m1) -> (b = false -> preserves I m2) ->
  preserves I (if b then m1 else m2).
Proof. destruct b; auto. Qed.

Lemma preserves_for_each {A} (l : list A) (body : A -> M unit) :
  (forall a, In a l -> preserves I (body a)) -> preserves I (for_each l body).
Proof.
  induction l as [|a l IH]; intros H; cbn [for_each].
  - apply preserves_ret.
  - apply preserves_bind; [apply H; now left | intros _; apply IH].
    intros b Hb. apply H. now right.
Qed.

Lemma preserves_at_done (body after : M unit) :
  preserves I body -> preserves I after -> preserves I (at_done body after).
Proof.
  intros Hb Ha h st H. unfold at_done. specialize (Hb h st H).
  destruct (body st) as [[fl st1] ev1].
  destruct fl as [a| | |]; try exact Hb.
  - specialize (Ha (h ++ ev1) st1 Hb).
    destruct (after st1) as [[r st2] ev2]. now rewrite app_assoc.
  - specialize (Ha (h ++ ev1) st1 Hb).
    destruct (after st1) as [[r st2] ev2]. now rewrite app_assoc.
Qed.

End Preserves.

(** ** An inactive sink is never used *)

Lemma Forall_app_intro {A} (P : A -> Prop) (l1 l2 : list A) :
  Forall P l1 -> Forall P l2 -> Forall P (l1 ++ l2).
Proof. intros H1 H2. apply Forall_app. now split. Qed.

Ltac forall_split :=
  repeat first [ apply Forall_nil | apply Forall_cons | apply Forall_app_intro ].


Lemma upd_sink_same (id : sink_id) (fm : VlFileMeta) (f : sink_id -> VlFileMeta) :
  upd_sink id fm f id = fm.
Proof. unfold upd_sink. now destruct id. Qed.

Lemma upd_sink_other (id j : sink_id) (fm : VlFileMeta) (f : sink_id -> VlFileMeta) :
  j <> id -> upd_sink id fm f j = f j.
Proof. unfold upd_sink. destruct j, id; cbn; congruence. Qed.

Lemma sink_id_eqb_eq (a b : sink_id) : sink_id_eqb a b = true <-> a = b.
Proof. destruct a, b; cbn; split; congruence. Qed.

Lemma sink_id_eqb_neq (a b : sink_id) : sink_id_eqb a b = false <-> a <> b.
Proof. destruct a, b; cbn; split; congruence. Qed.

Lemma sink_id_dec (a b : sink_id) : {a = b} + {a <> b}.
Proof. decide equality. Qed.

(** The helpers keep the [active] flag. *)
Lemma vl_file_meta_open_active fo id fm b mode :
  active (snd (fst (vl_file_meta_open fo id fm b mode))) = active fm.
Proof.
  unfold vl_file_meta_open.
  destruct (active fm) eqn:Ha; cbn; [|exact Ha].
  destruct (_ <=? _); cbn; [exact Ha|].
  destruct (fo _ _); exact Ha.
Qed.

Lemma vl_file_meta_close_active id fm :
  active (fst (vl_file_meta_close id fm)) = active fm.
Proof. unfold vl_file_meta_close. now destruct (file fm). Qed.

Lemma vl_file_meta_open_inactive fo id fm b mode :
  active fm = false -> vl_file_meta_open fo id fm b mode = (VL_ERR_OK K, fm, []).
Proof. intros H. unfold vl_file_meta_open. now rewrite H. Qed.

Lemma save_gss_inactive fo S oc id fm b v :
  active fm = false ->
  save_gss fo S oc id fm b v = mkGss (Some (VL_ERR_OK K)) None fm [].
Proof. intros H. unfold save_gss. now rewrite H. Qed.

(** The snapshot keeps the [active] flag of its sink. *)
Lemma save_gss_levels_active fo oc j b v pim n s e fm :
  active (snd (fst (save_gss_levels fo oc j b v pim n s e fm))) = active fm.
Proof.
  revert s e fm. induction n as [|n IH]; intros s e fm; cbn [save_gss_levels].
  - reflexivity.
  - pose proof (vl_file_meta_open_active fo j fm
                  (b +++ truncate (sizeof_tmp - strlen b) (gss_suffix (o_cur oc) s)) "w")
      as Ho.
    destruct (vl_file_meta_open fo j fm _ "w") as [[e1 fm1] ev1].
    cbn [fst snd] in Ho.
    destruct (negb (e1 =? 0)); [exact Ho|].
    destruct (negb (pgm_insert_rc oc (name fm1) =? 0)); [exact Ho|].
    pose proof (vl_file_meta_close_active j fm1) as Hc.
    destruct (vl_file_meta_close j fm1) as [fm2 ev4]. cbn [fst] in Hc.
    specialize (IH (s + 1) (Some (pgm_insert_rc oc (name fm1))) fm2).
    destruct (save_gss_levels fo oc j b v pim n (s + 1) _ fm2) as [[[r e'] fm3] ev5].
    cbn [fst snd] in *. congruence.
Qed.

Lemma save_gss_active fo S oc j fm b v :
  active (gss_fm (save_gss fo S oc j fm b v)) = active fm.
Proof.
  unfold save_gss. destruct (negb (active fm)); [reflexivity|].
  pose proof (vl_file_meta_close_active j fm) as Hc0.
  destruct (negb (gss_malloc_ok oc)).
  { destruct (vl_file_meta_close j fm); exact Hc0. }
  destruct (_ <=? _).
  { destruct (vl_file_meta_close j fm); exact Hc0. }
  pose proof (save_gss_levels_active fo oc j b v
                (mkPgm (octave_width oc) (octave_height oc) 255 1)
                (Z.to_nat S) 0 None fm) as Hl.
  destruct (save_gss_levels fo oc j b v _ (Z.to_nat S) 0 None fm) as [[[r e] fm1] ev1].
  pose proof (vl_file_meta_close_active j fm1) as Hc.
  destruct (vl_file_meta_close j fm1) as [fm2 ev2]. cbn [fst snd gss_fm] in *.
  congruence.
Qed.

Section SinkInv.

Variable id : sink_id.
Variable act : bool.

Lemma sink_inv_intro h st evs st' :
  sink_inv id act h st ->
  (act = false -> Forall (fun ev => uses id ev = false) evs) ->
  active (sinks st' id) = act ->
  sink_inv id act (h ++ evs) st'.
Proof.
  intros [Hh Ha] Hev Ha'. split; [|exact Ha'].
  intros Hb. apply Forall_app_intro; auto.
Qed.

Lemma sink_inv_state_only {A} (m : M A) :
  (forall st, exists fl st', m st = (fl, st', []) /\ sinks st' = sinks st) ->
  preserves (sink_inv id act) m.
Proof.
  intros H h st Hi. destruct (H st) as (fl & st' & -> & Hs).
  cbn. eapply sink_inv_intro; [exact Hi | constructor |].
  rewrite Hs. apply Hi.
Qed.

Lemma sink_inv_set_err e : preserves (sink_inv id act) (set_err e).
Proof. apply sink_inv_state_only. intros st. now eexists _, _. Qed.

Lemma sink_inv_set_err_msg m : preserves (sink_inv id act) (set_err_msg m).
Proof. apply sink_inv_state_only. intros st. now eexists _, _. Qed.

Lemma sink_inv_set_exit_code c : preserves (sink_inv id act) (set_exit_code c).
Proof. apply sink_inv_state_only. intros st. now eexists _, _. Qed.

Lemma sink_inv_set_par p : preserves (sink_inv id act) (set_par p).
Proof. apply sink_inv_state_only. intros st. now eexists _, _. Qed.

Lemma sink_inv_set_loc l : preserves (sink_inv id act) (set_loc l).
Proof. apply sink_inv_state_only. intros st. now eexists _, _. Qed.

Lemma sink_inv_call evs :
  (act = false -> Forall (fun ev => uses id ev = false) evs) ->
  preserves (sink_inv id act) (call evs).
Proof.
  intros H h st Hi. cbn. eapply sink_inv_intro; [exact Hi | exact H | apply Hi].
Qed.

Lemma sink_inv_printf fmt args : preserves (sink_inv id act) (printf fmt args).
Proof. apply sink_inv_call. now repeat constructor. Qed.

Lemma sink_inv_fprintf j fmt args :
  (act = false -> j <> id) ->
  (act = false -> reports id (Fprintf (File j None) fmt args) = false) ->
  preserves (sink_inv id act) (fprintf j fmt args).
Proof.
  intros Hj Hr h st Hi. cbn.
  eapply sink_inv_intro; [exact Hi | | apply Hi].
  intros Hb. specialize (Hj Hb). specialize (Hr Hb).
  repeat constructor. unfold uses. cbn [opens writes allocates_for].
  apply sink_id_eqb_neq in Hj. rewrite Hj. cbn in *.
  destruct j; try reflexivity. now rewrite Hr.
Qed.

Lemma sink_inv_set_sink j fm :
  (j = id -> active fm = act) -> preserves (sink_inv id act) (set_sink j fm).
Proof.
  intros Hj h st Hi. cbn. eapply sink_inv_intro; [exact Hi | constructor |].
  cbn. destruct (sink_id_dec id j) as [->|Hne].
  - rewrite upd_sink_same. now apply Hj.
  - rewrite upd_sink_other by congruence. apply Hi.
Qed.

Lemma vl_file_meta_open_uses fo j fm b mode :
  j <> id ->
  Forall (fun ev => uses id ev = false) (snd (vl_file_meta_open fo j fm b mode)).
Proof.
  intros Hj. assert (Hne : sink_id_eqb j id = false) by now apply sink_id_eqb_neq.
  unfold vl_file_meta_open.
  destruct (active fm); cbn; [|constructor].
  destruct (_ <=? _); cbn; [constructor|].
  destruct (fo _ _); cbn; repeat constructor; unfold uses; cbn; now rewrite Hne.
Qed.

Lemma sink_inv_file_meta_open fo j b mode :
  preserves (sink_inv id act) (file_meta_open fo j b mode).
Proof.
  intros h st Hi. unfold file_meta_open, bind, get.
  pose proof (vl_file_meta_open_active fo j (sinks st j) b mode) as Hact.
  assert (Hev : act = false ->
                Forall (fun ev => uses id ev = false)
                       (snd (vl_file_meta_open fo j (sinks st j) b mode))).
  { intros Hb. destruct (sink_id_dec j id) as [->|Hj].
    - destruct Hi as [_ Ha]. rewrite Hb in Ha.
      rewrite (vl_file_meta_open_inactive _ _ _ _ _ Ha). constructor.
    - now apply vl_file_meta_open_uses. }
  destruct (vl_file_meta_open fo j (sinks st j) b mode) as [[e fm] evs].
  cbn in *. rewrite app_nil_r.
  eapply sink_inv_intro; [exact Hi | exact Hev |].
  cbn. destruct (sink_id_dec id j) as [->|Hne].
  - rewrite upd_sink_same, Hact. apply Hi.
  - rewrite upd_sink_other by congruence. apply Hi.
Qed.

Lemma sink_inv_file_meta_close j : preserves (sink_inv id act) (file_meta_close j).
Proof.
  intros h st Hi. unfold file_meta_close, bind, get.
  pose proof (vl_file_meta_close_active j (sinks st j)) as Hact.
  assert (Hev : Forall (fun ev => uses id ev = false)
                       (snd (vl_file_meta_close j (sinks st j)))).
  { unfold vl_file_meta_close. destruct (file (sinks st j)); now repeat constructor. }
  destruct (vl_file_meta_close j (sinks st j)) as [fm evs].
  cbn in *.
  eapply sink_inv_intro; [exact Hi | intros _; exact Hev |].
  cbn. destruct (sink_id_dec id j) as [->|Hne].
  - rewrite upd_sink_same, Hact. apply Hi.
  - rewrite upd_sink_other by congruence. apply Hi.
Qed.

(** The calls of a snapshot only use the sink that is snapshot. *)
Lemma save_gss_levels_uses fo oc j b v pim n s e fm :
  j <> id ->
  Forall (fun ev => uses id ev = false)
         (snd (save_gss_levels fo oc j b v pim n s e fm)).
Proof.
  intros Hj. assert (Hne : sink_id_eqb j id = false) by now apply sink_id_eqb_neq.
  revert s e fm. induction n as [|n IH]; intros s e fm; cbn [save_gss_levels].
  - constructor.
  - pose proof (vl_file_meta_open_uses fo j fm
                  (b +++ truncate (sizeof_tmp - strlen b) (gss_suffix (o_cur oc) s))
                  "w" Hj) as Hev.
    destruct (vl_file_meta_open fo j fm _ "w") as [[e1 fm1] ev1]. cbn [snd] in Hev.
    destruct (negb (e1 =? 0)); [exact Hev|].
    assert (Hins : forall buffer rc,
               uses id (PgmInsert j (file fm1) pim buffer rc) = false).
    { intros. unfold uses; cbn. now rewrite Hne. }
    destruct (negb (pgm_insert_rc oc (name fm1) =? 0)).
    { cbn [snd]. apply Forall_app_intro; [exact Hev|]. repeat constructor. apply Hins. }
    unfold vl_file_meta_close.
    specialize (IH (s + 1) (Some (pgm_insert_rc oc (name fm1)))).
    assert (Hv : Forall (fun ev => uses id ev = false)
                   (if negb (v =? 0)
                    then [Fprintf Stdout "sift: saved gss level to '%s'\n"
                                  [AStr (name fm1)]]
                    else [])).
    { destruct (negb (v =? 0)); now repeat constructor. }
    destruct (file fm1) eqn:Hf.
    + specialize (IH (set_file fm1 None)).
      destruct (save_gss_levels fo oc j b v pim n (s + 1) _ (set_file fm1 None))
        as [[[r e'] fm3] ev5]. cbn [snd fst gss_events app] in *.
      forall_split; try assumption; try reflexivity. apply Hins.
    + specialize (IH fm1).
      destruct (save_gss_levels fo oc j b v pim n (s + 1) _ fm1)
        as [[[r e'] fm3] ev5]. cbn [snd fst gss_events app] in *.
      forall_split; try assumption; try reflexivity. apply Hins.
Qed.

Lemma allocates_for_other b0 ok : id <> Gss -> uses id (Malloc b0 ok) = false.
Proof. intros H. unfold uses; cbn. destruct b0, id; cbn; congruence. Qed.

Lemma vl_file_meta_close_uses j fm :
  Forall (fun ev => uses id ev = false) (snd (vl_file_meta_close j fm)).
Proof. unfold vl_file_meta_close. destruct (file fm); now repeat constructor. Qed.

Lemma save_gss_uses fo S oc b v fm :
  id <> Gss ->
  Forall (fun ev => uses id ev = false) (gss_events (save_gss fo S oc Gss fm b v)).
Proof.
  intros Hid. unfold save_gss.
  destruct (negb (active fm)); [constructor|].
  destruct (negb (gss_malloc_ok oc)).
  { pose proof (vl_file_meta_close_uses Gss fm) as Hc.
    destruct (vl_file_meta_close Gss fm) as [fm' ev]. cbn [snd gss_events] in *.
    constructor; [now apply allocates_for_other | exact Hc]. }
  destruct (_ <=? _).
  { pose proof (vl_file_meta_close_uses Gss fm) as Hc.
    destruct (vl_file_meta_close Gss fm) as [fm' ev]. cbn [snd gss_events] in *.
    constructor; [now apply allocates_for_other|].
    constructor; [reflexivity | exact Hc]. }
  pose proof (save_gss_levels_uses fo oc Gss b v
                (mkPgm (octave_width oc) (octave_height oc) 255 1)
                (Z.to_nat S) 0 None fm) as Hl.
  destruct (save_gss_levels fo oc Gss b v _ (Z.to_nat S) 0 None fm)
    as [[[r e] fm1] ev1].
  pose proof (vl_file_meta_close_uses Gss fm1) as Hc.
  destruct (vl_file_meta_close Gss fm1) as [fm2 ev2]. cbn [snd gss_events] in *.
  constructor; [now apply allocates_for_other|].
  apply Forall_app_intro; [apply Hl; congruence|].
  constructor; [reflexivity | exact Hc].
Qed.

Ltac sink_inv_step :=
  lazymatch goal with
  | |- preserves _ (ret _) => apply preserves_ret
  | |- preserves _ goto_done => apply preserves_goto_done
  | |- preserves _ (exit _) => apply preserves_exit
  | |- preserves _ assert_fail => apply preserves_assert_fail
  | |- preserves _ (bind get _) => apply preserves_get; intros ? [? [? ?]]
  | |- preserves _ (bind _ _) => apply preserves_bind; [|intros ?]
  | |- preserves _ (when _ _) => apply preserves_when; intros ?
  | |- preserves _ (if _ then _ else _) => apply preserves_if; intros ?
  | |- preserves _ (for_each _ _) => apply preserves_for_each; intros ? ?
  | |- preserves _ (let '(_, _) := ?p in _) => destruct p
  | |- preserves _ (set_err _) => apply sink_inv_set_err
  | |- preserves _ (set_err_msg _) => apply sink_inv_set_err_msg
  | |- preserves _ (set_exit_code _) => apply sink_inv_set_exit_code
  | |- preserves _ (set_par _) => apply sink_inv_set_par
  | |- preserves _ (set_loc _) => apply sink_inv_set_loc
  | |- preserves _ (printf _ _) => apply sink_inv_printf
  | |- preserves _ (file_meta_open _ _ _ _) => apply sink_inv_file_meta_open
  | |- preserves _ (file_meta_close _) => apply sink_inv_file_meta_close
  | |- preserves _ (call _) => apply sink_inv_call; intros _; solve [repeat constructor]
  | |- preserves _ (fprintf _ _ _) =>
      apply sink_inv_fprintf; intros ?;
      [ congruence
      | first [ reflexivity
              | destruct id eqn:?; solve [reflexivity | congruence] ] ]
  end.

Lemma sink_inv_emit_keys ks : preserves (sink_inv id act) (emit_keys ks).
Proof.
  unfold emit_keys. destruct ks as [|k0 rest]; [apply preserves_ret|].
  apply preserves_for_each; intros k _.
  apply preserves_for_each; intros o _.
  unfold emit_orientation. repeat sink_inv_step.
Qed.

Lemma sink_inv_optionally_save_gss e b oc :
  preserves (sink_inv id act) (optionally_save_gss e b oc).
Proof.
  unfold optionally_save_gss.
  apply preserves_get; intros s [h0 [Hh0 Ha0]].
  apply preserves_when; intros Hg. cbv zeta.
  apply preserves_bind; [|intros _].
  { apply sink_inv_set_sink. intros <-. now rewrite save_gss_active. }
  apply preserves_bind; [|intros _].
  { apply sink_inv_call. intros Hb. apply save_gss_uses. congruence. }
  repeat sink_inv_step.
Qed.

Lemma sink_inv_octave_loop e b steps :
  preserves (sink_inv id act) (octave_loop e b steps).
Proof.
  induction steps as [|[rc oc] rest IH]; cbn [octave_loop].
  - repeat sink_inv_step.
  - apply preserves_bind; [sink_inv_step | intros _].
    apply preserves_if; intros _; [sink_inv_step|].
    apply preserves_get; intros s _.
    apply preserves_bind; [repeat sink_inv_step | intros _].
    apply preserves_bind; [apply sink_inv_optionally_save_gss | intros _].
    apply preserves_bind; [repeat sink_inv_step | intros _].
    apply preserves_bind; [apply sink_inv_emit_keys | intros _].
    exact IH.
Qed.

Lemma sink_inv_meta_file e : preserves (sink_inv id act) (meta_file e).
Proof. unfold meta_file. repeat sink_inv_step. Qed.

Lemma sink_inv_image_body e : preserves (sink_inv id act) (image_body e).
Proof.
  unfold image_body.
  apply preserves_bind; [sink_inv_step | intros _].
  apply preserves_bind;
    [unfold determine_files, WERR, set_in; repeat sink_inv_step | intros b].
  apply preserves_bind;
    [unfold read_image_data, set_data, set_fdata; repeat sink_inv_step | intros _].
  apply preserves_bind;
    [unfold new_filter, set_filt; repeat sink_inv_step | intros _].
  apply preserves_bind; [apply sink_inv_octave_loop | intros _].
  apply sink_inv_meta_file.
Qed.

Lemma sink_inv_done_block : preserves (sink_inv id act) done_block.
Proof.
  unfold done_block, release_filter, release_image_data, close_input, print_error,
    set_filt, set_data, set_in.
  repeat sink_inv_step.
Qed.

Lemma sink_inv_process_image e : preserves (sink_inv id act) (process_image e).
Proof.
  apply preserves_at_done; [apply sink_inv_image_body | apply sink_inv_done_block].
Qed.

Lemma sink_inv_batch images :
  preserves (sink_inv id act) (for_each images process_image).
Proof. apply preserves_for_each. intros e _. apply sink_inv_process_image. Qed.

(** Option parsing keeps the sinks as they are when no option configures
    one, and performs no call on a sink in any case. *)
Lemma sink_inv_process_option argv0 it :
  sink_option_code (ch it) = false ->
  preserves (sink_inv id act) (process_option argv0 it).
Proof.
  intros Hn. unfold sink_option_code in Hn.
  repeat (apply orb_false_iff in Hn; destruct Hn as [Hn ?]).
  unfold process_option. cbv zeta.
  repeat (apply preserves_if; intros ?;
          [ first [ congruence | unfold ERR; repeat sink_inv_step ] | ]).
  apply preserves_assert_fail.
Qed.

Lemma sink_inv_parse_options argv0 items :
  Forall (fun it => sink_option_code (ch it) = false) items ->
  preserves (sink_inv id act) (parse_options argv0 items).
Proof.
  induction 1 as [|it rest Hit _ IH]; cbn [parse_options].
  - repeat sink_inv_step.
  - apply preserves_get; intros s _.
    apply preserves_if; intros _; [apply preserves_ret|].
    apply preserves_bind; [now apply sink_inv_process_option | intros _; exact IH].
Qed.

Lemma sink_inv_main_steps argv0 items images :
  Forall (fun it => sink_option_code (ch it) = false) items ->
  preserves (sink_inv id act)
    (parse_options argv0 items ;;
     check_parsing_errors argv0 ;;
     print_sinks ;;
     for_each images process_image ;;
     st <- get ;; ret (exit_code st)).
Proof.
  intros Hn.
  apply preserves_bind; [now apply sink_inv_parse_options | intros _].
  apply preserves_bind;
    [unfold check_parsing_errors; repeat sink_inv_step | intros _].
  apply preserves_bind;
    [unfold print_sinks, PRNFO; repeat sink_inv_step | intros _].
  apply preserves_bind; [apply sink_inv_batch | intros _].
  repeat sink_inv_step.
Qed.

End SinkInv.

Lemma sink_inv_main id argv0 items images :
  Forall (fun it => sink_option_code (ch it) = false) items ->
  let '(_, st, evs) := main argv0 items images in
  sink_inv id (active (init_sinks id)) evs st.
Proof.
  intros Hn. unfold main.
  pose proof (sink_inv_main_steps id (active (init_sinks id)) argv0 items images Hn
                [] init_state) as Hp.
  cbn [app] in Hp.
  match goal with |- context [?m init_state] =>
    destruct (m init_state) as [[fl st] evs] end.
  apply Hp. split; [constructor | reflexivity].
Qed.


(** ** Symbolic execution of the loop body *)

Section Wp.

Variable E : event -> Prop.

Lemma wp_ret {A} (a : A) (Q : A -> state -> Prop) R st :
  Q a st -> wp E (ret a) Q R st.
Proof. intros H. split; [constructor | exact H]. Qed.

Lemma wp_goto_done {A} (Q : A -> state -> Prop) (R : state -> Prop) st :
  R st -> wp E goto_done Q R st.
Proof. intros H. split; [constructor | exact H]. Qed.

Lemma wp_bind {A B} (m : M A) (f : A -> M B) (Q : B -> state -> Prop) R st :
  wp E m (fun a st1 => wp E (f a) Q R st1) R st -> wp E (bind m f) Q R st.
Proof.
  unfold wp, bind. destruct (m st) as [[fl st1] ev1].
  destruct fl as [a| | |]; intros [He H]; try (split; assumption).
  destruct (f a st1) as [[r st2] ev2]. destruct H as [He2 H].
  split; [now apply Forall_app_intro | exact H].
Qed.

Lemma wp_get {B} (f : state -> M B) (Q : B -> state -> Prop) R st :
  wp E (f st) Q R st -> wp E (bind get f) Q R st.
Proof.
  unfold wp, bind, get. destruct (f st st) as [[r st2] ev2]. now cbn.
Qed.

Lemma wp_call evs (Q : unit -> state -> Prop) R st :
  Forall E evs -> Q tt st -> wp E (call evs) Q R st.
Proof. intros He H. now split. Qed.

Lemma wp_set_err e (Q : unit -> state -> Prop) R st :
  Q tt (with_err e st) -> wp E (set_err e) Q R st.
Proof. intros H. split; [constructor | exact H]. Qed.

Lemma wp_set_err_msg m (Q : unit -> state -> Prop) R st :
  Q tt (with_err_msg (truncate sizeof_err_msg m) st) -> wp E (set_err_msg m) Q R st.
Proof. intros H. split; [constructor | exact H]. Qed.

Lemma wp_set_exit_code c (Q : unit -> state -> Prop) R st :
  Q tt (with_exit_code c st) -> wp E (set_exit_code c) Q R st.
Proof. intros H. split; [constructor | exact H]. Qed.

Lemma wp_set_loc l (Q : unit -> state -> Prop) R st :
  Q tt (with_loc l st) -> wp E (set_loc l) Q R st.
Proof. intros H. split; [constructor | exact H]. Qed.

Lemma wp_set_sink id fm (Q : unit -> state -> Prop) R st :
  Q tt (with_sink id fm st) -> wp E (set_sink id fm) Q R st.
Proof. intros H. split; [constructor | exact H]. Qed.

Lemma wp_if {A} (b : bool) (m1 m2 : M A) (Q : A -> state -> Prop) R st :
  (b = true -> wp E m1 Q R st) -> (b = false -> wp E m2 Q R st) ->
  wp E (if b then m1 else m2) Q R st.
Proof. destruct b; auto. Qed.

Lemma wp_when (b : bool) (m : M unit) (Q : unit -> state -> Prop) R st :
  (b = true -> wp E m Q R st) -> (b = false -> Q tt st) -> wp E (when b m) Q R st.
Proof. destruct b; cbn; intros H1 H2; [auto | apply wp_ret; auto]. Qed.

Lemma wp_conseq {A} (m : M A) (Q Q' : A -> state -> Prop) (R R' : state -> Prop) st :
  wp E m Q' R' st -> (forall a s, Q' a s -> Q a s) -> (forall s, R' s -> R s) ->
  wp E m Q R st.
Proof.
  unfold wp. destruct (m st) as [[fl st1] ev1]. intros [He H] HQ HR.
  split; [exact He|]. destruct fl; auto.
Qed.

(** A block that only prints to the standard output. *)
Lemma wp_printf fmt args (Q : unit -> state -> Prop) R st :
  E (Fprintf Stdout fmt args) -> Q tt st -> wp E (printf fmt args) Q R st.
Proof. intros He H. split; [now repeat constructor | exact H]. Qed.

Lemma wp_fprintf id fmt args (Q : unit -> state -> Prop) R st :
  E (Fprintf (File id (file (sinks st id))) fmt args) -> Q tt st ->
  wp E (fprintf id fmt args) Q R st.
Proof. intros He H. split; [now repeat constructor | exact H]. Qed.

Lemma wp_file_meta_open fo id b mode (Q : unit -> state -> Prop) R st :
  (forall e fm evs,
      vl_file_meta_open fo id (sinks st id) b mode = (e, fm, evs) ->
      Forall E evs /\ Q tt (with_err e (with_sink id fm st))) ->
  wp E (file_meta_open fo id b mode) Q R st.
Proof.
  intros H. unfold wp, file_meta_open, bind, get.
  destruct (vl_file_meta_open fo id (sinks st id) b mode) as [[e fm] evs] eqn:Ho.
  destruct (H e fm evs eq_refl) as [He HQ]. cbn. rewrite app_nil_r. now split.
Qed.

Lemma set_file_none (fm : VlFileMeta) : file fm = None -> set_file fm None = fm.
Proof. destruct fm; cbn; now intros ->. Qed.

Lemma wp_file_meta_close id (Q : unit -> state -> Prop) R st :
  (forall p, E (Fclose id p)) ->
  Q tt (with_sink id (set_file (sinks st id) None) st) ->
  wp E (file_meta_close id) Q R st.
Proof.
  intros He H. unfold wp, file_meta_close, bind, get, vl_file_meta_close.
  destruct (file (sinks st id)) eqn:Hf; cbn.
  - split; [now repeat constructor | exact H].
  - rewrite (set_file_none _ Hf) in H. split; [constructor | exact H].
Qed.

Lemma wp_at_done (body after : M unit) (Q : unit -> state -> Prop) R st :
  wp E body (fun _ s => wp E after Q R s) (fun s => wp E after Q R s) st ->
  wp E (at_done body after) Q R st.
Proof.
  unfold wp, at_done. destruct (body st) as [[fl st1] ev1].
  destruct fl as [a| | |]; intros [He H]; try (split; assumption).
  - destruct (after st1) as [[r st2] ev2]. destruct H as [He2 H].
    split; [now apply Forall_app_intro | exact H].
  - destruct (after st1) as [[r st2] ev2]. destruct H as [He2 H].
    split; [now apply Forall_app_intro | exact H].
Qed.

(** A computation that cannot end by a jump falls through. *)
Lemma wp_falls_through {A} (m : M A) (Q : A -> state -> Prop) st :
  wp E m Q (fun _ => False) st ->
  let '(fl, st', evs) := m st in
  (exists a, fl = Next a /\ Q a st') /\ Forall E evs.
Proof.
  unfold wp. destruct (m st) as [[fl st'] evs]. intros [He H].
  split; [|exact He]. destruct fl as [a| | |]; try contradiction. now exists a.
Qed.

Lemma wp_meta_file e (Q : unit -> state -> Prop) R st :
  (forall fmt args, E (Fprintf (File Met (file (sinks st Met))) fmt args)) ->
  Q tt st -> wp E (meta_file e) Q R st.
Proof.
  intros He H. unfold meta_file. apply wp_get.
  apply wp_when; [intros _ | intros _; exact H].
  apply wp_bind, wp_fprintf; [apply He|].
  apply wp_bind, wp_fprintf; [apply He|].
  apply wp_bind, wp_when; intros _.
  { apply wp_fprintf; [apply He|].
    apply wp_bind, wp_when; intros _; [|now apply wp_fprintf].
    apply wp_fprintf; [apply He | now apply wp_fprintf]. }
  apply wp_bind, wp_when; intros _; [|now apply wp_fprintf].
  apply wp_fprintf; [apply He | now apply wp_fprintf].
Qed.

End Wp.

Section WpDone.

Variable E : event -> Prop.

Lemma wp_release_filter (Q : unit -> state -> Prop) (R : state -> Prop) st :
  E SiftDelete ->
  Q tt (with_loc (mkLoc (in_ (loc st)) (data (loc st)) (fdata (loc st)) false) st) ->
  wp E release_filter Q R st.
Proof.
  intros He H. destruct st as [sk p e m c [i d f fl]].
  destruct fl; (split; [now repeat constructor | exact H]).
Qed.

Lemma wp_release_image_data (Q : unit -> state -> Prop) (R : state -> Prop) st :
  E (Free Data) ->
  Q tt (with_loc (mkLoc (in_ (loc st)) false (fdata (loc st)) (filt (loc st))) st) ->
  wp E release_image_data Q R st.
Proof.
  intros He H. destruct st as [sk p e m c [i d f fl]].
  destruct d; (split; [now repeat constructor | exact H]).
Qed.

Lemma wp_close_input (Q : unit -> state -> Prop) (R : state -> Prop) st :
  E FcloseIn ->
  Q tt (with_loc (mkLoc false (data (loc st)) (fdata (loc st)) (filt (loc st))) st) ->
  wp E close_input Q R st.
Proof.
  intros He H. destruct st as [sk p e m c [i d f fl]].
  destruct i; (split; [now repeat constructor | exact H]).
Qed.

Lemma wp_print_error (Q : unit -> state -> Prop) (R : state -> Prop) st :
  (err st <> 0 ->
   E (Fprintf Stderr "sift: err: %s (%d)\n" [AStr (err_msg st); AInt (err st)])) ->
  Q tt (if negb (err st =? 0) then with_exit_code 1 st else st) ->
  wp E print_error Q R st.
Proof.
  intros He H. unfold print_error. apply wp_get.
  destruct (err st =? 0) eqn:Hz; cbn [negb] in *.
  - now apply wp_ret.
  - cbn [when]. apply wp_bind. apply wp_call.
    + repeat constructor. apply He. now apply Z.eqb_neq.
    + now apply wp_set_exit_code.
Qed.

Lemma wp_done_block (Q : unit -> state -> Prop) (R : state -> Prop) st :
  E SiftDelete -> E (Free Data) -> E FcloseIn ->
  (forall id p, E (Fclose id p)) ->
  (err st <> 0 ->
   E (Fprintf Stderr "sift: err: %s (%d)\n" [AStr (err_msg st); AInt (err st)])) ->
  Q tt (done_state st) ->
  wp E done_block Q R st.
Proof.
  intros H1 H2 H3 H4 H5 H. unfold done_block.
  apply wp_bind, wp_release_filter; [exact H1|].
  apply wp_bind, wp_release_image_data; [exact H2|].
  apply wp_bind, wp_close_input; [exact H3|].
  do 4 (apply wp_bind, wp_file_meta_close; [apply H4|]).
  apply wp_print_error; [exact H5 | exact H].
Qed.

End WpDone.

(** ** The claims on inactive sinks *)

(** C5.  A sink whose [active] flag is false is never opened, never written
    to and never reported in the meta record: opening it is a no-op, a
    snapshot through it returns at once without a call, and over any batch of
    images, from any state, no call opens it, writes through its handle,
    reports it in the meta record or allocates a snapshot buffer for it; the
    flag is still false afterwards. *)
Theorem inactive_sink_never_used (id : sink_id) (images : list image_env) (st : state) :
  active (sinks st id) = false ->
  (forall fo b mode,
      vl_file_meta_open fo id (sinks st id) b mode = (VL_ERR_OK K, sinks st id, [])) /\
  (forall fo S oc b v,
      save_gss fo S oc id (sinks st id) b v
      = mkGss (Some (VL_ERR_OK K)) None (sinks st id) []) /\
  let '(_, st', evs) := for_each images process_image st in
  active (sinks st' id) = false /\ Forall (fun ev => uses id ev = false) evs.
Proof.
  intros Ha. split; [|split].
  - intros. now apply vl_file_meta_open_inactive.
  - intros. now apply save_gss_inactive.
  - pose proof (sink_inv_batch id false images [] st) as Hp. cbn [app] in Hp.
    destruct (for_each images process_image st) as [[fl st'] evs].
    destruct Hp as [Hev Ha']; [split; [constructor | exact Ha]|].
    split; [exact Ha' | now apply Hev].
Qed.

(** ** The octave-advance step ends the loop on any non-zero status *)

(** C3 (as amended).  In the octave-advance step every non-zero status of the
    filter, the signal for no more octaves or any other, ends the octave loop
    by the normal path with the error code cleared: the loop falls through to
    the meta record, and the rest of the processing of the image reports no
    error, leaves the exit code as it was and ends with [err] zero. *)
Theorem octave_advance_status_ends_loop (e : image_env) (basename : string)
    (rc : Z) (oc : octave_env) (rest : list (Z * octave_env)) (st : state) :
  rc <> 0 ->
  octave_loop e basename ((rc, oc) :: rest) st
  = (Next tt, with_err (VL_ERR_OK K) st, []) /\
  let '(fl, st', evs) :=
    at_done (octave_loop e basename ((rc, oc) :: rest) ;; meta_file e) done_block st in
  fl = Next tt /\ err st' = 0 /\ exit_code st' = exit_code st /\
  Forall (fun ev => is_stderr ev = false) evs.
Proof.
  intros Hrc. split; [now apply octave_loop_stop|].
  pose proof (wp_falls_through (fun ev => is_stderr ev = false)
                (at_done (octave_loop e basename ((rc, oc) :: rest) ;; meta_file e)
                         done_block)
                (fun _ s => err s = 0 /\ exit_code s = exit_code st) st) as H.
  destruct (at_done _ done_block st) as [[fl st'] evs].
  destruct H as [(a & -> & He & Hc) Hev].
  - apply wp_at_done, wp_bind.
    unfold wp at 1. rewrite (octave_loop_stop _ _ _ _ _ _ Hrc).
    split; [constructor|].
    assert (Hz : err (with_err (VL_ERR_OK K) st) = 0) by apply err_ok_zero.
    apply wp_meta_file; [reflexivity|].
    apply wp_done_block; try reflexivity.
    + intros Hne. contradiction.
    + unfold done_state. rewrite Hz. cbn. split; [exact Hz | reflexivity].
  - destruct a. repeat split; assumption.
Qed.

(** ** What [save_gss] returns *)

(** C2 (evaluation of the code).  With an active sink [save_gss] never
    executes a [return] statement: every path ends at the closing brace that
    follows the label [save_gss_quit], so the call has no value to report,
    whatever the local [err] holds; in particular the allocation failure sets
    [err] to [VL_ERR_ALLOC] and returns nothing. *)
Theorem save_gss_returns_no_status (fo : string -> string -> bool) (S : Z)
    (oc : octave_env) (id : sink_id) (fm : VlFileMeta) (b : string) (v : Z) :
  active fm = true ->
  gss_returned (save_gss fo S oc id fm b v) = None /\
  (gss_malloc_ok oc = false ->
   gss_err (save_gss fo S oc id fm b v) = Some (VL_ERR_ALLOC K)).
Proof.
  intros Ha. unfold save_gss. rewrite Ha. cbn [negb].
  destruct (gss_malloc_ok oc); cbn [negb].
  - split; [|discriminate].
    destruct (_ <=? _).
    + now destruct (vl_file_meta_close id fm).
    + destruct (save_gss_levels _ _ _ _ _ _ _ _ _ _) as [[[r e] fm1] ev1].
      now destruct (vl_file_meta_close id fm1).
  - now destruct (vl_file_meta_close id fm).
Qed.

(** ** The detection pass *)

(** A loop whose body only performs calls. *)
Lemma for_each_calls {A} (l : list A) (body : A -> M unit)
    (evf : A -> list event) (st : state) :
  (forall a, In a l -> body a st = (Next tt, st, evf a)) ->
  for_each l body st = (Next tt, st, flat_map evf l).
Proof.
  induction l as [|a l IH]; intros H; cbn [for_each flat_map].
  - reflexivity.
  - unfold bind. rewrite (H a (or_introl eq_refl)).
    rewrite IH by (intros b Hb; apply H; now right). reflexivity.
Qed.

Lemma flat_map_singleton {A B} (f : A -> B) (l : list A) :
  flat_map (fun a => [f a]) l = map f l.
Proof. induction l as [|a l IH]; cbn; congruence. Qed.

Lemma emit_orientation_calls keys0 o st :
  emit_orientation keys0 o st = (Next tt, st, orientation_events st keys0 o).
Proof.
  assert (Hfe : for_each (seq 0 128) (fun i => fprintf Dsc "%g " [ADbl (snd o i)]) st
                = (Next tt, st,
                   map (fun i => Fprintf (File Dsc (file (sinks st Dsc))) "%g "
                                         [ADbl (snd o i)]) (seq 0 128))).
  { rewrite (for_each_calls _ _
               (fun i => [Fprintf (File Dsc (file (sinks st Dsc))) "%g "
                                  [ADbl (snd o i)]])) by reflexivity.
    now rewrite flat_map_singleton. }
  unfold emit_orientation, orientation_events, descriptor_record, frames_record.
  unfold bind, get.
  destruct (active (sinks st Frm)), (active (sinks st Dsc)); unfold when;
    rewrite ?Hfe; unfold fprintf, ret, bind, get, call; rewrite ?app_nil_r;
    reflexivity.
Qed.

Lemma emit_keys_calls k0 rest st :
  emit_keys (k0 :: rest) st
  = (Next tt, st,
     flat_map (fun k => flat_map (orientation_events st (key k0)) (orientations k))
              (k0 :: rest)).
Proof.
  unfold emit_keys. apply for_each_calls. intros k _.
  apply for_each_calls. intros o _. apply emit_orientation_calls.
Qed.

Lemma filter_flat_map {A B} (p : B -> bool) (f : A -> list B) (l : list A) :
  filter p (flat_map f l) = flat_map (fun a => filter p (f a)) l.
Proof.
  induction l as [|a l IH]; cbn; [reflexivity|]. now rewrite filter_app, IH.
Qed.

Lemma filter_none {A} (p : A -> bool) (l : list A) :
  Forall (fun a => p a = false) l -> filter p l = [].
Proof. induction 1 as [|a l Ha _ IH]; cbn; [reflexivity|]. now rewrite Ha. Qed.

Lemma descriptor_record_not_frames st descr :
  filter (writes Frm) (descriptor_record st descr) = [].
Proof.
  apply filter_none. unfold descriptor_record. apply Forall_app_intro.
  - apply Forall_map, Forall_forall. intros i _. reflexivity.
  - now repeat constructor.
Qed.

(** C1.  In the detection pass of an octave the records written to the
    frames sink are, in order, one per keypoint and orientation, and each
    holds the [x], [y] and [sigma] of the first keypoint of the list, with the
    angle of the orientation at hand: the coordinates of the keypoint that is
    iterated are not read. *)
Theorem frames_records_of_first_keypoint (k0 : key_env) (rest : list key_env)
    (st : state) :
  let '(_, _, evs) := emit_keys (k0 :: rest) st in
  filter (writes Frm) evs
  = if active (sinks st Frm)
    then flat_map (fun k => map (fun o => frames_record st (key k0) (fst o))
                                (orientations k))
                  (k0 :: rest)
    else [].
Proof.
  rewrite emit_keys_calls. rewrite filter_flat_map.
  assert (Ho : forall o,
             filter (writes Frm) (orientation_events st (key k0) o)
             = if active (sinks st Frm)
               then [frames_record st (key k0) (fst o)] else []).
  { intros o. unfold orientation_events. rewrite filter_app.
    assert (Hd : filter (writes Frm)
                   (if active (sinks st Dsc) then descriptor_record st (snd o) else [])
                 = []).
    { destruct (active (sinks st Dsc)); [apply descriptor_record_not_frames|reflexivity]. }
    rewrite Hd, app_nil_r. now destruct (active (sinks st Frm)). }
  assert (Hk : forall k,
             filter (writes Frm)
                    (flat_map (orientation_events st (key k0)) (orientations k))
             = if active (sinks st Frm)
               then map (fun o => frames_record st (key k0) (fst o)) (orientations k)
               else []).
  { intros k. rewrite filter_flat_map.
    induction (orientations k) as [|o l IH]; cbn [flat_map map].
    - now destruct (active (sinks st Frm)).
    - rewrite Ho, IH. now destruct (active (sinks st Frm)). }
  induction (k0 :: rest) as [|k l IH]; cbn [flat_map].
  - now destruct (active (sinks st Frm)).
  - rewrite Hk, IH. destruct (active (sinks st Frm)); reflexivity.
Qed.

(** ** The snapshot of an octave *)

Lemma substring_all (s : string) (n : nat) :
  (String.length s <= n)%nat -> substring 0 n s = s.
Proof.
  revert n. induction s as [|c s IH]; intros n H.
  - now destruct n.
  - destruct n as [|n]; [cbn in H; lia|]. cbn. rewrite IH; [reflexivity|].
    cbn in H. lia.
Qed.

Lemma truncate_fits (n : Z) (s : string) : strlen s < n -> truncate n s = s.
Proof. unfold truncate, strlen. intros H. apply substring_all. lia. Qed.









(** ** Option parsing *)

Lemma parse_options_error argv0 items st :
  err st <> 0 -> parse_options argv0 items st = (Next tt, st, []).
Proof.
  intros H. destruct items; cbn [parse_options]; unfold bind, get;
    now rewrite (neqb_true _ H).
Qed.

Lemma parse_options_nil argv0 st : parse_options argv0 [] st = (Next tt, st, []).
Proof. cbn [parse_options]. unfold bind, get. now destruct (negb (err st =? 0)). Qed.

Lemma parse_options_cons argv0 it rest st :
  err st = 0 ->
  parse_options argv0 (it :: rest) st
  = (process_option argv0 it ;; parse_options argv0 rest) st.
Proof.
  intros H. cbn [parse_options]. unfold bind at 1, get.
  rewrite (neqb_false _ H). cbn [app].
  now destruct ((process_option argv0 it ;; parse_options argv0 rest) st) as [[r s2] e2].
Qed.

Lemma parse_options_app argv0 pre post st st1 ev1 :
  parse_options argv0 pre st = (Next tt, st1, ev1) ->
  parse_options argv0 (pre ++ post) st
  = let '(r, st2, ev2) := parse_options argv0 post st1 in (r, st2, ev1 ++ ev2).
Proof.
  revert st st1 ev1. induction pre as [|it pre IH]; intros st st1 ev1 H.
  - rewrite parse_options_nil in H. injection H as <- <-. cbn [app].
    now destruct (parse_options argv0 post st) as [[r st2] ev2].
  - destruct (Z.eq_dec (err st) 0) as [Hz|Hnz].
    + cbn [app]. rewrite parse_options_cons in H |- * by exact Hz.
      unfold bind in H |- *.
      destruct (process_option argv0 it st) as [[fl sa] eva].
      destruct fl as [[]| | |]; try discriminate.
      destruct (parse_options argv0 pre sa) as [[fl2 sb] evb] eqn:Hp.
      injection H as Hfl Hs He. subst fl2 st1 ev1.
      rewrite (IH _ _ _ Hp).
      destruct (parse_options argv0 post sb) as [[r st2] ev2].
      now rewrite !app_assoc.
    + rewrite parse_options_error in H |- * by exact Hnz.
      injection H as <- <-. cbn [app].
      now rewrite parse_options_error by exact Hnz.
Qed.

Lemma process_option_meta argv0 it st :
  ch it = opt_meta ->
  protocol (snd (vl_file_meta_parse (sinks st Met) (optarg it))) <> VL_PROT_ASCII K ->
  exists st',
    process_option argv0 it st = (Next tt, st', []) /\ err st' = VL_ERR_BAD_ARG K.
Proof.
  intros Hc Hp. unfold process_option. rewrite Hc. cbv zeta.
  change (opt_meta =? chr "?") with false.
  change (opt_meta =? chr ":") with false.
  change (opt_meta =? chr "h") with false.
  change (opt_meta =? chr "v") with false.
  change (opt_meta =? opt_version) with false.
  change (opt_meta =? opt_frames) with false.
  change (opt_meta =? opt_descriptors) with false.
  change (opt_meta =? opt_meta) with true.
  cbv iota. unfold file_meta_parse, bind, get.
  destruct (vl_file_meta_parse (sinks st Met) (optarg it)) as [e fm] eqn:Hparse.
  cbn [snd] in Hp. cbn.
  destruct (negb (e =? 0)).
  - cbn. eexists. split; reflexivity.
  - rewrite upd_sink_same. cbn [protocol].
    apply Z.eqb_neq in Hp. rewrite Hp. cbn.
    eexists. split; reflexivity.
Qed.

(** C9.  When the options parsed so far raised no error and [--meta] is given
    a specification whose protocol is not ASCII, [main] prints the diagnostic
    of the option parser on the error stream and exits with code 1: the trace
    holds the calls of the options before it followed by that diagnostic, and
    no call of the image loop. *)
Theorem meta_needs_ascii_protocol (argv0 : string) (pre : list opt_item)
    (it : opt_item) (post : list opt_item) (images : list image_env)
    (st1 : state) (ev1 : list event) :
  parse_options argv0 pre init_state = (Next tt, st1, ev1) ->
  err st1 = 0 ->
  ch it = opt_meta ->
  protocol (snd (vl_file_meta_parse (sinks st1 Met) (optarg it))) <> VL_PROT_ASCII K ->
  exists st' msg,
    main argv0 (pre ++ it :: post) images
    = (Exit 1, st',
       ev1 ++ [Fprintf Stderr "%s: error: %s (%d)\n"
                       [AStr argv0; AStr msg; AInt (VL_ERR_BAD_ARG K)]]).
Proof.
  intros Hpre Hz Hc Hp.
  destruct (process_option_meta argv0 it st1 Hc Hp) as (st2 & Hopt & He2).
  assert (Hnz : err st2 <> 0) by (rewrite He2; apply err_bad_arg_nz).
  unfold main. unfold bind at 1.
  rewrite (parse_options_app _ _ _ _ _ _ Hpre).
  rewrite parse_options_cons by exact Hz.
  unfold bind at 1. rewrite Hopt.
  rewrite parse_options_error by exact Hnz.
  cbn [app]. rewrite app_nil_r. cbv iota beta.
  unfold bind at 1. unfold check_parsing_errors, bind at 1, get.
  rewrite (neqb_true _ Hnz). unfold bind, call, exit. cbn [app].
  exists st2, (err_msg st2). rewrite He2. reflexivity.
Qed.

(** ** Resources of the loop body *)

Section Wpr.

Lemma held_app r ev1 ev2 : held r (ev1 ++ ev2) = held (held r ev1) ev2.
Proof. unfold held. apply fold_left_app. Qed.

Lemma wpr_ret {A} (a : A) (Q : A -> resources -> state -> Prop) R r st :
  Q a r st -> wpr (ret a) Q R r st.
Proof. intros H. exact H. Qed.

Lemma wpr_goto_done {A} (Q : A -> resources -> state -> Prop) R r st :
  R r st -> wpr goto_done Q R r st.
Proof. intros H. exact H. Qed.

Lemma wpr_bind {A B} (m : M A) (f : A -> M B) (Q : B -> resources -> state -> Prop)
    R r st :
  wpr m (fun a r1 st1 => wpr (f a) Q R r1 st1) R r st -> wpr (bind m f) Q R r st.
Proof.
  unfold wpr, bind. destruct (m st) as [[fl st1] ev1].
  destruct fl as [a| | |]; intros H; try assumption.
  destruct (f a st1) as [[fl2 st2] ev2]. now rewrite held_app.
Qed.

Lemma wpr_get {B} (f : state -> M B) (Q : B -> resources -> state -> Prop) R r st :
  wpr (f st) Q R r st -> wpr (bind get f) Q R r st.
Proof.
  unfold wpr, bind, get. destruct (f st st) as [[fl st2] ev2]. now cbn.
Qed.

Lemma wpr_call evs (Q : unit -> resources -> state -> Prop) R r st :
  Q tt (held r evs) st -> wpr (call evs) Q R r st.
Proof. intros H. exact H. Qed.

Lemma wpr_printf fmt args (Q : unit -> resources -> state -> Prop) R r st :
  Q tt r st -> wpr (printf fmt args) Q R r st.
Proof. intros H. exact H. Qed.

Lemma wpr_fprintf id fmt args (Q : unit -> resources -> state -> Prop) R r st :
  Q tt r st -> wpr (fprintf id fmt args) Q R r st.
Proof. intros H. exact H. Qed.

Lemma wpr_set_err e (Q : unit -> resources -> state -> Prop) R r st :
  Q tt r (with_err e st) -> wpr (set_err e) Q R r st.
Proof. intros H. exact H. Qed.

Lemma wpr_set_err_msg m (Q : unit -> resources -> state -> Prop) R r st :
  Q tt r (with_err_msg (truncate sizeof_err_msg m) st) -> wpr (set_err_msg m) Q R r st.
Proof. intros H. exact H. Qed.

Lemma wpr_set_exit_code c (Q : unit -> resources -> state -> Prop) R r st :
  Q tt r (with_exit_code c st) -> wpr (set_exit_code c) Q R r st.
Proof. intros H. exact H. Qed.

Lemma wpr_set_loc l (Q : unit -> resources -> state -> Prop) R r st :
  Q tt r (with_loc l st) -> wpr (set_loc l) Q R r st.
Proof. intros H. exact H. Qed.

Lemma wpr_set_sink id fm (Q : unit -> resources -> state -> Prop) R r st :
  Q tt r (with_sink id fm st) -> wpr (set_sink id fm) Q R r st.
Proof. intros H. exact H. Qed.

Lemma wpr_if {A} (b : bool) (m1 m2 : M A) (Q : A -> resources -> state -> Prop) R r st :
  (b = true -> wpr m1 Q R r st) -> (b = false -> wpr m2 Q R r st) ->
  wpr (if b then m1 else m2) Q R r st.
Proof. destruct b; auto. Qed.

Lemma wpr_when (b : bool) (m : M unit) (Q : unit -> resources -> state -> Prop) R r st :
  (b = true -> wpr m Q R r st) -> (b = false -> Q tt r st) -> wpr (when b m) Q R r st.
Proof. destruct b; cbn; auto. Qed.

Lemma wpr_conseq {A} (m : M A) (Q Q' : A -> resources -> state -> Prop)
    (R R' : resources -> state -> Prop) r st :
  wpr m Q' R' r st -> (forall a r1 s, Q' a r1 s -> Q a r1 s) ->
  (forall r1 s, R' r1 s -> R r1 s) -> wpr m Q R r st.
Proof.
  unfold wpr. destruct (m st) as [[fl st1] ev1]. intros H HQ HR.
  destruct fl; auto.
Qed.

Lemma wpr_at_done (body after : M unit) (Q : unit -> resources -> state -> Prop) R r st :
  wpr body (fun _ r1 s => wpr after Q R r1 s) (fun r1 s => wpr after Q R r1 s) r st ->
  wpr (at_done body after) Q R r st.
Proof.
  unfold wpr, at_done. destruct (body st) as [[fl st1] ev1].
  destruct fl as [a| | |]; intros H; try assumption.
  - destruct (after st1) as [[fl2 st2] ev2]. now rewrite held_app.
  - destruct (after st1) as [[fl2 st2] ev2]. now rewrite held_app.
Qed.

Lemma wpr_falls_through {A} (m : M A) (Q : A -> resources -> state -> Prop) r st :
  wpr m Q (fun _ _ => False) r st ->
  let '(fl, st', evs) := m st in exists a, fl = Next a /\ Q a (held r evs) st'.
Proof.
  unfold wpr. destruct (m st) as [[fl st'] evs]. intros H.
  destruct fl as [a| | |]; try contradiction. now exists a.
Qed.

End Wpr.

Ltac wpr_step :=
  lazymatch goal with
  | |- wpr (ret _) _ _ _ _ => apply wpr_ret
  | |- wpr goto_done _ _ _ _ => apply wpr_goto_done
  | |- wpr (bind get _) _ _ _ _ => apply wpr_get
  | |- wpr (bind _ _) _ _ _ _ => apply wpr_bind
  | |- wpr (call _) _ _ _ _ => apply wpr_call
  | |- wpr (printf _ _) _ _ _ _ => apply wpr_printf
  | |- wpr (fprintf _ _ _) _ _ _ _ => apply wpr_fprintf
  | |- wpr (set_err _) _ _ _ _ => apply wpr_set_err
  | |- wpr (set_err_msg _) _ _ _ _ => apply wpr_set_err_msg
  | |- wpr (set_exit_code _) _ _ _ _ => apply wpr_set_exit_code
  | |- wpr (set_loc _) _ _ _ _ => apply wpr_set_loc
  | |- wpr (set_sink _ _) _ _ _ _ => apply wpr_set_sink
  | |- wpr (when _ _) _ _ _ _ => apply wpr_when; intros ?
  | |- wpr (if _ then _ else _) _ _ _ _ => apply wpr_if; intros ?
  end.

Lemma ok_eqb : (VL_ERR_OK K =? 0) = true.
Proof. rewrite err_ok_zero. reflexivity. Qed.

Lemma overflow_eqb : (VL_ERR_OVERFLOW K =? 0) = false.
Proof. apply Z.eqb_neq, err_overflow_nz. Qed.

Lemma io_eqb : (VL_ERR_IO K =? 0) = false.
Proof. apply Z.eqb_neq, err_io_nz. Qed.

Lemma alloc_eqb : (VL_ERR_ALLOC K =? 0) = false.
Proof. apply Z.eqb_neq, err_alloc_nz. Qed.

Ltac res_solve :=
  repeat match goal with
         | r : resources |- _ => destruct r
         | id : sink_id |- _ => destruct id
         end;
  cbn in *; subst; rewrite ?String.eqb_refl; try reflexivity.

Lemma with_files_same id l r : r_files r id = l -> with_files id l r = r.
Proof. intros H. res_solve. Qed.

(** The outcomes of [vl_file_meta_open]. *)
Lemma vl_file_meta_open_cases fo id fm b mode :
  let p := truncate (name_size K) (vl_string_replace_wildcard (pattern fm) b) in
  vl_file_meta_open fo id fm b mode = (VL_ERR_OK K, fm, []) \/
  vl_file_meta_open fo id fm b mode = (VL_ERR_OVERFLOW K, set_name fm p, []) \/
  vl_file_meta_open fo id fm b mode
  = (VL_ERR_OK K, set_file (set_name fm p) (Some p), [Fopen id p mode true]) \/
  vl_file_meta_open fo id fm b mode
  = (VL_ERR_IO K, set_file (set_name fm p) None, [Fopen id p mode false]).
Proof.
  cbv zeta. unfold vl_file_meta_open.
  destruct (negb (active fm)); [now left|].
  destruct (_ <=? _); [right; now left|].
  cbn [name set_name]. destruct (fo _ mode); right; right; [now left | now right].
Qed.

(** The streams of a snapshot are closed when it is left, except the one
    that is open when writing a level fails, which the sink still holds. *)
Lemma save_gss_levels_held fo oc id b v pim n :
  forall s e fm r,
    file fm = None -> r_files r id = [] ->
    let '(_, _, fm', evs) := save_gss_levels fo oc id b v pim n s e fm in
    held r evs = with_files id (o2l (file fm')) r.
Proof.
  induction n as [|n IH]; intros s e fm r Hf Hr; cbn [save_gss_levels].
  - rewrite Hf. cbn. symmetry. now apply with_files_same.
  - destruct (vl_file_meta_open_cases fo id fm
                (b +++ truncate (sizeof_tmp - strlen b) (gss_suffix (o_cur oc) s)) "w")
      as [Ho | [Ho | [Ho | Ho]]]; cbv zeta in Ho; rewrite Ho; clear Ho.
    + rewrite ok_eqb. cbn [negb].
      destruct (negb (pgm_insert_rc oc (name fm) =? 0)).
      { rewrite Hf. cbn. symmetry. now apply with_files_same. }
      unfold vl_file_meta_close. rewrite Hf.
      specialize (IH (s + 1) (Some (pgm_insert_rc oc (name fm))) fm r Hf Hr).
      destruct (save_gss_levels fo oc id b v pim n (s + 1) _ fm) as [[[r0 e'] fm'] ev5].
      rewrite <- IH. cbn [app]. unfold held at 1. cbn [fold_left track].
      destruct (negb (v =? 0)); reflexivity.
    + rewrite overflow_eqb. cbn [negb set_name file]. rewrite Hf. cbn.
      symmetry. now apply with_files_same.
    + rewrite ok_eqb. cbn [negb name set_name set_file file].
      set (p := truncate (name_size K) _).
      destruct (negb (pgm_insert_rc oc p =? 0)).
      { cbn. now rewrite Hr. }
      unfold vl_file_meta_close. cbn [file set_file].
      match goal with |- context [save_gss_levels _ _ _ _ _ _ _ _ ?e' ?fm2] =>
        specialize (IH (s + 1) e' fm2 r eq_refl Hr);
        destruct (save_gss_levels fo oc id b v pim n (s + 1) e' fm2)
          as [[[r0 e''] fm'] ev5]
      end.
      rewrite <- IH. cbn [app]. unfold held at 1. cbn [fold_left].
      assert (Hback : with_files id
                        (remove_one p (r_files (with_files id (p :: r_files r id) r) id))
                        (with_files id (p :: r_files r id) r) = r).
      { clear IH. res_solve. }
      destruct (negb (v =? 0)); cbn [app fold_left track]; rewrite Hback; reflexivity.
    + rewrite io_eqb. cbn [negb set_name set_file file]. cbn.
      symmetry. now apply with_files_same.
Qed.

Section Emits.

Variable P : list event -> Prop.
Hypothesis P_nil : P [].
Hypothesis P_app : forall l1 l2, P l1 -> P l2 -> P (l1 ++ l2).

Lemma emits_ret : emits P (ret tt).
Proof. intros st. exists []. now split. Qed.

Lemma emits_call evs : P evs -> emits P (call evs).
Proof. intros H st. exists evs. now split. Qed.

Lemma emits_bind (m1 m2 : M unit) : emits P m1 -> emits P m2 -> emits P (m1 ;; m2).
Proof.
  intros H1 H2 st. destruct (H1 st) as (ev1 & E1 & N1). destruct (H2 st) as (ev2 & E2 & N2).
  exists (ev1 ++ ev2). unfold bind. rewrite E1, E2. split; [reflexivity | now apply P_app].
Qed.

Lemma emits_get (f : state -> M unit) :
  (forall s, emits P (f s)) -> emits P (bind get f).
Proof.
  intros H st. destruct (H st st) as (evs & E & N). exists evs.
  unfold bind, get. rewrite E. now split.
Qed.

Lemma emits_when b m : emits P m -> emits P (when b m).
Proof. destruct b; [auto | intros _; apply emits_ret]. Qed.

Lemma emits_for_each {A} (l : list A) (body : A -> M unit) :
  (forall a, emits P (body a)) -> emits P (for_each l body).
Proof.
  intros H. induction l as [|a l IH]; cbn [for_each].
  - apply emits_ret.
  - apply emits_bind; [apply H | exact IH].
Qed.

End Emits.

Lemma neutral_nil : forall r, held r [] = r.
Proof. reflexivity. Qed.

Lemma neutral_app l1 l2 :
  (forall r, held r l1 = r) -> (forall r, held r l2 = r) ->
  forall r, held r (l1 ++ l2) = r.
Proof. intros H1 H2 r. now rewrite held_app, H1, H2. Qed.

Lemma neutral_printf fmt args : neutral (printf fmt args).
Proof. apply emits_call. reflexivity. Qed.

Lemma neutral_fprintf id fmt args : neutral (fprintf id fmt args).
Proof. intros st. eexists. split; reflexivity. Qed.

Lemma quiet_printf fmt args : quiet (printf fmt args).
Proof. apply emits_call. now repeat constructor. Qed.

Lemma quiet_fprintf_met fmt args : quiet (fprintf Met fmt args).
Proof. intros st. eexists. split; [reflexivity | now repeat constructor]. Qed.

Ltac emits_step :=
  unfold neutral, quiet;
  lazymatch goal with
  | |- emits _ (ret tt) => apply emits_ret; first [apply neutral_nil | constructor]
  | |- emits _ (printf _ _) => first [apply neutral_printf | apply quiet_printf]
  | |- emits _ (fprintf _ _ _) => first [apply neutral_fprintf | apply quiet_fprintf_met]
  | |- emits _ (bind get _) => apply emits_get; intros ?
  | |- emits _ (bind _ _) =>
      first [ apply (emits_bind _ neutral_app)
            | apply (emits_bind _ (@Forall_app_intro _ no_record)) ]
  | |- emits _ (when _ _) =>
      first [ apply (emits_when _ neutral_nil)
            | apply (emits_when _ (Forall_nil no_record)) ]
  | |- emits _ (for_each _ _) =>
      first [ apply (emits_for_each _ neutral_nil neutral_app)
            | apply (emits_for_each _ (Forall_nil no_record)
                                    (@Forall_app_intro _ no_record)) ];
      intros ?
  end.

Ltac neutral_step := emits_step.

Lemma wpr_neutral (m : M unit) (Q : unit -> resources -> state -> Prop) R r st :
  neutral m -> Q tt r st -> wpr m Q R r st.
Proof.
  intros H HQ. destruct (H st) as (evs & E & N). unfold wpr. rewrite E, N. exact HQ.
Qed.

Lemma neutral_emit_keys ks : neutral (emit_keys ks).
Proof.
  unfold emit_keys. destruct ks; [neutral_step|].
  unfold emit_orientation. repeat neutral_step.
Qed.

Lemma neutral_meta_file e : neutral (meta_file e).
Proof. unfold meta_file. repeat neutral_step. Qed.

Lemma coupled_frame r st st' :
  coupled r st ->
  (forall id, file (sinks st' id) = file (sinks st id)) ->
  loc st' = loc st ->
  coupled r st'.
Proof.
  intros (Hf & Hi & Hd & Hfl & Hg) Hs Hl. unfold coupled. rewrite Hl.
  repeat split; try assumption. intros id. now rewrite Hs.
Qed.

Lemma body_inv_frame r st st' :
  body_inv r st ->
  (forall id, file (sinks st' id) = file (sinks st id)) ->
  loc st' = loc st ->
  body_inv r st'.
Proof.
  intros (Hc & Hg & Hi) Hs Hl.
  split; [now apply (coupled_frame r st) | now rewrite !Hs].
Qed.

(** A snapshot releases what it holds and leaves its sink closed. *)
Lemma save_gss_held fo S oc id fm b v r :
  file fm = None -> r_files r id = [] ->
  held r (gss_events (save_gss fo S oc id fm b v)) = r /\
  file (gss_fm (save_gss fo S oc id fm b v)) = None.
Proof.
  intros Hf Hr. unfold save_gss.
  destruct (negb (active fm)); [now split|].
  destruct (negb (gss_malloc_ok oc)).
  { unfold vl_file_meta_close. rewrite Hf. now split. }
  destruct (_ <=? _).
  { unfold vl_file_meta_close. rewrite Hf. split; [|exact Hf].
    cbn. clear Hr. res_solve. }
  pose proof (save_gss_levels_held fo oc id b v
                (mkPgm (octave_width oc) (octave_height oc) 255 1) (Z.to_nat S) 0 None fm
                (track r (Malloc GssBuffer true)) Hf) as Hl.
  destruct (save_gss_levels fo oc id b v _ (Z.to_nat S) 0 None fm) as [[[r0 e] fm1] ev1].
  assert (Hr1 : r_files (track r (Malloc GssBuffer true)) id = []).
  { clear Hl. res_solve. }
  specialize (Hl Hr1). unfold vl_file_meta_close.
  destruct (file fm1) as [p|] eqn:Hf1; cbn [gss_events gss_fm set_file file];
    (split; [|first [reflexivity | assumption]]).
  - change (Malloc GssBuffer true :: ev1 ++ [Free GssBuffer; Fclose id p])
      with ([Malloc GssBuffer true] ++ ev1 ++ [Free GssBuffer; Fclose id p]).
    rewrite !held_app. change (held r [Malloc GssBuffer true])
      with (track r (Malloc GssBuffer true)).
    rewrite Hl. cbn. clear Hl Hr1. res_solve.
  - change (Malloc GssBuffer true :: ev1 ++ [Free GssBuffer])
      with ([Malloc GssBuffer true] ++ ev1 ++ [Free GssBuffer]).
    rewrite !held_app. change (held r [Malloc GssBuffer true])
      with (track r (Malloc GssBuffer true)).
    rewrite Hl. cbn. clear Hl Hr1. res_solve.
Qed.

Ltac frame_solve :=
  match goal with
  | H : body_inv ?r ?st |- body_inv ?r _ =>
      apply (body_inv_frame r st _ H); [intros ?; reflexivity | reflexivity]
  end.

Lemma body_inv_files r st id : body_inv r st -> r_files r id = o2l (file (sinks st id)).
Proof. intros [[Hf _] _]. apply Hf. Qed.

Lemma body_inv_set_sink r st id fm :
  body_inv r st -> file fm = file (sinks st id) -> body_inv r (with_sink id fm st).
Proof.
  intros Hi Hf. apply (body_inv_frame r st _ Hi); [|reflexivity].
  intros j. cbn. destruct (sink_id_dec j id) as [->|Hj].
  - now rewrite upd_sink_same.
  - now rewrite upd_sink_other.
Qed.

Lemma wpr_optionally_save_gss e b oc (Q : unit -> resources -> state -> Prop) R r st :
  body_inv r st ->
  (forall st', body_inv r st' -> Q tt r st' /\ R r st') ->
  wpr (optionally_save_gss e b oc) Q R r st.
Proof.
  intros Hi HQ. unfold optionally_save_gss. apply wpr_get. apply wpr_when.
  - intros _. cbv zeta.
    destruct (save_gss_held (fopen_ok e) (filt_S e) oc Gss (sinks st Gss) b
                (verbose (par st)) r) as [Hh Hf].
    { apply Hi. }
    { rewrite (body_inv_files r st Gss Hi). destruct Hi as (_ & -> & _). reflexivity. }
    set (g := save_gss _ _ _ _ _ _ _) in *.
    assert (Hi' : body_inv r (with_sink Gss (gss_fm g) st)).
    { apply body_inv_set_sink; [exact Hi|]. rewrite Hf. symmetry. apply Hi. }
    apply wpr_bind, wpr_set_sink. apply wpr_bind, wpr_call. rewrite Hh.
    apply wpr_bind, wpr_set_err. apply wpr_get. apply wpr_if; intros _.
    + apply wpr_bind, wpr_set_err_msg. apply wpr_goto_done.
      apply HQ. apply (body_inv_frame r _ _ Hi'); [intros ?; reflexivity | reflexivity].
    + apply wpr_ret.
      apply HQ. apply (body_inv_frame r _ _ Hi'); [intros ?; reflexivity | reflexivity].
  - intros _. now apply HQ.
Qed.

Lemma wpr_octave_loop e b steps r st :
  body_inv r st ->
  wpr (octave_loop e b steps) (fun _ => body_inv) body_inv r st.
Proof.
  revert r st. induction steps as [|[rc oc] rest IH]; intros r st Hi; cbn [octave_loop].
  - repeat wpr_step. frame_solve.
  - apply wpr_bind, wpr_set_err. apply wpr_if; intros _.
    { apply wpr_set_err. frame_solve. }
    apply wpr_get. apply wpr_bind. apply wpr_neutral; [repeat neutral_step|].
    apply wpr_bind. apply wpr_optionally_save_gss; [frame_solve|].
    intros st' Hi'. split; [|exact Hi'].
    apply wpr_bind. apply wpr_neutral; [repeat neutral_step|].
    apply wpr_bind. apply wpr_neutral; [apply neutral_emit_keys|].
    now apply IH.
Qed.

Lemma wpr_file_meta_open fo id b mode (Q : unit -> resources -> state -> Prop) R r st :
  (forall e fm evs,
      vl_file_meta_open fo id (sinks st id) b mode = (e, fm, evs) ->
      Q tt (held r evs) (with_err e (with_sink id fm st))) ->
  wpr (file_meta_open fo id b mode) Q R r st.
Proof.
  intros H. unfold wpr, file_meta_open, bind, get.
  destruct (vl_file_meta_open fo id (sinks st id) b mode) as [[e fm] evs] eqn:Ho.
  specialize (H e fm evs eq_refl). cbn. now rewrite app_nil_r.
Qed.

(** Opening an output sink and the macro [WERR] that follows it. *)
Lemma wpr_open_output {A} fo id b (rest : M A) (Q : A -> resources -> state -> Prop)
    R r st :
  body_inv r st -> id <> Gss -> id <> Ifr -> file (sinks st id) = None ->
  (forall r' st',
      body_inv r' st' -> loc st' = loc st ->
      (forall j, j <> id -> sinks st' j = sinks st j) ->
      wpr rest Q R r' st' /\ R r' st') ->
  wpr (file_meta_open fo id b "w" ;; WERR id ;; rest) Q R r st.
Proof.
  intros Hi Hg Hifr Hf HQ.
  assert (Hr : r_files r id = []) by (rewrite (body_inv_files r st id Hi), Hf; reflexivity).
  assert (Hnext : forall e fm evs,
             (evs = [] /\ file fm = None \/
              exists p ok, evs = [Fopen id p "w" ok] /\ file fm = if ok then Some p else None) ->
             let r' := held r evs in
             let st' := with_err e (with_sink id fm st) in
             body_inv r' st' /\ loc st' = loc st /\
             (forall j, j <> id -> sinks st' j = sinks st j)).
  { intros e fm evs Hc. cbv zeta. split; [|split].
    - destruct Hi as ((Hfl & Hin & Hd & Hft & Hgb) & Hgss & Hif).
      assert (Hfiles : forall j, r_files (held r evs) j
                                 = o2l (file (upd_sink id fm (sinks st) j))).
      { intros j. destruct (sink_id_dec j id) as [->|Hj].
        - rewrite upd_sink_same.
          destruct Hc as [[-> ->] | (p & ok & -> & ->)]; [exact Hr|].
          destruct ok; cbn; [|exact Hr]. clear - Hr. res_solve.
        - rewrite upd_sink_other by exact Hj. rewrite <- Hfl.
          destruct Hc as [[-> _] | (p & ok & -> & _)]; [reflexivity|].
          destruct ok; cbn; [|reflexivity]. clear - Hj. res_solve; congruence. }
      assert (Hcnt : r_input (held r evs) = r_input r /\ r_data (held r evs) = r_data r /\
                     r_filt (held r evs) = r_filt r /\ r_gssbuf (held r evs) = r_gssbuf r).
      { destruct Hc as [[-> _] | (p & ok & -> & _)]; [now repeat split|].
        destruct ok; cbn; [|now repeat split]. clear. res_solve; now repeat split. }
      destruct Hcnt as (C1 & C2 & C3 & C4).
      split; [|split].
      + unfold coupled. cbn. rewrite C1, C2, C3, C4. repeat split; assumption.
      + cbn. rewrite upd_sink_other by congruence. exact Hgss.
      + cbn. rewrite upd_sink_other by congruence. exact Hif.
    - reflexivity.
    - intros j Hj. cbn. now rewrite upd_sink_other. }
  apply wpr_bind, wpr_file_meta_open. intros e fm evs Ho.
  assert (Hc : evs = [] /\ file fm = None \/
               exists p ok, evs = [Fopen id p "w" ok] /\ file fm = if ok then Some p else None).
  { destruct (vl_file_meta_open_cases fo id (sinks st id) b "w") as [H | [H | [H | H]]];
      cbv zeta in H; rewrite H in Ho; injection Ho as <- <- <-.
    - left. now split.
    - left. now split.
    - right. eexists _, true. now split.
    - right. eexists _, false. now split. }
  destruct (Hnext e fm evs Hc) as (Hi' & Hl' & Hs'). cbv zeta in Hi', Hl', Hs'.
  set (r' := held r evs) in *. set (st' := with_err e (with_sink id fm st)) in *.
  assert (Hmsg : forall m, wpr rest Q R r' (with_err_msg m st') /\ R r' (with_err_msg m st')).
  { intros m. apply HQ; [| exact Hl' | exact Hs'].
    apply (body_inv_frame r' st' _ Hi'); [intros ?; reflexivity | reflexivity]. }
  apply wpr_bind. unfold WERR. apply wpr_get.
  apply wpr_if; intros _.
  { apply wpr_bind, wpr_set_err_msg. apply wpr_goto_done. apply Hmsg. }
  apply wpr_if; intros _.
  { apply wpr_bind, wpr_set_err_msg. apply wpr_goto_done. apply Hmsg. }
  apply wpr_ret. now apply HQ.
Qed.

Lemma wpr_determine_files e r st :
  body_inv r st -> in_ (loc st) = false ->
  file (sinks st Dsc) = None -> file (sinks st Frm) = None ->
  file (sinks st Met) = None ->
  wpr (determine_files e)
      (fun _ r' st' => body_inv r' st' /\ data (loc st') = data (loc st) /\
                       filt (loc st') = filt (loc st))
      body_inv r st.
Proof.
  intros Hi Hin Hd Hf Hm. unfold determine_files. cbv zeta.
  apply wpr_bind, wpr_set_err. apply wpr_get.
  apply wpr_bind. apply wpr_if; intros _; [repeat wpr_step; frame_solve|].
  apply wpr_ret.
  apply wpr_bind, wpr_neutral; [repeat neutral_step|].
  apply wpr_bind, wpr_neutral; [repeat neutral_step|].
  apply wpr_bind. apply wpr_bind, wpr_call. unfold set_in. apply wpr_get, wpr_set_loc.
  match goal with |- wpr _ _ _ ?r1 ?s1 =>
    assert (Hi1 : body_inv r1 s1); [|set (r1' := r1) in *; set (s1' := s1) in *]
  end.
  { destruct Hi as ((Hfl & Hi0 & Hd0 & Hft & Hgb) & Hgss & Hif).
    rewrite Hin in Hi0. split; [|split; assumption].
    destruct (fopen_in_ok e); cbn; unfold coupled; cbn; rewrite ?Hi0;
      repeat split; try assumption; intros id; rewrite <- Hfl; clear; res_solve. }
  assert (Hloc : data (loc s1') = data (loc st) /\ filt (loc s1') = filt (loc st))
    by (split; reflexivity).
  assert (Hs1 : forall j, sinks s1' j = sinks st j) by reflexivity.
  clearbody r1' s1'.
  apply wpr_bind. apply wpr_if; intros _; [repeat wpr_step; frame_solve|].
  apply wpr_ret.
  apply wpr_open_output; [exact Hi1 | discriminate | discriminate | now rewrite Hs1 |].
  intros r2 s2 Hi2 Hl2 Hs2. split; [|exact Hi2].
  apply wpr_open_output;
    [exact Hi2 | discriminate | discriminate
    | rewrite Hs2, Hs1 by discriminate; exact Hf |].
  intros r3 s3 Hi3 Hl3 Hs3. split; [|exact Hi3].
  apply wpr_open_output;
    [exact Hi3 | discriminate | discriminate
    | rewrite Hs3, Hs2, Hs1 by discriminate; exact Hm |].
  intros r4 s4 Hi4 Hl4 Hs4. split; [|exact Hi4].
  apply wpr_get. apply wpr_bind, wpr_neutral; [repeat neutral_step|].
  apply wpr_ret. split; [exact Hi4|]. rewrite Hl4, Hl3, Hl2. exact Hloc.
Qed.

Lemma wpr_read_image_data e r st :
  body_inv r st -> data (loc st) = false ->
  wpr (read_image_data e)
      (fun _ r' st' => body_inv r' st' /\ filt (loc st') = filt (loc st))
      body_inv r st.
Proof.
  intros Hi Hd. unfold read_image_data.
  apply wpr_bind, wpr_set_err.
  apply wpr_bind. apply wpr_if; intros _; [repeat wpr_step; frame_solve|].
  apply wpr_ret.
  apply wpr_get. apply wpr_bind, wpr_neutral; [repeat neutral_step|].
  apply wpr_bind. apply wpr_bind, wpr_call.
  unfold set_data, set_fdata. apply wpr_bind, wpr_get, wpr_set_loc.
  apply wpr_get, wpr_set_loc.
  match goal with |- wpr _ _ _ ?r1 ?s1 =>
    assert (Hi1 : body_inv r1 s1); [|set (r1' := r1) in *; set (s1' := s1) in *]
  end.
  { destruct Hi as ((Hfl & Hi0 & Hd0 & Hft & Hgb) & Hgss & Hif).
    rewrite Hd in Hd0. split; [|split; assumption].
    destruct (malloc_data_ok e), (malloc_fdata_ok e); cbn; unfold coupled; cbn;
      rewrite ?Hd0; repeat split; try assumption; intros id; rewrite <- Hfl;
      clear; res_solve. }
  assert (Hloc : filt (loc s1') = filt (loc st)) by reflexivity.
  clearbody r1' s1'.
  apply wpr_bind. apply wpr_if; intros _; [repeat wpr_step; frame_solve|].
  apply wpr_ret.
  apply wpr_bind, wpr_set_err.
  apply wpr_if; intros _; [repeat wpr_step; frame_solve|].
  apply wpr_ret. split; [frame_solve | exact Hloc].
Qed.

Lemma wpr_new_filter e r st :
  body_inv r st -> filt (loc st) = false ->
  wpr (new_filter e) (fun _ => body_inv) body_inv r st.
Proof.
  intros Hi Hf. unfold new_filter. apply wpr_get.
  apply wpr_bind. apply wpr_bind, wpr_call. unfold set_filt. apply wpr_get, wpr_set_loc.
  match goal with |- wpr _ _ _ ?r1 ?s1 =>
    assert (Hi1 : body_inv r1 s1); [|set (r1' := r1) in *; set (s1' := s1) in *]
  end.
  { destruct Hi as ((Hfl & Hi0 & Hd0 & Hft & Hgb) & Hgss & Hif).
    rewrite Hf in Hft. split; [|split; assumption].
    destruct (sift_new_ok e); cbn; unfold coupled; cbn; rewrite ?Hft;
      repeat split; try assumption; intros id; rewrite <- Hfl; clear; res_solve. }
  clearbody r1' s1'.
  apply wpr_if; intros _; [repeat wpr_step; frame_solve|].
  apply wpr_ret. exact Hi1.
Qed.

Lemma wpr_image_body e r st :
  quiescent st -> released r ->
  wpr (image_body e) (fun _ => body_inv) body_inv r st.
Proof.
  intros Hq (Rf & Ri & Rd & Rg & Rfl). unfold image_body.
  apply wpr_bind, wpr_set_loc.
  assert (Hi0 : body_inv r (with_loc (mkLoc false false false false) st)).
  { split; [|split; apply Hq]. unfold coupled. cbn. repeat split; try assumption.
    intros id. now rewrite Rf, Hq. }
  apply wpr_bind.
  apply (wpr_conseq _ _ _ _ _ _ _
           (wpr_determine_files e r _ Hi0 eq_refl (Hq Dsc) (Hq Frm) (Hq Met)));
    [|auto].
  intros b r1 s1 (Hi1 & Hd1 & Hf1). cbn in Hd1, Hf1.
  apply wpr_bind.
  apply (wpr_conseq _ _ _ _ _ _ _ (wpr_read_image_data e r1 s1 Hi1 Hd1)); [|auto].
  intros _ r2 s2 (Hi2 & Hf2). rewrite Hf1 in Hf2.
  apply wpr_bind.
  apply (wpr_conseq _ _ _ _ _ _ _ (wpr_new_filter e r2 s2 Hi2 Hf2)); [|auto].
  intros _ r3 s3 Hi3.
  apply wpr_bind.
  apply (wpr_conseq _ _ _ _ _ _ _ (wpr_octave_loop e b (octaves e) r3 s3 Hi3)); [|auto].
  intros _ r4 s4 Hi4.
  apply wpr_neutral; [apply neutral_meta_file | exact Hi4].
Qed.

Lemma wpr_release (m : M unit) (ev : event) (upd : locals -> locals)
    (flag : locals -> bool) (Q : unit -> resources -> state -> Prop) R r st :
  (forall s, m s = if flag (loc s)
                   then (Next tt, with_loc (upd (loc s)) s, [ev])
                   else (Next tt, s, [])) ->
  (flag (loc st) = true -> body_inv (track r ev) (with_loc (upd (loc st)) st)) ->
  (forall l, flag (upd l) = false) ->
  body_inv r st ->
  (forall r' st',
      body_inv r' st' -> flag (loc st') = false ->
      (st' = st \/ st' = with_loc (upd (loc st)) st) ->
      Q tt r' st') ->
  wpr m Q R r st.
Proof.
  intros Hm Ht Hu Hi HQ. unfold wpr. rewrite Hm.
  destruct (flag (loc st)) eqn:Hf.
  - cbn. apply HQ; [now apply Ht | apply Hu | now right].
  - cbn. apply HQ; [exact Hi | exact Hf | now left].
Qed.

Lemma wpr_done_block (R : resources -> state -> Prop) r st :
  body_inv r st ->
  wpr done_block
      (fun _ r' st' =>
         released r' /\ quiescent st' /\
         in_ (loc st') = false /\ data (loc st') = false /\ filt (loc st') = false)
      R r st.
Proof.
  intros Hi. unfold done_block.
  (* release filter *)
  apply wpr_bind.
  apply (wpr_release release_filter SiftDelete
           (fun l => mkLoc (in_ l) (data l) (fdata l) false) filt);
    [ intros s; destruct s as [sk p e m c [i d f fl]]; now destruct fl
    | | reflexivity | exact Hi | ].
  { intros Hfl. destruct Hi as ((Hf & Hin & Hd & Hft & Hgb) & Hgss & Hif).
    rewrite Hfl in Hft. split; [|split; assumption].
    unfold coupled; cbn; rewrite ?Hft. repeat split; try assumption; try reflexivity;
      try (intros id; rewrite <- Hf; clear; res_solve). }
  intros r1 s1 Hi1 Hfl1 Hl1.
  (* release image data *)
  apply wpr_bind.
  apply (wpr_release release_image_data (Free Data)
           (fun l => mkLoc (in_ l) false (fdata l) (filt l)) data);
    [ intros s; destruct s as [sk p e m c [i d f fl]]; now destruct d
    | | reflexivity | exact Hi1 | ].
  { intros Hdt. destruct Hi1 as ((Hf & Hin & Hd & Hft & Hgb) & Hgss & Hif).
    rewrite Hdt in Hd. split; [|split; assumption].
    unfold coupled; cbn; rewrite ?Hd. repeat split; try assumption; try reflexivity;
      try (intros id; rewrite <- Hf; clear; res_solve). }
  intros r2 s2 Hi2 Hd2 Hl2.
  assert (Hfl2 : filt (loc s2) = false).
  { destruct Hl2 as [-> | ->]; exact Hfl1. }
  (* close the input *)
  apply wpr_bind.
  apply (wpr_release close_input FcloseIn
           (fun l => mkLoc false (data l) (fdata l) (filt l)) in_);
    [ intros s; destruct s as [sk p e m c [i d f fl]]; now destruct i
    | | reflexivity | exact Hi2 | ].
  { intros Hin2. destruct Hi2 as ((Hf & Hin & Hd & Hft & Hgb) & Hgss & Hif).
    rewrite Hin2 in Hin. split; [|split; assumption].
    unfold coupled; cbn; rewrite ?Hin. repeat split; try assumption; try reflexivity;
      try (intros id; rewrite <- Hf; clear; res_solve). }
  intros r3 s3 Hi3 Hin3 Hl3.
  assert (Hd3 : data (loc s3) = false /\ filt (loc s3) = false).
  { destruct Hl3 as [-> | ->]; split; assumption. }
  destruct Hd3 as [Hd3 Hfl3].
  (* the sinks are closed at the end of the snapshot and never opened for
     the read-frames sink; the three others are closed here *)
  assert (Hclose : forall id r0 s0 (Q : unit -> resources -> state -> Prop),
             body_inv r0 s0 ->
             (forall r' s', body_inv r' s' -> file (sinks s' id) = None ->
                            loc s' = loc s0 ->
                            (forall j, j <> id -> file (sinks s' j) = file (sinks s0 j)) ->
                            Q tt r' s') ->
             wpr (file_meta_close id) Q R r0 s0).
  { intros id r0 s0 Q Hi0 HQ.
    unfold wpr, file_meta_close, bind, get, vl_file_meta_close.
    pose proof (body_inv_files r0 s0 id Hi0) as Hr.
    destruct (file (sinks s0 id)) as [p|] eqn:Hf; cbn.
    - apply HQ; [| cbn; now rewrite upd_sink_same | reflexivity
                 | intros j Hj; cbn; now rewrite upd_sink_other].
      destruct Hi0 as ((Hfs & Hin & Hd & Hft & Hgb) & Hgss & Hif).
      assert (Hfiles : forall j,
                 r_files (with_files id (remove_one p (r_files r0 id)) r0) j
                 = o2l (file (upd_sink id (set_file (sinks s0 id) None) (sinks s0) j))).
      { intros j. destruct (sink_id_dec j id) as [->|Hj].
        - rewrite upd_sink_same, Hr. cbn. rewrite String.eqb_refl. clear. res_solve.
        - rewrite upd_sink_other by exact Hj. rewrite <- Hfs. clear - Hj.
          res_solve; congruence. }
      split; [|split].
      + unfold coupled. cbn. repeat split; try exact Hfiles.
        * rewrite <- Hin. clear. res_solve.
        * rewrite <- Hd. clear. res_solve.
        * rewrite <- Hft. clear. res_solve.
        * rewrite <- Hgb. clear. res_solve.
      + cbn. destruct (sink_id_dec Gss id) as [<-|Hj];
          [now rewrite upd_sink_same | now rewrite upd_sink_other].
      + cbn. destruct (sink_id_dec Ifr id) as [<-|Hj];
          [now rewrite upd_sink_same | now rewrite upd_sink_other].
    - apply HQ; [| cbn; now rewrite upd_sink_same | reflexivity
                 | intros j Hj; cbn; now rewrite upd_sink_other].
      apply body_inv_set_sink; [exact Hi0 | reflexivity]. }
  apply wpr_bind, Hclose; [exact Hi3|]. intros r4 s4 Hi4 Hc4 Hl4 Hs4.
  apply wpr_bind, Hclose; [exact Hi4|]. intros r5 s5 Hi5 Hc5 Hl5 Hs5.
  apply wpr_bind, Hclose; [exact Hi5|]. intros r6 s6 Hi6 Hc6 Hl6 Hs6.
  apply wpr_bind, Hclose; [exact Hi6|]. intros r7 s7 Hi7 Hc7 Hl7 Hs7.
  (* the error message changes neither the sinks nor the pointers *)
  assert (Hq7 : quiescent s7).
  { intros id. destruct id.
    - rewrite Hs7, Hs6, Hs5 by discriminate. exact Hc4.
    - rewrite Hs7, Hs6 by discriminate. exact Hc5.
    - rewrite Hs7 by discriminate. exact Hc6.
    - exact Hc7.
    - apply Hi7. }
  assert (Hloc7 : loc s7 = loc s3) by congruence.
  assert (Hfinal : forall s, sinks s = sinks s7 -> loc s = loc s7 ->
             released r7 /\ quiescent s /\
             in_ (loc s) = false /\ data (loc s) = false /\ filt (loc s) = false).
  { intros s Hs Hl. rewrite Hl, Hloc7.
    split; [|split; [intros id; rewrite Hs; apply Hq7 | now repeat split]].
    destruct Hi7 as ((Hfs & Hin & Hd & Hft & Hgb) & _).
    rewrite Hloc7, ?Hin3, ?Hd3, ?Hfl3 in *.
    split; [|now repeat split]. intros id. now rewrite Hfs, Hq7. }
  unfold print_error. apply wpr_get. apply wpr_when; intros _.
  - apply wpr_bind, wpr_call. apply wpr_set_exit_code. now apply Hfinal.
  - now apply Hfinal.
Qed.

Lemma wpr_process_image e r st :
  quiescent st -> released r ->
  wpr (process_image e)
      (fun _ r' st' =>
         released r' /\ quiescent st' /\
         in_ (loc st') = false /\ data (loc st') = false /\ filt (loc st') = false)
      (fun _ _ => False) r st.
Proof.
  intros Hq Hr. unfold process_image. apply wpr_at_done.
  apply (wpr_conseq _ _ _ _ _ _ _ (wpr_image_body e r st Hq Hr)).
  - intros _ r1 s1 Hi1. now apply wpr_done_block.
  - intros r1 s1 Hi1. now apply wpr_done_block.
Qed.

(** C6.  From a state in which every sink is closed, and whatever the outcome
    of the calls made for the image, the processing of one image falls
    through to the next iteration of the image loop with every sink closed
    again, the pointers [in], [data] and [filt] null, and with every stream
    opened for a sink, the input file, the image data, the snapshot buffer
    and the filter released: the trace of the image releases all that it
    acquires of these. *)
Theorem image_resources_released (e : image_env) (st : state) (r : resources) :
  quiescent st -> released r ->
  let '(fl, st', evs) := process_image e st in
  fl = Next tt /\ quiescent st' /\
  in_ (loc st') = false /\ data (loc st') = false /\ filt (loc st') = false /\
  released (held r evs).
Proof.
  intros Hq Hr.
  pose proof (wpr_falls_through (process_image e) _ r st
                (wpr_process_image e r st Hq Hr)) as H.
  destruct (process_image e st) as [[fl st'] evs].
  destruct H as ([] & -> & Hrel & Hq' & Hi & Hd & Hf).
  split; [reflexivity|]. split; [exact Hq'|]. split; [exact Hi|].
  split; [exact Hd|]. split; [exact Hf | exact Hrel].
Qed.

(** The same over a batch: the image loop runs to its end. *)
Lemma batch_resources_released (images : list image_env) (st : state) (r : resources) :
  quiescent st -> released r ->
  let '(fl, st', evs) := for_each images process_image st in
  fl = Next tt /\ quiescent st' /\ released (held r evs).
Proof.
  revert st r. induction images as [|e images IH]; intros st r Hq Hr; cbn [for_each].
  - split; [reflexivity|]. split; assumption.
  - unfold bind.
    pose proof (wpr_falls_through (process_image e) _ r st
                  (wpr_process_image e r st Hq Hr)) as H.
    destruct (process_image e st) as [[fl st1] ev1].
    destruct H as ([] & -> & Hr1 & Hq1 & _).
    specialize (IH st1 (held r ev1) Hq1 Hr1).
    destruct (for_each images process_image st1) as [[fl2 st2] ev2].
    destruct IH as (-> & Hq2 & Hr2). rewrite held_app.
    split; [reflexivity|]. split; assumption.
Qed.

(** ** The records of an image *)

Lemma wpx_bind {A B} (m : M A) (f : A -> M B) (Q : B -> state -> list event -> Prop)
    (R : state -> list event -> Prop) st :
  wpx m (fun a s1 ev1 =>
           wpx (f a) (fun b s2 ev2 => Q b s2 (ev1 ++ ev2))
               (fun s2 ev2 => R s2 (ev1 ++ ev2)) s1) R st ->
  wpx (bind m f) Q R st.
Proof.
  unfold wpx, bind. destruct (m st) as [[fl st1] ev1].
  destruct fl as [a| | |]; intros H; try assumption.
  now destruct (f a st1) as [[fl2 st2] ev2].
Qed.

Lemma wpx_conseq {A} (m : M A) (Q Q' : A -> state -> list event -> Prop)
    (R R' : state -> list event -> Prop) st :
  wpx m Q' R' st -> (forall a s evs, Q' a s evs -> Q a s evs) ->
  (forall s evs, R' s evs -> R s evs) -> wpx m Q R st.
Proof.
  unfold wpx. destruct (m st) as [[fl st1] ev1]. intros H HQ HR.
  destruct fl; auto.
Qed.

Lemma wpx_of_wp {A} (E : event -> Prop) (m : M A) (Q : A -> state -> Prop) R st :
  wp E m Q R st ->
  wpx m (fun a s evs => Forall E evs /\ Q a s) (fun s evs => Forall E evs /\ R s) st.
Proof.
  unfold wp, wpx. destruct (m st) as [[fl st1] ev1]. intros [He H].
  destruct fl; try contradiction; now split.
Qed.

Lemma wpx_at_done (body after : M unit) (Q : unit -> state -> list event -> Prop) R st :
  wpx body
      (fun _ s1 ev1 => wpx after (fun b s2 ev2 => Q b s2 (ev1 ++ ev2))
                           (fun s2 ev2 => R s2 (ev1 ++ ev2)) s1)
      (fun s1 ev1 => wpx after (fun b s2 ev2 => Q b s2 (ev1 ++ ev2))
                         (fun s2 ev2 => R s2 (ev1 ++ ev2)) s1) st ->
  wpx (at_done body after) Q R st.
Proof.
  unfold wpx, at_done. destruct (body st) as [[fl st1] ev1].
  destruct fl as [a| | |]; intros H; try assumption.
  - now destruct (after st1) as [[fl2 st2] ev2].
  - now destruct (after st1) as [[fl2 st2] ev2].
Qed.

Lemma wp_quiet (m : M unit) (Q : unit -> state -> Prop) R st :
  quiet m -> Q tt st -> wp no_record m Q R st.
Proof.
  intros H HQ. destruct (H st) as (evs & E & N). unfold wp. rewrite E. now split.
Qed.

Lemma vl_file_meta_open_quiet fo id fm b mode :
  Forall no_record (snd (vl_file_meta_open fo id fm b mode)).
Proof.
  destruct (vl_file_meta_open_cases fo id fm b mode) as [H | [H | [H | H]]];
    cbv zeta in H; rewrite H; now repeat constructor.
Qed.

Section Loud.

(** The flag of the sink [id] is [act] throughout, no record is written, and
    a jump to [done] is made with an error in [err]. *)
Variable id : sink_id.
Variable act : bool.

Lemma wp_open_output {A} fo j b (rest : M A) (Q : A -> state -> Prop) st :
  keeps id act st ->
  (forall st', keeps id act st' -> wp no_record rest Q failed st') ->
  wp no_record (file_meta_open fo j b "w" ;; WERR j ;; rest) Q failed st.
Proof.
  intros Hk Hrest. apply wp_bind, wp_file_meta_open. intros e fm evs Ho.
  split.
  { pose proof (vl_file_meta_open_quiet fo j (sinks st j) b "w") as Hq.
    now rewrite Ho in Hq. }
  assert (Hk' : forall m, keeps id act (with_err_msg m (with_err e (with_sink j fm st)))
                          /\ keeps id act (with_err e (with_sink j fm st))).
  { intros m. unfold keeps in *. cbn.
    pose proof (vl_file_meta_open_active fo j (sinks st j) b "w") as Ha.
    rewrite Ho in Ha. cbn in Ha.
    destruct (sink_id_dec id j) as [->|Hj].
    - rewrite upd_sink_same. split; congruence.
    - rewrite upd_sink_other by exact Hj. now split. }
  apply wp_bind. unfold WERR. apply wp_get.
  apply wp_if; intros Hov.
  { apply wp_bind, wp_set_err_msg. apply wp_goto_done.
    unfold failed. cbn in *. apply Z.eqb_eq in Hov. rewrite Hov. apply err_overflow_nz. }
  apply wp_if; intros Hnz.
  { apply wp_bind, wp_set_err_msg. apply wp_goto_done.
    unfold failed. cbn in *. now apply negb_true_iff, Z.eqb_neq in Hnz. }
  apply wp_ret. apply Hrest, (Hk' "").
Qed.

Ltac loud_leaf :=
  unfold failed, keeps in *; cbn [err sinks with_err with_err_msg with_loc with_sink] in *;
  first [ assumption
        | apply err_io_nz | apply err_alloc_nz | apply err_overflow_nz
        | match goal with
          | H : negb (?x =? 0) = true |- ?x <> 0 =>
              apply negb_true_iff, Z.eqb_neq in H; exact H
          end ].

Ltac wp_step :=
  lazymatch goal with
  | |- wp _ (ret _) _ _ _ => apply wp_ret
  | |- wp _ goto_done _ _ _ => apply wp_goto_done
  | |- wp _ (bind get _) _ _ _ => apply wp_get
  | |- wp _ (bind _ _) _ _ _ => apply wp_bind
  | |- wp _ (set_err _) _ _ _ => apply wp_set_err
  | |- wp _ (set_err_msg _) _ _ _ => apply wp_set_err_msg
  | |- wp _ (set_loc _) _ _ _ => apply wp_set_loc
  | |- wp _ (if _ then _ else _) _ _ _ => apply wp_if; intros ?
  | |- wp _ (call _) _ _ _ => apply wp_call; [now repeat constructor|]
  end.

Lemma wp_determine_files e st :
  keeps id act st -> wp no_record (determine_files e) (fun _ s => keeps id act s) failed st.
Proof.
  intros Hk. unfold determine_files. cbv zeta.
  apply wp_bind, wp_set_err. apply wp_get.
  apply wp_bind. apply wp_if; intros _; [repeat wp_step; loud_leaf | apply wp_ret].
  apply wp_bind, wp_quiet; [repeat emits_step|].
  apply wp_bind, wp_quiet; [repeat emits_step|].
  apply wp_bind. apply wp_bind, wp_call; [now repeat constructor|].
  unfold set_in. apply wp_get, wp_set_loc.
  apply wp_bind. apply wp_if; intros _; [repeat wp_step; loud_leaf | apply wp_ret].
  apply wp_open_output; [loud_leaf|]. intros s2 Hk2.
  apply wp_open_output; [exact Hk2|]. intros s3 Hk3.
  apply wp_open_output; [exact Hk3|]. intros s4 Hk4.
  apply wp_get. apply wp_bind, wp_quiet; [repeat emits_step|].
  apply wp_ret. exact Hk4.
Qed.

Lemma wp_read_image_data e st :
  keeps id act st -> wp no_record (read_image_data e) (fun _ s => keeps id act s) failed st.
Proof.
  intros Hk. unfold read_image_data.
  apply wp_bind, wp_set_err.
  apply wp_bind. apply wp_if; intros _; [repeat wp_step; loud_leaf | apply wp_ret].
  apply wp_get. apply wp_bind, wp_quiet; [repeat emits_step|].
  apply wp_bind. apply wp_bind, wp_call; [now repeat constructor|].
  unfold set_data, set_fdata. apply wp_bind, wp_get, wp_set_loc.
  apply wp_get, wp_set_loc.
  apply wp_bind. apply wp_if; intros _; [repeat wp_step; loud_leaf | apply wp_ret].
  apply wp_bind, wp_set_err.
  apply wp_if; intros Hrc; [repeat wp_step; loud_leaf | apply wp_ret; loud_leaf].
Qed.

Lemma wp_new_filter e st :
  keeps id act st -> wp no_record (new_filter e) (fun _ s => keeps id act s) failed st.
Proof.
  intros Hk. unfold new_filter. apply wp_get.
  apply wp_bind. apply wp_bind, wp_call; [now repeat constructor|].
  unfold set_filt. apply wp_get, wp_set_loc.
  apply wp_if; intros _; [repeat wp_step; loud_leaf | apply wp_ret; loud_leaf].
Qed.

End Loud.

Lemma count_app p l1 l2 : count p (l1 ++ l2) = (count p l1 + count p l2)%nat.
Proof. unfold count. now rewrite filter_app, length_app. Qed.

Lemma count_quiet p evs :
  (forall ev, is_record ev = false -> p ev = false) ->
  Forall no_record evs -> count p evs = 0%nat.
Proof.
  intros Hp H. unfold count. rewrite filter_none; [reflexivity|].
  eapply Forall_impl; [|exact H]. exact Hp.
Qed.

Lemma count_flat_map {A} p (f : A -> list event) (l : list A) :
  count p (flat_map f l) = list_sum (map (fun a => count p (f a)) l).
Proof.
  induction l as [|a l IH]; simpl; [reflexivity|].
  now rewrite count_app, IH.
Qed.

Lemma list_sum_const {A} (f : A -> nat) (l : list A) (c : nat) :
  (forall a, f a = c) -> list_sum (map f l) = (c * List.length l)%nat.
Proof.
  intros H. induction l as [|a l IH]; simpl; [lia|].
  rewrite H, IH. lia.
Qed.

Lemma list_sum_scale {A} (f : A -> nat) (l : list A) (c : nat) :
  list_sum (map (fun a => c * f a)%nat l) = (c * list_sum (map f l))%nat.
Proof. induction l as [|a l IH]; simpl; [lia|]. rewrite IH. lia. Qed.

Lemma uses_no_record ev : uses Frm ev = false -> uses Dsc ev = false -> no_record ev.
Proof.
  unfold uses, no_record. intros Hf Hd.
  destruct ev as [| | | |s fmt args| | | | |]; try reflexivity.
  destruct s as [| |j f]; try reflexivity.
  destruct j; try reflexivity; cbn in *; discriminate.
Qed.

Lemma save_gss_quiet fo S oc fm b v :
  Forall no_record (gss_events (save_gss fo S oc Gss fm b v)).
Proof.
  pose proof (save_gss_uses Frm fo S oc b v fm ltac:(discriminate)) as Hf.
  pose proof (save_gss_uses Dsc fo S oc b v fm ltac:(discriminate)) as Hd.
  pose proof (Forall_and Hf Hd) as H.
  eapply Forall_impl; [|exact H]. intros ev [H1 H2]. now apply uses_no_record.
Qed.

Lemma wpx_emits P (m : M unit) (Q : unit -> state -> list event -> Prop) R st :
  emits P m -> (forall evs, P evs -> Q tt st evs) -> wpx m Q R st.
Proof.
  intros H HQ. destruct (H st) as (evs & E & N). unfold wpx. rewrite E. now apply HQ.
Qed.

Lemma wpx_set_err v (Q : unit -> state -> list event -> Prop) R st :
  Q tt (with_err v st) [] -> wpx (set_err v) Q R st.
Proof. now unfold wpx. Qed.

Lemma wpx_get {B} (f : state -> M B) (Q : B -> state -> list event -> Prop) R st :
  wpx (f st) Q R st -> wpx (bind get f) Q R st.
Proof.
  unfold wpx, bind, get. destruct (f st st) as [[fl s2] ev2]. now rewrite app_nil_l.
Qed.

Section Records.

(** [p] picks, among the records of the sink [id], those that each
    orientation yields [w] times when the sink is active. *)
Variable id : sink_id.
Variable act : bool.
Variable p : event -> bool.
Variable w : nat.
Hypothesis id_not_gss : id <> Gss.
Hypothesis p_record : forall ev, is_record ev = false -> p ev = false.
Hypothesis p_orientation :
  forall st keys0 o,
    count p (orientation_events st keys0 o) = if active (sinks st id) then w else 0%nat.

Lemma count_emit_keys ks st :
  let '(_, _, evs) := emit_keys ks st in
  count p evs = if active (sinks st id) then (w * orientation_count ks)%nat else 0%nat.
Proof.
  destruct ks as [|k0 rest].
  - cbn. destruct (active (sinks st id)); [unfold orientation_count; cbn; lia | reflexivity].
  - rewrite emit_keys_calls. rewrite count_flat_map.
    assert (Hk : forall k,
               count p (flat_map (orientation_events st (key k0)) (orientations k))
               = ((if active (sinks st id) then w else 0) * List.length (orientations k))%nat).
    { intros k. rewrite count_flat_map. apply list_sum_const. intros o. apply p_orientation. }
    rewrite (map_ext _ _ Hk). unfold orientation_count.
    rewrite list_sum_scale. now destruct (active (sinks st id)).
Qed.

Lemma wpx_optionally_save_gss e b oc st :
  keeps id act st ->
  wpx (optionally_save_gss e b oc)
      (fun _ s evs => Forall no_record evs /\ keeps id act s)
      (fun s _ => failed s) st.
Proof.
  intros Hk. unfold optionally_save_gss, wpx, bind, get.
  destruct (active (sinks st Gss)); cbn [when]; [|now cbn].
  cbn [set_sink call set_err]. cbn [fst snd].
  set (g := save_gss _ _ _ _ _ _ _).
  set (v := match gss_returned g with Some v => v | None => gss_indeterminate oc end).
  cbn. destruct (negb (v =? 0)) eqn:Hv; cbn.
  - unfold failed. cbn. now apply negb_true_iff, Z.eqb_neq in Hv.
  - rewrite !app_nil_r. split; [apply save_gss_quiet|].
    unfold keeps in *. cbn. now rewrite upd_sink_other.
Qed.

Lemma wpx_octave_loop e b steps st :
  keeps id act st ->
  wpx (octave_loop e b steps)
      (fun _ s evs =>
         err s = 0 /\ keeps id act s /\
         count p evs = if act then (w * orientation_total (processed steps))%nat else 0%nat)
      (fun s _ => failed s) st.
Proof.
  revert st. induction steps as [|[rc oc] rest IH]; intros st Hk; cbn [octave_loop processed].
  - unfold wpx. cbn. split; [apply err_ok_zero|]. split; [exact Hk|].
    destruct act; [unfold orientation_total; cbn; lia | reflexivity].
  - apply wpx_bind, wpx_set_err. cbn [app].
    destruct (rc =? 0) eqn:Hrc; cbn [negb].
    2:{ apply wpx_set_err. split; [apply err_ok_zero|]. split; [exact Hk|].
        destruct act; [unfold orientation_total; cbn; lia | reflexivity]. }
    assert (Hk1 : keeps id act (with_err rc st)) by exact Hk.
    set (s1 := with_err rc st) in *. clearbody s1.
    apply wpx_get.
    apply wpx_bind.
    apply (wpx_emits (Forall no_record)); [repeat emits_step|]. intros ev1 He1.
    apply wpx_bind.
    apply (wpx_conseq _ _ _ _ _ _ (wpx_optionally_save_gss e b oc s1 Hk1)); [|auto].
    intros _ s2 ev2 [He2 Hk2].
    apply wpx_bind.
    apply (wpx_emits (Forall no_record)); [repeat emits_step|]. intros ev3 He3.
    apply wpx_bind.
    pose proof (count_emit_keys (keys oc) s2) as Hc.
    unfold wpx at 1.
    destruct (neutral_emit_keys (keys oc) s2) as (ev4 & Eq4 & _).
    rewrite Eq4 in Hc |- *.
    apply (wpx_conseq _ _ _ _ _ _ (IH s2 Hk2)); [|auto].
    intros _ s5 ev5 (He & Hk5 & Hn). split; [exact He|]. split; [exact Hk5|].
    rewrite !count_app, Hn, Hc.
    rewrite (count_quiet p ev1 p_record He1), (count_quiet p ev2 p_record He2),
      (count_quiet p ev3 p_record He3).
    unfold keeps in Hk2. rewrite Hk2. cbn [count filter List.length].
    destruct act; [|reflexivity].
    change (orientation_total (oc :: processed rest))
      with (orientation_count (keys oc) + orientation_total (processed rest))%nat.
    lia.
Qed.

Lemma wpx_stage {A} (m : M A) (f : A -> M unit) (Q : unit -> state -> list event -> Prop) st :
  wp no_record m (fun _ s => keeps id act s) failed st ->
  (forall a s ev1, Forall no_record ev1 -> keeps id act s ->
     wpx (f a) (fun b s2 ev2 => Q b s2 (ev1 ++ ev2)) (fun s2 _ => failed s2) s) ->
  wpx (bind m f) Q (fun s _ => failed s) st.
Proof.
  intros Hm Hf. apply wpx_bind.
  apply (wpx_conseq _ _ _ _ _ _ (wpx_of_wp no_record m _ _ st Hm)).
  - intros a s ev1 [He Hk]. now apply Hf.
  - now intros s ev1 [_ H].
Qed.

Lemma wpx_image_body e st :
  keeps id act st ->
  wpx (image_body e)
      (fun _ s evs =>
         count p evs
         = if act then (w * orientation_total (processed (octaves e)))%nat else 0%nat)
      (fun s _ => failed s) st.
Proof.
  intros Hk. unfold image_body.
  apply wpx_stage; [now apply wp_set_loc|]. intros _ s0 ev0 He0 Hk0.
  apply wpx_stage; [now apply wp_determine_files|]. intros b s1 ev1 He1 Hk1.
  apply wpx_stage; [now apply wp_read_image_data|]. intros _ s2 ev2 He2 Hk2.
  apply wpx_stage; [now apply wp_new_filter|]. intros _ s3 ev3 He3 Hk3.
  apply wpx_bind.
  apply (wpx_conseq _ _ _ _ _ _ (wpx_octave_loop e b (octaves e) s3 Hk3)); [|auto].
  intros _ s4 ev4 (_ & _ & Hn).
  apply (wpx_emits (Forall no_record)); [unfold meta_file; repeat emits_step|].
  intros ev5 He5. rewrite !count_app, Hn.
  rewrite (count_quiet p ev0 p_record He0), (count_quiet p ev1 p_record He1),
    (count_quiet p ev2 p_record He2), (count_quiet p ev3 p_record He3),
    (count_quiet p ev5 p_record He5).
  lia.
Qed.

Lemma wpx_done_block (Q : state -> Prop) st :
  Q (done_state st) ->
  wpx done_block (fun _ s evs => Forall no_record evs /\ Q s) (fun _ _ => False) st.
Proof.
  intros H.
  apply (wpx_conseq _ _ _ _ _ _
           (wpx_of_wp no_record done_block (fun _ s => Q s) (fun _ => False) st
              (wp_done_block no_record _ _ st eq_refl eq_refl eq_refl
                 (fun _ _ => eq_refl) (fun _ => eq_refl) H)));
    [auto | now intros s evs [_ F]].
Qed.

Lemma err_done_state st : err (done_state st) = err st.
Proof. unfold done_state. now destruct (negb (err st =? 0)). Qed.

Lemma count_process_image e st :
  keeps id act st ->
  let '(_, st', evs) := process_image e st in
  err st' = 0 ->
  count p evs = if act then (w * orientation_total (processed (octaves e)))%nat else 0%nat.
Proof.
  intros Hk.
  assert (H : wpx (process_image e)
                  (fun _ s evs =>
                     err s = 0 ->
                     count p evs
                     = if act then (w * orientation_total (processed (octaves e)))%nat
                       else 0%nat)
                  (fun _ _ => False) st).
  { unfold process_image. apply wpx_at_done.
    apply (wpx_conseq _ _ _ _ _ _ (wpx_image_body e st Hk)).
    - intros _ s1 ev1 Hn.
      apply (wpx_conseq _ _ _ _ _ _ (wpx_done_block (fun s => True) s1 I)); [|auto].
      intros _ s2 ev2 [He2 _] _.
      rewrite count_app, Hn, (count_quiet p ev2 p_record He2). lia.
    - intros s1 ev1 Hf.
      apply (wpx_conseq _ _ _ _ _ _
               (wpx_done_block (fun s => err s <> 0) s1
                  ltac:(cbv beta; rewrite err_done_state; exact Hf))); [|auto].
      intros _ s2 ev2 [_ Hne] H0. contradiction. }
  unfold wpx in H. destruct (process_image e st) as [[fl st'] evs].
  destruct fl; try contradiction. exact H.
Qed.

End Records.

Lemma frames_line_is_record ev : is_record ev = false -> is_frames_line ev = false.
Proof.
  destruct ev as [| | | |s fmt args| | | | |]; try reflexivity.
  destruct s as [| |j f]; try reflexivity. destruct j; try reflexivity; discriminate.
Qed.

Lemma descriptor_line_is_record ev : is_record ev = false -> is_descriptor_line ev = false.
Proof.
  destruct ev as [| | | |s fmt args| | | | |]; try reflexivity.
  destruct s as [| |j f]; try reflexivity. destruct j; try reflexivity; discriminate.
Qed.

Lemma descriptor_field_is_record ev : is_record ev = false -> is_descriptor_field ev = false.
Proof.
  destruct ev as [| | | |s fmt args| | | | |]; try reflexivity.
  destruct s as [| |j f]; try reflexivity. destruct j; try reflexivity; discriminate.
Qed.

Lemma orientation_frames_lines st keys0 o :
  count is_frames_line (orientation_events st keys0 o)
  = if active (sinks st Frm) then 1%nat else 0%nat.
Proof.
  unfold orientation_events.
  destruct (active (sinks st Frm)), (active (sinks st Dsc)); vm_compute; reflexivity.
Qed.

Lemma orientation_descriptor_lines st keys0 o :
  count is_descriptor_line (orientation_events st keys0 o)
  = if active (sinks st Dsc) then 1%nat else 0%nat.
Proof.
  unfold orientation_events.
  destruct (active (sinks st Frm)), (active (sinks st Dsc)); vm_compute; reflexivity.
Qed.

Lemma orientation_descriptor_fields st keys0 o :
  count is_descriptor_field (orientation_events st keys0 o)
  = if active (sinks st Dsc) then 128%nat else 0%nat.
Proof.
  unfold orientation_events.
  destruct (active (sinks st Frm)), (active (sinks st Dsc)); vm_compute; reflexivity.
Qed.

(** C7.  Each orientation of each keypoint makes [main] perform the calls of
    [orientation_events]: one line to the frames sink if that sink is active
    and, independently, the 128 fields and the end of line of one record to
    the descriptors sink if that sink is active.  Hence, for an image whose
    processing ends with [err] zero, the number of lines written to each of
    the two sinks is the sum, over the keypoints detected in the octaves that
    the filter provides, of their numbers of orientations if the sink is
    active, and zero otherwise, with 128 fields for each line of the
    descriptors; and when the frames sink is inactive no call opens it,
    writes to it or reports it. *)
Theorem one_record_per_orientation (e : image_env) (st : state)
    (fl : flow unit) (st' : state) (evs : list event) :
  process_image e st = (fl, st', evs) ->
  err st' = 0 ->
  (forall keys0 o s,
      emit_orientation keys0 o s = (Next tt, s, orientation_events s keys0 o) /\
      count is_frames_line (orientation_events s keys0 o) = b2n (active (sinks s Frm)) /\
      count is_descriptor_line (orientation_events s keys0 o)
      = b2n (active (sinks s Dsc))) /\
  count is_frames_line evs
  = (if active (sinks st Frm) then orientation_total (processed (octaves e)) else 0%nat) /\
  count is_descriptor_line evs
  = (if active (sinks st Dsc) then orientation_total (processed (octaves e)) else 0%nat) /\
  count is_descriptor_field evs
  = (if active (sinks st Dsc)
     then (128 * orientation_total (processed (octaves e)))%nat else 0%nat) /\
  (active (sinks st Frm) = false -> Forall (fun ev => uses Frm ev = false) evs).
Proof.
  intros E H0.
  pose proof (count_process_image Frm (active (sinks st Frm)) is_frames_line 1
                ltac:(discriminate) frames_line_is_record orientation_frames_lines
                e st eq_refl) as Hf.
  pose proof (count_process_image Dsc (active (sinks st Dsc)) is_descriptor_line 1
                ltac:(discriminate) descriptor_line_is_record orientation_descriptor_lines
                e st eq_refl) as Hd.
  pose proof (count_process_image Dsc (active (sinks st Dsc)) is_descriptor_field 128
                ltac:(discriminate) descriptor_field_is_record
                orientation_descriptor_fields e st eq_refl) as Hg.
  pose proof (sink_inv_process_image Frm false e [] st) as Hp.
  rewrite E in Hf, Hd, Hg, Hp. cbn [app] in Hp.
  rewrite Nat.mul_1_l in Hf, Hd.
  split; [|split; [|split; [|split]]]; auto.
  - intros keys0 o s. split; [apply emit_orientation_calls|]. unfold b2n.
    split; [apply orientation_frames_lines | apply orientation_descriptor_lines].
  - intros Ha. apply Hp; [|reflexivity]. split; [constructor | exact Ha].
Qed.

(** ** The option loop *)

Ltac code_tests :=
  repeat match goal with
         | |- context [?a =? ?b] =>
             let v := eval vm_compute in (a =? b) in
             match v with
             | true => change (a =? b) with true
             | false => change (a =? b) with false
             end
         end;
  cbv iota.

(** One pass of the loop body from a state without error. *)
Lemma main_after_option argv0 pre it post images st1 ev1 :
  parse_options argv0 pre init_state = (Next tt, st1, ev1) ->
  err st1 = 0 ->
  forall fl st2 ev2,
    process_option argv0 it st1 = (fl, st2, ev2) ->
    match fl with
    | Next _ => True
    | GotoDone => main argv0 (pre ++ it :: post) images = (GotoDone, st2, ev1 ++ ev2)
    | Exit c => main argv0 (pre ++ it :: post) images = (Exit c, st2, ev1 ++ ev2)
    | Abort => main argv0 (pre ++ it :: post) images = (Abort, st2, ev1 ++ ev2)
    end.
Proof.
  intros Hpre Hz fl st2 ev2 Hopt.
  destruct fl as [a| | |]; [exact I| | |];
    unfold main; unfold bind at 1;
    rewrite (parse_options_app _ _ _ _ _ _ Hpre);
    rewrite parse_options_cons by exact Hz;
    unfold bind at 1; rewrite Hopt; reflexivity.
Qed.

(** X1.  [--help] and [--version], met while no option has raised an error,
    print their text on the standard output and end the run with [exit (0)]:
    the options that follow are not looked at and no image is processed. *)
Theorem information_option_exits (argv0 : string) (pre : list opt_item) (it : opt_item)
    (post : list opt_item) (images : list image_env) (st1 : state) (ev1 : list event) :
  parse_options argv0 pre init_state = (Next tt, st1, ev1) ->
  err st1 = 0 ->
  ch it = chr "h" \/ ch it = opt_version ->
  main argv0 (pre ++ it :: post) images
  = (Exit 0, st1, ev1 ++ [information vl_get_version_string argv0 (ch it)]).
Proof.
  intros Hpre Hz Hc.
  apply (main_after_option argv0 pre it post images st1 ev1 Hpre Hz (Exit 0)).
  unfold process_option, information.
  destruct Hc as [-> | ->]; cbv zeta; code_tests; reflexivity.
Qed.

(** X2.  An option code that the [switch] has no case for, such as the code
    of [--orientations], which [longopts] declares, or that of [-d] and [-p],
    which the option string of [getopt_long] admits, reaches [assert (0)]:
    the run aborts there. *)
Theorem unhandled_option_aborts (argv0 : string) (pre : list opt_item) (it : opt_item)
    (post : list opt_item) (images : list image_env) (st1 : state) (ev1 : list event) :
  parse_options argv0 pre init_state = (Next tt, st1, ev1) ->
  err st1 = 0 ->
  handled_option (ch it) = false ->
  main argv0 (pre ++ it :: post) images = (Abort, st1, ev1).
Proof.
  intros Hpre Hz Hc. rewrite <- (app_nil_r ev1).
  apply (main_after_option argv0 pre it post images st1 ev1 Hpre Hz Abort).
  unfold handled_option in Hc.
  repeat (apply orb_false_iff in Hc; destruct Hc as [Hc ?]).
  unfold process_option. cbv zeta.
  repeat match goal with H : (_ =? _) = false |- _ => rewrite H; clear H end.
  reflexivity.
Qed.

(** What one pass of the loop body does to the state: it leaves [exit_code]
    and the locals alone, counts a [-v], and raises no error other than
    [VL_ERR_BAD_ARG]. *)
Lemma process_option_effect argv0 it st :
  err st = 0 ->
  let '(fl, st1, ev) := process_option argv0 it st in
  (err st1 = 0 \/ err st1 = VL_ERR_BAD_ARG K) /\
  verbose (par st1) = verbose (par st) + (if ch it =? chr "v" then 1 else 0) /\
  exit_code st1 = exit_code st /\
  Forall (fun e => is_stderr e = false) ev.
Proof.
  intros Hz. unfold process_option, sink_option, file_meta_parse, ERR.
  cbv zeta.
  destruct (ch it =? chr "v") eqn:Hv.
  { apply Z.eqb_eq in Hv. rewrite Hv. code_tests. cbn. rewrite Hz.
    repeat split; auto. }
  rewrite Z.add_0_r.
  repeat match goal with
         | |- context [if ?c =? ?d then _ else _] => destruct (c =? d)
         end;
    unfold bind, get, set_err, set_err_msg, set_par, set_sink, printf, call, exit,
      assert_fail, when, ret;
    repeat match goal with
           | |- context [vl_file_meta_parse ?a ?b] => destruct (vl_file_meta_parse a b)
           | |- context [sscanf_d ?a ?b] => destruct (sscanf_d a b)
           | |- context [sscanf_lf ?a ?b] => destruct (sscanf_lf a b)
           end;
    cbn;
    repeat match goal with
           | |- context [if ?c then _ else _] => destruct c eqn:?; cbn
           end;
    try rewrite Hz;
    repeat split; auto; try (now repeat constructor);
    left;
    match goal with
    | H : negb (?z =? 0) = false |- ?z = 0 => now apply negb_false_iff, Z.eqb_eq in H
    end.
Qed.

Lemma process_option_params argv0 it st :
  params_in_range (par st) ->
  let '(fl, st1, ev) := process_option argv0 it st in
  err st1 = 0 -> params_in_range (par st1).
Proof.
  intros (HO & HS & Hm & He & Hp).
  unfold process_option, sink_option, file_meta_parse, ERR, params_in_range.
  cbv zeta.
  repeat match goal with
         | |- context [if ?c =? ?d then _ else _] => destruct (c =? d)
         end;
    unfold bind, get, set_err, set_err_msg, set_par, set_sink, printf, call, exit,
      assert_fail, when, ret;
    repeat match goal with
           | |- context [vl_file_meta_parse ?a ?b] => destruct (vl_file_meta_parse a b)
           | |- context [sscanf_d ?a ?b] => destruct (sscanf_d a b)
           | |- context [sscanf_lf ?a ?b] => destruct (sscanf_lf a b)
           end;
    cbn;
    repeat match goal with
           | |- context [if ?c then _ else _] => destruct c eqn:?; cbn
           end;
    intros Hz;
    try (exfalso; revert Hz; apply err_bad_arg_nz);
    repeat match goal with
           | H : _ || _ = false |- _ => apply orb_false_iff in H; destruct H as [? H]
           | H : (_ <? 0) = false |- _ => apply Z.ltb_ge in H
           end;
    repeat split; first [assumption | lia].
Qed.

Lemma parse_options_effect argv0 items :
  forall st,
    err st = 0 ->
    let '(fl, st', evs) := parse_options argv0 items st in
    (err st' = 0 \/ err st' = VL_ERR_BAD_ARG K) /\
    exit_code st' = exit_code st /\
    Forall (fun e => is_stderr e = false) evs /\
    (fl = Next tt -> err st' = 0 ->
     verbose (par st') = verbose (par st) + count_verbose items /\
     (params_in_range (par st) -> params_in_range (par st'))).
Proof.
  induction items as [|it rest IH]; intros st Hz.
  - rewrite parse_options_nil. split; [now left|]. split; [reflexivity|].
    split; [constructor|]. intros _ _. unfold count_verbose. cbn. split; [lia | auto].
  - rewrite parse_options_cons by exact Hz. unfold bind.
    pose proof (process_option_effect argv0 it st Hz) as H1.
    pose proof (process_option_params argv0 it st) as H2.
    destruct (process_option argv0 it st) as [[fl1 st1] ev1].
    destruct H1 as (He1 & Hv1 & Hx1 & Hs1).
    destruct fl1 as [[]| | |];
      try (split; [exact He1|]; split; [exact Hx1|]; split; [exact Hs1|];
           intros; discriminate).
    destruct (Z.eq_dec (err st1) 0) as [Hz1|Hnz1].
    + specialize (IH st1 Hz1).
      destruct (parse_options argv0 rest st1) as [[fl2 st2] ev2].
      destruct IH as (He2 & Hx2 & Hs2 & Hrest).
      split; [exact He2|]. split; [congruence|].
      split; [now apply Forall_app_intro|].
      intros Hfl Hz2. destruct (Hrest Hfl Hz2) as [Hv2 Hp2].
      split.
      * rewrite Hv2, Hv1. unfold count_verbose. cbn [filter].
        destruct (ch it =? chr "v"); cbn [List.length]; lia.
      * intros Hp. apply Hp2, H2; assumption.
    + rewrite parse_options_error by exact Hnz1.
      split; [exact He1|]. split; [exact Hx1|].
      split; [rewrite app_nil_r; exact Hs1|].
      intros _ Hz1. contradiction.
Qed.

(** X3.  When the option loop ends without error, [verbose] has grown by the
    number of [-v] among the options, whatever the other options are. *)
Theorem verbose_counts_options (argv0 : string) (items : list opt_item)
    (st st' : state) (evs : list event) :
  err st = 0 ->
  parse_options argv0 items st = (Next tt, st', evs) ->
  err st' = 0 ->
  verbose (par st') = verbose (par st) + count_verbose items.
Proof.
  intros Hz Hrun Hz'.
  pose proof (parse_options_effect argv0 items st Hz) as H. rewrite Hrun in H.
  now apply H.
Qed.

(** X4.  When the option loop ends without error, the parameters are within
    the ranges of their defaults and tests: the number of levels is not
    negative, the number of octaves and the first octave are at least -1 (the
    default), and neither threshold compares below zero. *)
Theorem parsed_parameters_in_range (argv0 : string) (items : list opt_item)
    (st' : state) (evs : list event) :
  parse_options argv0 items init_state = (Next tt, st', evs) ->
  err st' = 0 ->
  params_in_range (par st').
Proof.
  intros Hrun Hz'.
  pose proof (parse_options_effect argv0 items init_state (err_ok_zero K)) as H.
  rewrite Hrun in H. destruct H as (_ & _ & _ & H).
  apply H; [reflexivity | exact Hz' |].
  unfold params_in_range. cbn. repeat split; now try lia.
Qed.

(** X5.  When [getopt_long] itself reported no error, that is returned
    neither ['?'] nor [':'] and so wrote no message of its own, an error of
    the option loop, raised by one of the tests of the driver, is always
    [VL_ERR_BAD_ARG], also when the parser of a sink specification reported
    another status; the loop writes nothing on the error stream, and the
    check that follows prints one diagnostic there and ends the run with
    [exit (1)]: options after the faulty one and all images are ignored. *)
Theorem option_error_ends_run (argv0 : string) (items post : list opt_item)
    (images : list image_env) (st1 : state) (ev1 : list event) :
  Forall (fun it => ch it <> chr "?" /\ ch it <> chr ":") items ->
  parse_options argv0 items init_state = (Next tt, st1, ev1) ->
  err st1 <> 0 ->
  err st1 = VL_ERR_BAD_ARG K /\
  Forall (fun e => is_stderr e = false) ev1 /\
  main argv0 (items ++ post) images
  = (Exit 1, st1, ev1 ++ [option_diagnostic argv0 st1]).
Proof.
  intros _ Hrun Hnz.
  pose proof (parse_options_effect argv0 items init_state (err_ok_zero K)) as H.
  rewrite Hrun in H. destruct H as ([He | He] & _ & Hs & _); [contradiction|].
  split; [exact He|]. split; [exact Hs|].
  unfold main. unfold bind at 1.
  rewrite (parse_options_app _ _ _ _ _ _ Hrun).
  rewrite parse_options_error by exact Hnz.
  cbn [app]. rewrite app_nil_r. cbv iota beta.
  unfold bind at 1. unfold check_parsing_errors, bind at 1, get.
  rewrite (neqb_true _ Hnz). unfold bind, call, exit. cbn [app].
  reflexivity.
Qed.

(** ** The statements after the label [done] *)

Lemma bind_next {A B} (m : M A) (f : A -> M B) st a st1 ev1 :
  m st = (Next a, st1, ev1) ->
  bind m f st = let '(r, st2, ev2) := f a st1 in (r, st2, ev1 ++ ev2).
Proof. intros H. unfold bind. now rewrite H. Qed.

Lemma bind_goto {A B} (m : M A) (f : A -> M B) st st1 ev1 :
  m st = (GotoDone, st1, ev1) -> bind m f st = (GotoDone, st1, ev1).
Proof. intros H. unfold bind. now rewrite H. Qed.

Lemma release_filter_run st :
  release_filter st
  = (Next tt, with_loc (mkLoc (in_ (loc st)) (data (loc st)) (fdata (loc st)) false) st,
     if filt (loc st) then [SiftDelete] else []).
Proof. destruct st as [sk p e m c [i d f fl]]. now destruct fl. Qed.

Lemma release_image_data_run st :
  release_image_data st
  = (Next tt, with_loc (mkLoc (in_ (loc st)) false (fdata (loc st)) (filt (loc st))) st,
     if data (loc st) then [Free Data] else []).
Proof. destruct st as [sk p e m c [i d f fl]]. now destruct d. Qed.

Lemma close_input_run st :
  close_input st
  = (Next tt, with_loc (mkLoc false (data (loc st)) (fdata (loc st)) (filt (loc st))) st,
     if in_ (loc st) then [FcloseIn] else []).
Proof. destruct st as [sk p e m c [i d f fl]]. now destruct i. Qed.

Lemma file_meta_close_run id st :
  file_meta_close id st = (Next tt, closed id st, close_events id st).
Proof.
  unfold file_meta_close, closed, close_events, bind, get, vl_file_meta_close.
  destruct (file (sinks st id)) eqn:Hf; cbn; [reflexivity|].
  now rewrite (set_file_none _ Hf).
Qed.

Lemma print_error_run st :
  print_error st
  = (Next tt, if negb (err st =? 0) then with_exit_code 1 st else st,
     if negb (err st =? 0) then [error_line st] else []).
Proof. unfold print_error, bind, get. now destruct (negb (err st =? 0)). Qed.

Lemma done_block_run st : done_block st = (Next tt, done_state st, done_events st).
Proof.
  unfold done_block.
  rewrite (bind_next _ _ _ _ _ _ (release_filter_run st)).
  rewrite (bind_next _ _ _ _ _ _ (release_image_data_run _)).
  rewrite (bind_next _ _ _ _ _ _ (close_input_run _)).
  rewrite (bind_next _ _ _ _ _ _ (file_meta_close_run Frm _)).
  rewrite (bind_next _ _ _ _ _ _ (file_meta_close_run Dsc _)).
  rewrite (bind_next _ _ _ _ _ _ (file_meta_close_run Met _)).
  rewrite (bind_next _ _ _ _ _ _ (file_meta_close_run Gss _)).
  rewrite print_error_run.
  unfold done_state, done_events.
  destruct (negb (err st =? 0)) eqn:He; cbn [err closed with_sink with_loc];
    rewrite He; reflexivity.
Qed.

(** ** The calls of the body of the image loop *)

Lemma vl_file_meta_open_stage v fo id fm b :
  id <> Ifr -> Forall (stage v) (snd (vl_file_meta_open fo id fm b "w")).
Proof.
  intros Hid.
  destruct (vl_file_meta_open_cases fo id fm b "w") as [H | [H | [H | H]]];
    cbv zeta in H; rewrite H; repeat constructor;
    unfold stage, stage_event; destruct id; try reflexivity; congruence.
Qed.

Lemma save_gss_levels_stage v fo oc b pim n :
  forall s e fm,
    Forall (stage v) (snd (save_gss_levels fo oc Gss b v pim n s e fm)).
Proof.
  induction n as [|n IH]; intros s e fm; cbn [save_gss_levels].
  - constructor.
  - pose proof (vl_file_meta_open_stage v fo Gss fm
                  (b +++ truncate (sizeof_tmp - strlen b) (gss_suffix (o_cur oc) s))
                  ltac:(discriminate)) as Hev.
    destruct (vl_file_meta_open fo Gss fm _ "w") as [[e1 fm1] ev1]. cbn [snd] in Hev.
    destruct (negb (e1 =? 0)); [exact Hev|].
    destruct (negb (pgm_insert_rc oc (name fm1) =? 0)).
    { cbn [snd]. apply Forall_app_intro; [exact Hev | now repeat constructor]. }
    assert (Hv : Forall (stage v)
                   (if negb (v =? 0)
                    then [Fprintf Stdout "sift: saved gss level to '%s'\n"
                                  [AStr (name fm1)]]
                    else [])).
    { destruct (negb (v =? 0)) eqn:Hz; repeat constructor. exact Hz. }
    assert (Hc : Forall (stage v) (snd (vl_file_meta_close Gss fm1))).
    { unfold vl_file_meta_close. destruct (file fm1); now repeat constructor. }
    destruct (vl_file_meta_close Gss fm1) as [fm2 ev4]. cbn [snd] in Hc.
    specialize (IH (s + 1) (Some (pgm_insert_rc oc (name fm1))) fm2).
    destruct (save_gss_levels fo oc Gss b v pim n (s + 1) _ fm2) as [[[r e'] fm3] ev5].
    cbn [snd] in *.
    repeat apply Forall_app_intro; try assumption. now repeat constructor.
Qed.

Lemma save_gss_stage v fo S oc b fm :
  Forall (stage v) (gss_events (save_gss fo S oc Gss fm b v)).
Proof.
  assert (Hc : forall fm', Forall (stage v) (snd (vl_file_meta_close Gss fm'))).
  { intros fm'. unfold vl_file_meta_close. destruct (file fm'); now repeat constructor. }
  unfold save_gss.
  destruct (negb (active fm)); [constructor|].
  destruct (negb (gss_malloc_ok oc)).
  { specialize (Hc fm). destruct (vl_file_meta_close Gss fm) as [fm' ev].
    cbn [snd gss_events] in *. now constructor. }
  destruct (_ <=? _).
  { specialize (Hc fm). destruct (vl_file_meta_close Gss fm) as [fm' ev].
    cbn [snd gss_events] in *. constructor; [reflexivity|]. now constructor. }
  pose proof (save_gss_levels_stage v fo oc b
                (mkPgm (octave_width oc) (octave_height oc) 255 1)
                (Z.to_nat S) 0 None fm) as Hl.
  destruct (save_gss_levels fo oc Gss b v _ (Z.to_nat S) 0 None fm)
    as [[[r e] fm1] ev1].
  specialize (Hc fm1). destruct (vl_file_meta_close Gss fm1) as [fm2 ev2].
  cbn [snd gss_events] in *.
  constructor; [reflexivity|].
  apply Forall_app_intro; [exact Hl|]. now constructor.
Qed.

Lemma wp_for_each {A} (E : event -> Prop) (l : list A) (body : A -> M unit)
    (I : state -> Prop) (R : state -> Prop) st :
  (forall a s, I s -> wp E (body a) (fun _ s' => I s') R s) ->
  I st -> wp E (for_each l body) (fun _ s' => I s') R st.
Proof.
  intros Hb. revert st. induction l as [|a l IH]; intros st Hi; cbn [for_each].
  - now apply wp_ret.
  - apply wp_bind. apply (wp_conseq E _ _ _ _ _ _ (Hb a st Hi)); auto.
Qed.

Lemma emits_when_cond (P : list event -> Prop) b m :
  P [] -> (b = true -> emits P m) -> emits P (when b m).
Proof. intros Hn H. destruct b; [now apply H | now apply emits_ret]. Qed.

Lemma wp_emits (E : event -> Prop) (m : M unit) (Q : unit -> state -> Prop) R st :
  emits (Forall E) m -> Q tt st -> wp E m Q R st.
Proof.
  intros H HQ. destruct (H st) as (evs & Eq & N). unfold wp. rewrite Eq. now split.
Qed.

Section Stage.

(** The body of the image loop leaves the parameters [p] and the exit code
    [c] as they are, performs the calls of [stage_event] only, and jumps to
    [done] with an error in [err]. *)
Variable p : params.
Variable c : Z.

Ltac frame_leaf :=
  unfold failed, framed in *;
  cbn [err par exit_code sinks with_err with_err_msg with_loc with_sink] in *;
  first [ assumption
        | exact I
        | split; [ first [ apply err_io_nz | apply err_alloc_nz | apply err_overflow_nz
                         | match goal with
                           | H : negb (?x =? 0) = true |- ?x <> 0 =>
                               apply negb_true_iff, Z.eqb_neq in H; exact H
                           end ]
                 | assumption ] ].

Ltac stdout_leaf :=
  unfold stage, stage_event, framed in *;
  cbn [par with_err with_err_msg with_loc with_sink] in *;
  repeat match goal with
         | H : _ /\ _ |- _ => destruct H
         | H : par _ = p |- _ => rewrite H in *; clear H
         end;
  first [ assumption
        | apply negb_true_iff, Z.eqb_neq;
          match goal with
          | H : (1 <? _) = true |- _ => apply Z.ltb_lt in H; lia
          end ].

Ltac stage_emits :=
  repeat lazymatch goal with
         | |- emits _ (ret tt) => apply emits_ret; constructor
         | |- emits _ (printf _ _) =>
             apply emits_call; constructor; [stdout_leaf | constructor]
         | |- emits _ (bind get _) => apply emits_get; intros ?
         | |- emits _ (bind _ _) => apply emits_bind; [apply Forall_app_intro | |]
         | |- emits _ (when _ _) => apply emits_when_cond; [constructor | intros ?]
         end.

Ltac stage_step :=
  lazymatch goal with
  | |- wp _ (ret _) _ _ _ => apply wp_ret
  | |- wp _ goto_done _ _ _ => apply wp_goto_done
  | |- wp _ (bind get _) _ _ _ => apply wp_get
  | |- wp _ (bind _ _) _ _ _ => apply wp_bind
  | |- wp _ (set_err _) _ _ _ => apply wp_set_err
  | |- wp _ (set_err_msg _) _ _ _ => apply wp_set_err_msg
  | |- wp _ (set_loc _) _ _ _ => apply wp_set_loc
  | |- wp _ (set_sink _ _) _ _ _ => apply wp_set_sink
  | |- wp _ (if _ then _ else _) _ _ _ => apply wp_if; intros ?
  | |- wp _ (when _ _) _ _ _ => apply wp_when; intros ?
  | |- wp _ (printf _ _) _ _ _ => apply wp_printf; [stdout_leaf|]
  | |- wp _ (call _) _ _ _ => apply wp_call; [now repeat constructor|]
  end.

Lemma stage_open_output {A} fo j b (rest : M A) (Q : A -> state -> Prop) st :
  j <> Ifr ->
  framed p c st ->
  (forall st', framed p c st' ->
     wp (stage (verbose p)) rest Q (fun s => failed s /\ framed p c s) st') ->
  wp (stage (verbose p)) (file_meta_open fo j b "w" ;; WERR j ;; rest) Q
     (fun s => failed s /\ framed p c s) st.
Proof.
  intros Hj Hk Hrest. apply wp_bind, wp_file_meta_open. intros e fm evs Ho.
  split.
  { pose proof (vl_file_meta_open_stage (verbose p) fo j (sinks st j) b Hj) as Hq.
    now rewrite Ho in Hq. }
  apply wp_bind. unfold WERR. apply wp_get.
  apply wp_if; intros Hov.
  { apply wp_bind, wp_set_err_msg. apply wp_goto_done. split; [|exact Hk].
    unfold failed. cbn in *. apply Z.eqb_eq in Hov. rewrite Hov. apply err_overflow_nz. }
  apply wp_if; intros Hnz.
  { apply wp_bind, wp_set_err_msg. apply wp_goto_done. split; [|exact Hk].
    unfold failed. cbn in *. now apply negb_true_iff, Z.eqb_neq in Hnz. }
  apply wp_ret. apply Hrest. exact Hk.
Qed.

Lemma stage_determine_files e st :
  framed p c st ->
  wp (stage (verbose p)) (determine_files e) (fun _ s => framed p c s)
     (fun s => failed s /\ framed p c s) st.
Proof.
  intros Hk. unfold determine_files. cbv zeta.
  apply wp_bind, wp_set_err. apply wp_get.
  apply wp_bind. apply wp_if; intros ?; [repeat stage_step; frame_leaf | apply wp_ret].
  apply wp_bind, wp_emits; [stage_emits|].
  apply wp_bind, wp_emits; [stage_emits|].
  apply wp_bind. apply wp_bind, wp_call; [now repeat constructor|].
  unfold set_in. apply wp_get, wp_set_loc.
  apply wp_bind. apply wp_if; intros ?; [repeat stage_step; frame_leaf | apply wp_ret].
  apply stage_open_output; [discriminate | exact Hk |]. intros s2 Hk2.
  apply stage_open_output; [discriminate | exact Hk2 |]. intros s3 Hk3.
  apply stage_open_output; [discriminate | exact Hk3 |]. intros s4 Hk4.
  apply wp_get. apply wp_bind, wp_emits; [stage_emits|].
  apply wp_ret. exact Hk4.
Qed.

Lemma stage_read_image_data e st :
  framed p c st ->
  wp (stage (verbose p)) (read_image_data e) (fun _ s => framed p c s)
     (fun s => failed s /\ framed p c s) st.
Proof.
  intros Hk. unfold read_image_data.
  apply wp_bind, wp_set_err.
  apply wp_bind. apply wp_if; intros ?; [repeat stage_step; frame_leaf | apply wp_ret].
  apply wp_get. apply wp_bind, wp_emits; [stage_emits|].
  apply wp_bind. apply wp_bind, wp_call; [now repeat constructor|].
  unfold set_data, set_fdata. apply wp_bind, wp_get, wp_set_loc.
  apply wp_get, wp_set_loc.
  apply wp_bind. apply wp_if; intros ?; [repeat stage_step; frame_leaf | apply wp_ret].
  apply wp_bind, wp_set_err.
  apply wp_if; intros ?; [repeat stage_step; frame_leaf | apply wp_ret; frame_leaf].
Qed.

Lemma stage_new_filter e st :
  framed p c st ->
  wp (stage (verbose p)) (new_filter e) (fun _ s => framed p c s)
     (fun s => failed s /\ framed p c s) st.
Proof.
  intros Hk. unfold new_filter. apply wp_get.
  apply wp_bind. apply wp_bind, wp_call; [now repeat constructor|].
  unfold set_filt. apply wp_get, wp_set_loc.
  apply wp_if; intros ?; [repeat stage_step; frame_leaf | apply wp_ret; frame_leaf].
Qed.

End Stage.

Lemma orientation_events_stage v st keys0 o :
  Forall (stage v) (orientation_events st keys0 o).
Proof.
  unfold orientation_events, descriptor_record, frames_record.
  apply Forall_app_intro.
  - destruct (active (sinks st Frm)); now repeat constructor.
  - destruct (active (sinks st Dsc)); [|constructor].
    apply Forall_app_intro; [|now repeat constructor].
    apply Forall_map, Forall_forall. intros i _. reflexivity.
Qed.

Lemma emit_keys_stage v ks st :
  exists evs, emit_keys ks st = (Next tt, st, evs) /\ Forall (stage v) evs.
Proof.
  destruct ks as [|k0 rest].
  - exists []. split; [reflexivity | constructor].
  - eexists. split; [apply emit_keys_calls|].
    apply Forall_flat_map, Forall_forall. intros k _.
    apply Forall_flat_map, Forall_forall. intros o _.
    apply orientation_events_stage.
Qed.

Lemma stage_optionally_save_gss p c e b oc st :
  framed p c st ->
  wp (stage (verbose p)) (optionally_save_gss e b oc) (fun _ s => framed p c s)
     (fun s => failed s /\ framed p c s) st.
Proof.
  intros Hk. unfold optionally_save_gss. apply wp_get.
  apply wp_when; [intros _ | intros _; exact Hk].
  cbv zeta. apply wp_bind, wp_set_sink.
  apply wp_bind, wp_call.
  { destruct Hk as [Hp _]. cbn [par with_sink]. rewrite Hp. apply save_gss_stage. }
  apply wp_bind, wp_set_err. apply wp_get.
  apply wp_if; intros Hnz.
  - apply wp_bind, wp_set_err_msg. apply wp_goto_done. split; [|exact Hk].
    unfold failed. cbn in *. now apply negb_true_iff, Z.eqb_neq in Hnz.
  - apply wp_ret. exact Hk.
Qed.

Lemma stage_octave_loop p c e b steps :
  forall st,
    framed p c st ->
    wp (stage (verbose p)) (octave_loop e b steps)
       (fun _ s => err s = 0 /\ framed p c s)
       (fun s => failed s /\ framed p c s) st.
Proof.
  induction steps as [|[rc oc] rest IH]; intros st Hk; cbn [octave_loop].
  - apply wp_bind, wp_set_err. apply wp_set_err. split; [apply err_ok_zero | exact Hk].
  - apply wp_bind, wp_set_err. apply wp_if; intros _.
    { apply wp_set_err. split; [apply err_ok_zero | exact Hk]. }
    apply wp_get.
    assert (Hpr : forall fmt args,
               emits (Forall (stage (verbose p)))
                     (when (1 <? verbose (par (with_err rc st))) (printf fmt args))).
    { intros fmt args. apply emits_when_cond; [constructor|]. intros H.
      apply emits_call. constructor; [|constructor].
      destruct Hk as [Hp _]. unfold stage, stage_event. cbn [par with_err] in H.
      rewrite Hp in H. apply negb_true_iff, Z.eqb_neq. apply Z.ltb_lt in H. lia. }
    apply wp_bind, wp_emits; [apply Hpr|].
    apply wp_bind.
    apply (wp_conseq _ _ _ _ _ _ _
             (stage_optionally_save_gss p c e b oc (with_err rc st) Hk)); [|auto].
    intros _ s2 Hk2.
    apply wp_bind, wp_emits; [apply Hpr|].
    apply wp_bind.
    { destruct (emit_keys_stage (verbose p) (keys oc) s2) as (evs & Eq & Hev).
      unfold wp at 1. rewrite Eq. split; [exact Hev|]. now apply IH. }
Qed.

Lemma meta_file_run e st : meta_file e st = (Next tt, st, meta_events e st).
Proof.
  unfold meta_file, meta_events, meta_record, bind, get, fprintf, call, when, ret.
  destruct (active (sinks st Met)); [|reflexivity].
  destruct (active (sinks st Dsc)), (active (sinks st Frm)); reflexivity.
Qed.

Lemma wpx_wp {A B} (E : event -> Prop) (m : M A) (f : A -> M B)
    (Q : B -> state -> list event -> Prop) (R : state -> list event -> Prop)
    (I : A -> state -> Prop) (F : state -> Prop) st :
  wp E m I F st ->
  (forall a s ev1, Forall E ev1 -> I a s ->
     wpx (f a) (fun b s2 ev2 => Q b s2 (ev1 ++ ev2))
         (fun s2 ev2 => R s2 (ev1 ++ ev2)) s) ->
  (forall s ev1, Forall E ev1 -> F s -> R s ev1) ->
  wpx (bind m f) Q R st.
Proof.
  intros Hm Hf HR. apply wpx_bind.
  apply (wpx_conseq _ _ _ _ _ _ (wpx_of_wp E m _ _ st Hm)).
  - intros a s ev1 [He Hi]. now apply Hf.
  - intros s ev1 [He Hi]. now apply HR.
Qed.

(** The body of the image loop either falls through, [err] being zero, having
    performed calls of its stages followed by the meta record, or jumps to
    [done] with an error in [err] having performed calls of its stages only;
    it leaves the parameters and the exit code alone. *)
Lemma image_body_trace e st :
  wpx (image_body e)
      (fun _ s evs =>
         err s = 0 /\ framed (par st) (exit_code st) s /\
         exists ev0, evs = ev0 ++ meta_events e s /\ Forall (stage (verbose (par st))) ev0)
      (fun s evs =>
         err s <> 0 /\ framed (par st) (exit_code st) s /\
         Forall (stage (verbose (par st))) evs)
      st.
Proof.
  set (p := par st). set (c := exit_code st).
  assert (Hk : framed p c st) by (split; reflexivity).
  clearbody p c.
  assert (HR : forall s ev1,
             Forall (stage (verbose p)) ev1 -> failed s /\ framed p c s ->
             err s <> 0 /\ framed p c s /\ Forall (stage (verbose p)) ev1).
  { intros s ev1 He [Hf Hs]. split; [exact Hf|]. split; [exact Hs | exact He]. }
  unfold image_body.
  apply (wpx_wp (stage (verbose p)) _ _ _ _ (fun _ s => framed p c s)
                (fun s => failed s /\ framed p c s));
    [now apply wp_set_loc | | exact HR].
  intros _ s0 ev0 He0 Hk0.
  apply (wpx_wp (stage (verbose p)) _ _ _ _ (fun _ s => framed p c s)
                (fun s => failed s /\ framed p c s));
    [now apply stage_determine_files | |].
  2:{ intros s ev1 He Hf. destruct (HR s ev1 He Hf) as (H1 & H2 & H3).
      split; [exact H1|]. split; [exact H2|]. now apply Forall_app_intro. }
  intros b s1 ev1 He1 Hk1.
  apply (wpx_wp (stage (verbose p)) _ _ _ _ (fun _ s => framed p c s)
                (fun s => failed s /\ framed p c s));
    [now apply stage_read_image_data | |].
  2:{ intros s ev2 He Hf. destruct (HR s ev2 He Hf) as (H1 & H2 & H3).
      split; [exact H1|]. split; [exact H2|]. now repeat apply Forall_app_intro. }
  intros _ s2 ev2 He2 Hk2.
  apply (wpx_wp (stage (verbose p)) _ _ _ _ (fun _ s => framed p c s)
                (fun s => failed s /\ framed p c s));
    [now apply stage_new_filter | |].
  2:{ intros s ev3 He Hf. destruct (HR s ev3 He Hf) as (H1 & H2 & H3).
      split; [exact H1|]. split; [exact H2|]. now repeat apply Forall_app_intro. }
  intros _ s3 ev3 He3 Hk3.
  apply (wpx_wp (stage (verbose p)) _ _ _ _ (fun _ s => err s = 0 /\ framed p c s)
                (fun s => failed s /\ framed p c s));
    [now apply stage_octave_loop | |].
  2:{ intros s ev4 He Hf. destruct (HR s ev4 He Hf) as (H1 & H2 & H3).
      split; [exact H1|]. split; [exact H2|]. now repeat apply Forall_app_intro. }
  intros _ s4 ev4 He4 [Hz4 Hk4].
  unfold wpx. rewrite meta_file_run.
  split; [exact Hz4|]. split; [exact Hk4|].
  exists (ev0 ++ ev1 ++ ev2 ++ ev3 ++ ev4). split.
  - now rewrite <- !app_assoc.
  - now repeat apply Forall_app_intro.
Qed.

(** The processing of an image: the body, then the statements after [done]
    from the state [st1] in which the body was left. *)
Lemma process_image_trace e st :
  exists fl st1 ev1,
    image_body e st = (fl, st1, ev1) /\
    process_image e st = (Next tt, done_state st1, ev1 ++ done_events st1) /\
    par st1 = par st /\ exit_code st1 = exit_code st /\
    ((err st1 = 0 /\
      exists ev0, ev1 = ev0 ++ meta_events e st1 /\
                  Forall (stage (verbose (par st))) ev0)
     \/ (err st1 <> 0 /\ Forall (stage (verbose (par st))) ev1)).
Proof.
  pose proof (image_body_trace e st) as H. unfold wpx in H.
  unfold process_image, at_done.
  destruct (image_body e st) as [[fl st1] ev1].
  exists fl, st1, ev1. split; [reflexivity|].
  destruct fl as [[]| | |]; try contradiction; rewrite done_block_run.
  - destruct H as (Hz & [Hp Hc] & Hev). repeat split; auto.
  - destruct H as (Hz & [Hp Hc] & Hev). repeat split; auto.
Qed.

Lemma done_state_err st : err (done_state st) = err st.
Proof. unfold done_state. now destruct (negb (err st =? 0)). Qed.

Lemma done_state_err_msg st : err_msg (done_state st) = err_msg st.
Proof. unfold done_state. now destruct (negb (err st =? 0)). Qed.

Lemma done_state_par st : par (done_state st) = par st.
Proof. unfold done_state. now destruct (negb (err st =? 0)). Qed.

Lemma done_state_exit_code st :
  exit_code (done_state st) = if err st =? 0 then exit_code st else 1.
Proof. unfold done_state. now destruct (err st =? 0). Qed.

Lemma done_state_sink st id :
  sinks (done_state st) id = set_file (sinks st id) None \/
  sinks (done_state st) id = sinks st id /\ id = Ifr.
Proof.
  unfold done_state, closed.
  destruct (negb (err st =? 0)); destruct id; cbn; auto.
Qed.

Lemma error_line_done st : error_line (done_state st) = error_line st.
Proof. unfold error_line. now rewrite done_state_err, done_state_err_msg. Qed.

Lemma stage_not_stderr v ev : stage v ev -> is_stderr ev = false.
Proof.
  unfold stage, stage_event. destruct ev as [| | | |s fmt args| | | | |]; try reflexivity.
  destruct s; try reflexivity. discriminate.
Qed.

Lemma filter_stage_stderr v evs : Forall (stage v) evs -> filter is_stderr evs = [].
Proof.
  intros H. apply filter_none. eapply Forall_impl; [|exact H].
  intros ev. apply stage_not_stderr.
Qed.

Lemma filter_meta_stderr e f st : filter is_stderr (meta_record e f st) = [].
Proof.
  unfold meta_record.
  destruct (active (sinks st Met)), (active (sinks st Dsc)), (active (sinks st Frm));
    reflexivity.
Qed.

(** The calls after [done]: releases and closings, then the diagnostic if
    [err] is not zero. *)
Lemma done_events_split st :
  exists evs0,
    done_events st = evs0 ++ (if negb (err st =? 0) then [error_line st] else []) /\
    filter is_stderr evs0 = [] /\ filter is_stdout evs0 = [] /\
    Forall (fun ev => image_event ev = true) evs0.
Proof.
  unfold done_events, close_events.
  exists ((if filt (loc st) then [SiftDelete] else [])
          ++ (if data (loc st) then [Free Data] else [])
          ++ (if in_ (loc st) then [FcloseIn] else [])
          ++ match file (sinks st Frm) with Some f => [Fclose Frm f] | None => [] end
          ++ match file (sinks st Dsc) with Some f => [Fclose Dsc f] | None => [] end
          ++ match file (sinks st Met) with Some f => [Fclose Met f] | None => [] end
          ++ match file (sinks st Gss) with Some f => [Fclose Gss f] | None => [] end).
  split; [now rewrite <- !app_assoc|].
  destruct (filt (loc st)), (data (loc st)), (in_ (loc st)),
    (file (sinks st Frm)), (file (sinks st Dsc)), (file (sinks st Met)),
    (file (sinks st Gss)); cbn; repeat split; now repeat constructor.
Qed.

Lemma process_image_report e st :
  let '(fl, st', evs) := process_image e st in
  fl = Next tt /\ par st' = par st /\
  if err st' =? 0
  then filter is_stderr evs = [] /\ exit_code st' = exit_code st
  else exit_code st' = 1 /\ filter is_stderr evs = [error_line st'] /\
       exists evs0, evs = evs0 ++ [error_line st'].
Proof.
  destruct (process_image_trace e st) as (fl & st1 & ev1 & _ & -> & Hp & Hc & H).
  split; [reflexivity|]. split; [now rewrite done_state_par|].
  rewrite done_state_err, done_state_exit_code, error_line_done.
  destruct (done_events_split st1) as (evd & -> & Hsd & _ & _).
  assert (Hb : filter is_stderr ev1 = []).
  { destruct H as [(_ & ev0 & -> & H0) | (_ & H1)].
    - rewrite filter_app, (filter_stage_stderr _ _ H0). apply filter_meta_stderr.
    - apply (filter_stage_stderr _ _ H1). }
  rewrite !filter_app, Hb, Hsd.
  destruct (err st1 =? 0); cbn [negb app].
  - split; [reflexivity | exact Hc].
  - split; [reflexivity|]. split; [reflexivity|].
    exists (ev1 ++ evd). now rewrite <- app_assoc.
Qed.

(** X6.  The processing of an image always falls through to the next image.
    If it ends with [err] zero it writes nothing on the error stream and
    leaves the exit code as it was; otherwise its last call prints the one
    diagnostic of the image, with [err_msg] and [err], and the exit code
    becomes 1. *)
Theorem image_error_reported_once (e : image_env) (st : state) :
  let '(fl, st', evs) := process_image e st in
  fl = Next tt /\
  if err st' =? 0
  then filter is_stderr evs = [] /\ exit_code st' = exit_code st
  else exit_code st' = 1 /\ filter is_stderr evs = [error_line st'] /\
       last evs (error_line st') = error_line st' /\ evs <> [].
Proof.
  pose proof (process_image_report e st) as H.
  destruct (process_image e st) as [[fl st'] evs].
  destruct H as (Hfl & _ & H). split; [exact Hfl|].
  destruct (err st' =? 0); [exact H|].
  destruct H as (Hc & Hf & evs0 & ->).
  split; [exact Hc|]. split; [exact Hf|]. split; [apply last_last|].
  now destruct evs0.
Qed.

Lemma print_sinks_run st :
  exists evs, print_sinks st = (Next tt, st, evs) /\ filter is_stderr evs = [].
Proof.
  unfold print_sinks, PRNFO, bind, get, printf, call, when.
  destruct (1 <? verbose (par st)); eexists; split; reflexivity.
Qed.

Lemma batch_report images :
  forall st,
    let '(fl, st', evs) := for_each images process_image st in
    fl = Next tt /\ par st' = par st /\
    List.length (filter is_stderr evs)
    = List.length (filter (fun z => negb (z =? 0)) (batch_errors images st)) /\
    exit_code st'
    = if forallb (fun z => z =? 0) (batch_errors images st) then exit_code st else 1.
Proof.
  induction images as [|e rest IH]; intros st; cbn [for_each batch_errors].
  - repeat split; reflexivity.
  - unfold bind. pose proof (process_image_report e st) as H1.
    destruct (process_image e st) as [[fl1 st1] ev1].
    destruct H1 as (-> & Hp1 & H1).
    specialize (IH st1).
    destruct (for_each rest process_image st1) as [[fl2 st2] ev2].
    destruct IH as (-> & Hp2 & Hn2 & Hc2).
    split; [reflexivity|]. split; [congruence|].
    rewrite filter_app, length_app, Hn2, Hc2. cbn [filter forallb].
    destruct (err st1 =? 0); cbn [negb andb].
    + destruct H1 as [-> ->]. split; reflexivity.
    + destruct H1 as (-> & -> & _). split; [reflexivity|].
      now destruct (forallb _ _).
Qed.

(** X7.  When the options raise no error, [main] runs the image loop to its
    end, whatever happens to the images, and returns: the status is 0 if
    every image ended with [err] zero and 1 otherwise, and the error stream
    holds one line for each image that did not. *)
Theorem batch_exit_status (argv0 : string) (items : list opt_item)
    (images : list image_env) (st1 : state) (ev1 : list event) :
  parse_options argv0 items init_state = (Next tt, st1, ev1) ->
  err st1 = 0 ->
  exists st' evs,
    main argv0 items images
    = (Next (if forallb (fun z => z =? 0) (batch_errors images st1) then 0 else 1),
       st', evs) /\
    List.length (filter is_stderr evs)
    = List.length (filter (fun z => negb (z =? 0)) (batch_errors images st1)).
Proof.
  intros Hrun Hz.
  pose proof (parse_options_effect argv0 items init_state (err_ok_zero K)) as Hp.
  rewrite Hrun in Hp. destruct Hp as (_ & Hc1 & Hs1 & _).
  destruct (print_sinks_run st1) as (ev2 & Hpr & Hs2).
  pose proof (batch_report images st1) as Hb.
  unfold main.
  rewrite (bind_next _ _ _ _ _ _ Hrun).
  assert (Hck : check_parsing_errors argv0 st1 = (Next tt, st1, [])).
  { unfold check_parsing_errors, bind, get. now rewrite (neqb_false _ Hz). }
  rewrite (bind_next _ _ _ _ _ _ Hck).
  rewrite (bind_next _ _ _ _ _ _ Hpr).
  unfold bind at 1.
  destruct (for_each images process_image st1) as [[fl st'] ev3].
  destruct Hb as (-> & _ & Hn & Hc).
  unfold bind, get, ret. cbn [app].
  exists st', (ev1 ++ ev2 ++ ev3 ++ []). split.
  - rewrite Hc, Hc1. reflexivity.
  - rewrite app_nil_r, !filter_app, !length_app, Hs2, Hn.
    rewrite (filter_none is_stderr ev1) by exact Hs1. reflexivity.
Qed.

Lemma stage_image_event v ev : stage v ev -> image_event ev = true.
Proof.
  unfold stage, image_event, stage_event. intros H.
  destruct ev as [| | | |s fmt args| | | | |];
    try reflexivity; try (rewrite H; reflexivity); try discriminate.
  destruct s; [reflexivity | discriminate | now rewrite H].
Qed.

Lemma meta_record_image_event e f st :
  Forall (fun ev => image_event ev = true) (meta_record e f st).
Proof.
  unfold meta_record.
  destruct (active (sinks st Met)), (active (sinks st Dsc)), (active (sinks st Frm));
    now repeat constructor.
Qed.

Lemma process_image_events e st :
  let '(_, _, evs) := process_image e st in
  Forall (fun ev => image_event ev = true) evs.
Proof.
  destruct (process_image_trace e st) as (fl & st1 & ev1 & _ & -> & _ & _ & H).
  destruct (done_events_split st1) as (evd & -> & _ & _ & Hd).
  assert (Hs : forall evs, Forall (stage (verbose (par st))) evs ->
                           Forall (fun ev => image_event ev = true) evs).
  { intros evs Hev. eapply Forall_impl; [|exact Hev]. apply stage_image_event. }
  apply Forall_app_intro; [|apply Forall_app_intro; [exact Hd|]].
  - destruct H as [(_ & ev0 & -> & H0) | (_ & H1)]; [|now apply Hs].
    apply Forall_app_intro; [now apply Hs | apply meta_record_image_event].
  - destruct (negb (err st1 =? 0)); now repeat constructor.
Qed.

Lemma batch_events images :
  forall st,
    let '(_, _, evs) := for_each images process_image st in
    Forall (fun ev => image_event ev = true) evs.
Proof.
  induction images as [|e rest IH]; intros st; cbn [for_each].
  - constructor.
  - unfold bind. pose proof (process_image_events e st) as H1.
    pose proof (process_image_report e st) as H2.
    destruct (process_image e st) as [[fl1 st1] ev1]. destruct H2 as (-> & _).
    specialize (IH st1).
    destruct (for_each rest process_image st1) as [[fl2 st2] ev2].
    now apply Forall_app_intro.
Qed.

(** X8.  The image loop never releases the converted samples: no call of
    it is [free (fdata)], although each image that reaches the allocation
    takes that buffer; the only buffers released are the image data and the
    buffer of a snapshot. *)
Theorem converted_samples_never_freed (images : list image_env) (st : state) :
  let '(_, _, evs) := for_each images process_image st in
  Forall (fun ev => forall b, ev = Free b -> b = Data \/ b = GssBuffer) evs.
Proof.
  pose proof (batch_events images st) as H.
  destruct (for_each images process_image st) as [[fl st'] evs].
  eapply Forall_impl; [|exact H].
  intros ev Hev b ->. destruct b; [now left | discriminate | now right].
Qed.

(** X9.  The sink of [--read-frames] is parsed and never used: whatever its
    flag, the image loop performs no call that opens it, writes to it,
    reports it or closes it. *)
Theorem read_frames_sink_unused (images : list image_env) (st : state) :
  let '(_, _, evs) := for_each images process_image st in
  Forall (fun ev => uses Ifr ev = false /\ forall f, ev <> Fclose Ifr f) evs.
Proof.
  pose proof (batch_events images st) as H.
  destruct (for_each images process_image st) as [[fl st'] evs].
  eapply Forall_impl; [|exact H].
  intros ev Hev. split.
  - destruct ev as [| |id q mode ok| |s fmt args|b ok| |id f pim buffer rc| |];
      try reflexivity.
    + destruct id; try reflexivity. discriminate.
    + destruct s as [| |id f]; try reflexivity. destruct id; try reflexivity.
      discriminate.
    + now destruct b.
    + destruct id; try reflexivity; discriminate.
  - intros f ->. discriminate.
Qed.

Lemma stage_quiet ev : stage 0 ev -> is_stdout ev = false.
Proof.
  unfold stage, stage_event. destruct ev as [| | | |s fmt args| | | | |]; try reflexivity.
  destruct s; try reflexivity. discriminate.
Qed.

Lemma process_image_quiet e st :
  verbose (par st) = 0 ->
  let '(_, _, evs) := process_image e st in filter is_stdout evs = [].
Proof.
  intros Hv.
  destruct (process_image_trace e st) as (fl & st1 & ev1 & _ & -> & _ & _ & H).
  rewrite Hv in H.
  destruct (done_events_split st1) as (evd & -> & _ & Hd & _).
  assert (Hs : forall evs, Forall (stage 0) evs -> filter is_stdout evs = []).
  { intros evs Hev. apply filter_none. eapply Forall_impl; [|exact Hev].
    apply stage_quiet. }
  rewrite !filter_app, Hd.
  assert (Hb : filter is_stdout ev1 = []).
  { destruct H as [(_ & ev0 & -> & H0) | (_ & H1)]; [|now apply Hs].
    rewrite filter_app, (Hs _ H0). unfold meta_events, meta_record.
    destruct (active (sinks st1 Met)), (active (sinks st1 Dsc)),
      (active (sinks st1 Frm)); reflexivity. }
  rewrite Hb. now destruct (negb (err st1 =? 0)).
Qed.

(** X10.  With [verbose] zero the image loop prints nothing on the standard
    output, whatever the images and the sinks are. *)
Theorem quiet_run_prints_nothing (images : list image_env) (st : state) :
  verbose (par st) = 0 ->
  let '(_, _, evs) := for_each images process_image st in
  filter is_stdout evs = [].
Proof.
  revert st. induction images as [|e rest IH]; intros st Hv; cbn [for_each].
  - reflexivity.
  - unfold bind. pose proof (process_image_quiet e st Hv) as H1.
    pose proof (process_image_report e st) as H2.
    destruct (process_image e st) as [[fl1 st1] ev1]. destruct H2 as (-> & Hp & _).
    assert (Hv1 : verbose (par st1) = 0) by now rewrite Hp.
    specialize (IH st1 Hv1).
    destruct (for_each rest process_image st1) as [[fl2 st2] ev2].
    now rewrite filter_app, H1, IH.
Qed.

Lemma stage_not_meta v ev : stage v ev -> writes Met ev = false.
Proof.
  unfold stage, stage_event.
  destruct ev as [| | | |s fmt args| | |id f pim buffer rc| |]; try reflexivity.
  - destruct s as [| |id f]; try reflexivity. now destruct id.
  - now destruct id.
Qed.

Lemma done_events_writes id st : filter (writes id) (done_events st) = [].
Proof.
  unfold done_events, close_events.
  destruct (filt (loc st)), (data (loc st)), (in_ (loc st)),
    (file (sinks st Frm)), (file (sinks st Dsc)), (file (sinks st Met)),
    (file (sinks st Gss)), (negb (err st =? 0)); reflexivity.
Qed.

Lemma meta_record_writes e f st :
  filter (writes Met) (meta_record e f st) = meta_record e f st.
Proof.
  unfold meta_record.
  destruct (active (sinks st Met)), (active (sinks st Dsc)), (active (sinks st Frm));
    reflexivity.
Qed.

Lemma meta_record_done e f st : meta_record e f (done_state st) = meta_record e f st.
Proof.
  unfold meta_record.
  destruct (done_state_sink st Met) as [-> | [_ ?]]; [|discriminate].
  destruct (done_state_sink st Dsc) as [-> | [_ ?]]; [|discriminate].
  destruct (done_state_sink st Frm) as [-> | [_ ?]]; [|discriminate].
  reflexivity.
Qed.

(** X11.  The meta record is written only for an image that ends with [err]
    zero, and then it is all that the meta sink receives: the opening line,
    the name of the input, the names of the descriptors and frames files if
    these sinks are active, and the closing line.  An image that fails
    leaves the meta file empty. *)
Theorem meta_record_on_success (e : image_env) (st : state) :
  let '(_, st', evs) := process_image e st in
  exists f,
    filter (writes Met) evs = if err st' =? 0 then meta_record e f st' else [].
Proof.
  destruct (process_image_trace e st) as (fl & st1 & ev1 & _ & -> & _ & _ & H).
  exists (file (sinks st1 Met)).
  rewrite done_state_err, meta_record_done, filter_app, done_events_writes, app_nil_r.
  assert (Hs : forall evs, Forall (stage (verbose (par st))) evs ->
                           filter (writes Met) evs = []).
  { intros evs Hev. apply filter_none. eapply Forall_impl; [|exact Hev].
    apply stage_not_meta. }
  destruct H as [(Hz & ev0 & -> & H0) | (Hnz & H1)].
  - rewrite Hz. cbn [Z.eqb]. rewrite filter_app, (Hs _ H0). apply meta_record_writes.
  - apply Z.eqb_neq in Hnz. rewrite Hnz. now apply Hs.
Qed.

(** ** Images that fail *)

Lemma set_loc_run l st : set_loc l st = (Next tt, with_loc l st, []).
Proof. reflexivity. Qed.

Lemma process_image_goto e st st1 ev1 :
  image_body e st = (GotoDone, st1, ev1) ->
  process_image e st = (Next tt, done_state st1, ev1 ++ done_events st1).
Proof.
  intros H. unfold process_image, at_done. now rewrite H, done_block_run.
Qed.

Lemma done_events_failed st :
  (forall id, file (sinks st id) = None) ->
  loc st = mkLoc false false (fdata (loc st)) false ->
  err st <> 0 ->
  done_events st = [error_line st].
Proof.
  intros Hq Hl Hz. unfold done_events, close_events.
  rewrite !Hq, Hl, (neqb_true _ Hz). reflexivity.
Qed.

(** X12.  An image whose base name does not fit the buffer of 1024
    characters is given up before anything is opened: the only call is the
    diagnostic, with [VL_ERR_OVERFLOW] and the name of the image, and the
    exit code becomes 1. *)
Theorem basename_overflow_skips_image (e : image_env) (st : state) :
  sizeof_basename <= strlen (img_basename e) ->
  quiescent st ->
  exists st',
    process_image e st = (Next tt, st', [error_line st']) /\
    err st' = VL_ERR_OVERFLOW K /\
    err_msg st'
    = truncate sizeof_err_msg ("Basename of '" +++ img_name e +++ "' is too long") /\
    exit_code st' = 1.
Proof.
  intros Hov Hq. apply Z.leb_le in Hov.
  set (s1 := with_err (VL_ERR_OVERFLOW K)
               (with_err_msg
                  (truncate sizeof_err_msg
                            ("Basename of '" +++ img_name e +++ "' is too long"))
                  (with_loc (mkLoc false false false false) st))).
  assert (Hb : image_body e st = (GotoDone, s1, [])).
  { unfold image_body. rewrite (bind_next _ _ _ _ _ _ (set_loc_run _ st)).
    unfold determine_files. cbv zeta. unfold bind, set_err, get.
    rewrite Hov. reflexivity. }
  exists (done_state s1).
  rewrite (process_image_goto _ _ _ _ Hb), error_line_done.
  rewrite done_events_failed;
    [| exact Hq | reflexivity | apply err_overflow_nz].
  split; [reflexivity|].
  rewrite done_state_err, done_state_err_msg, done_state_exit_code.
  split; [reflexivity|]. split; [reflexivity|].
  cbn [err s1 with_err]. now rewrite (proj2 (Z.eqb_neq _ _) (err_overflow_nz K)).
Qed.

(** X13.  An image whose file cannot be opened for reading is given up
    before any output file is created: after what [verbose] makes the loop
    print, the only calls are the failed [fopen] and the diagnostic, with
    [VL_ERR_IO] and the name of the image, and the exit code becomes 1. *)
Theorem unreadable_input_skips_image (e : image_env) (st : state) :
  strlen (img_basename e) < sizeof_basename ->
  fopen_in_ok e = false ->
  quiescent st ->
  exists st',
    process_image e st
    = (Next tt, st',
       image_banner e st ++ [FopenIn (img_name e) false; error_line st']) /\
    err st' = VL_ERR_IO K /\
    err_msg st'
    = truncate sizeof_err_msg ("Could not open '" +++ img_name e +++ "' for reading.") /\
    exit_code st' = 1.
Proof.
  intros Hfit Hin Hq. apply Z.leb_gt in Hfit.
  set (s1 := with_err_msg
               (truncate sizeof_err_msg
                         ("Could not open '" +++ img_name e +++ "' for reading."))
               (with_err (VL_ERR_IO K) (with_loc (mkLoc false false false false) st))).
  assert (Hb : image_body e st
               = (GotoDone, s1, image_banner e st ++ [FopenIn (img_name e) false])).
  { unfold image_body. rewrite (bind_next _ _ _ _ _ _ (set_loc_run _ st)).
    unfold determine_files, image_banner. cbv zeta.
    unfold bind, set_err, get, set_in, set_loc, call, when, printf, ret.
    rewrite Hfit, Hin. cbn [negb Z.eqb err with_err par with_loc].
    destruct (negb (verbose (par st) =? 0)), (1 <? verbose (par st)); reflexivity. }
  exists (done_state s1).
  rewrite (process_image_goto _ _ _ _ Hb), error_line_done.
  rewrite done_events_failed;
    [| exact Hq | reflexivity | apply err_io_nz].
  split; [now rewrite <- app_assoc|].
  rewrite done_state_err, done_state_err_msg, done_state_exit_code.
  split; [reflexivity|]. split; [reflexivity|].
  cbn [err s1 with_err with_err_msg]. now rewrite (proj2 (Z.eqb_neq _ _) (err_io_nz K)).
Qed.

Lemma image_body_after_files e st b s1 ev1 :
  determine_files e (with_loc (mkLoc false false false false) st) = (Next b, s1, ev1) ->
  image_body e st
  = let '(r, s2, ev2) :=
      (read_image_data e ;; new_filter e ;; octave_loop e b (octaves e) ;; meta_file e) s1 in
    (r, s2, ev1 ++ ev2).
Proof.
  intros H. unfold image_body.
  rewrite (bind_next _ _ _ _ _ _ (set_loc_run _ st)).
  rewrite (bind_next _ _ _ _ _ _ H). cbn [app].
  now destruct ((read_image_data e ;; _) s1) as [[r s2] ev2].
Qed.

(** X14.  Once the files of an image are determined, a non-zero status of
    [vl_pgm_extract_head] gives up the image with [VL_ERR_IO], whatever the
    status was, before any memory is taken; a non-zero status of
    [vl_pgm_extract_data] gives it up with that very status, after both
    buffers have been allocated.  In both cases the statements after [done]
    follow at once. *)
Theorem pgm_status_reporting (e : image_env) (st : state) (b : string)
    (s1 : state) (ev1 : list event) :
  determine_files e (with_loc (mkLoc false false false false) st) = (Next b, s1, ev1) ->
  (pgm_head_rc e <> 0 ->
   let s2 := failed_read (VL_ERR_IO K) "PGM header corrputed."
                         (data (loc s1)) (fdata (loc s1)) s1 in
   process_image e st = (Next tt, done_state s2, ev1 ++ done_events s2)) /\
  (pgm_head_rc e = 0 -> malloc_data_ok e = true -> malloc_fdata_ok e = true ->
   pgm_data_rc e <> 0 ->
   let s2 := failed_read (pgm_data_rc e) "PGM body corrputed." true true s1 in
   process_image e st
   = (Next tt, done_state s2,
      ev1 ++ image_size_line e s1 ++ [Malloc Data true; Malloc Fdata true]
          ++ done_events s2)).
Proof.
  intros Hdet. split.
  - intros Hrc. cbv zeta. apply neqb_true in Hrc.
    set (s2 := failed_read _ _ _ _ s1).
    enough (Hb : image_body e st = (GotoDone, s2, ev1 ++ []))
      by (rewrite app_nil_r in Hb; apply (process_image_goto _ _ _ _ Hb)).
    rewrite (image_body_after_files _ _ _ _ _ Hdet).
    unfold read_image_data, bind, set_err, set_err_msg, goto_done.
    rewrite Hrc. destruct s1 as [sk p er m c [i d f fl]]. reflexivity.
  - intros Hh Hd Hf Hrc. cbv zeta. apply neqb_true in Hrc.
    set (s2 := failed_read _ _ _ _ s1).
    enough (Hb : image_body e st
                 = (GotoDone, s2,
                    ev1 ++ image_size_line e s1 ++ [Malloc Data true; Malloc Fdata true]))
      by (rewrite (process_image_goto _ _ _ _ Hb); now rewrite <- !app_assoc).
    rewrite (image_body_after_files _ _ _ _ _ Hdet).
    unfold read_image_data, image_size_line, bind, set_err, set_err_msg, goto_done,
      get, set_data, set_fdata, set_loc, call, when, printf, ret.
    rewrite Hh, Hd, Hf, Hrc. cbn [negb Z.eqb orb par with_err].
    destruct (negb (verbose (par s1) =? 0)); reflexivity.
Qed.

Lemma done_events_free st b :
  In (Free b) (done_events st) <-> b = Data /\ data (loc st) = true.
Proof.
  assert (Hc : forall id, ~ In (Free b) (close_events id st)).
  { intros id. unfold close_events. destruct (file (sinks st id)); cbn; intuition discriminate. }
  unfold done_events. rewrite !in_app_iff.
  pose proof (Hc Frm). pose proof (Hc Dsc). pose proof (Hc Met). pose proof (Hc Gss).
  assert (H3 : ~ In (Free b) (if filt (loc st) then [SiftDelete] else []))
    by (destruct (filt (loc st)); cbn; intuition discriminate).
  assert (H4 : ~ In (Free b) (if in_ (loc st) then [FcloseIn] else []))
    by (destruct (in_ (loc st)); cbn; intuition discriminate).
  assert (H5 : ~ In (Free b) (if negb (err st =? 0) then [error_line st] else []))
    by (destruct (negb (err st =? 0)); cbn; unfold error_line; intuition discriminate).
  assert (H6 : In (Free b) (if data (loc st) then [Free Data] else [])
               <-> b = Data /\ data (loc st) = true).
  { destruct (data (loc st)); cbn; [|intuition discriminate].
    split; [intros [H6 | []]; now inversion H6 | intros [-> _]; now left]. }
  tauto.
Qed.

(** X15.  Both buffers of an image are requested before either result is
    looked at; if one of them is missing the image is given up with
    [VL_ERR_ALLOC].  The statements after [done] then release the image data
    if that allocation had succeeded, and never the converted samples. *)
Theorem allocation_failure_skips_image (e : image_env) (st : state) (b : string)
    (s1 : state) (ev1 : list event) :
  determine_files e (with_loc (mkLoc false false false false) st) = (Next b, s1, ev1) ->
  pgm_head_rc e = 0 ->
  malloc_data_ok e = false \/ malloc_fdata_ok e = false ->
  let s2 := failed_read (VL_ERR_ALLOC K) "Could not allocate enough memory."
                        (malloc_data_ok e) (malloc_fdata_ok e) s1 in
  process_image e st
  = (Next tt, done_state s2,
     ev1 ++ image_size_line e s1
         ++ [Malloc Data (malloc_data_ok e); Malloc Fdata (malloc_fdata_ok e)]
         ++ done_events s2) /\
  (In (Free Data) (done_events s2) <-> malloc_data_ok e = true) /\
  ~ In (Free Fdata) (done_events s2).
Proof.
  intros Hdet Hh Hm. cbv zeta.
  set (s2 := failed_read _ _ _ _ s1).
  assert (Hor : negb (malloc_data_ok e) || negb (malloc_fdata_ok e) = true).
  { destruct Hm as [-> | ->]; [reflexivity | apply orb_true_r]. }
  split; [|split].
  - enough (Hb : image_body e st
                 = (GotoDone, s2,
                    ev1 ++ image_size_line e s1
                        ++ [Malloc Data (malloc_data_ok e);
                            Malloc Fdata (malloc_fdata_ok e)]))
      by (rewrite (process_image_goto _ _ _ _ Hb); now rewrite <- !app_assoc).
    rewrite (image_body_after_files _ _ _ _ _ Hdet).
    unfold read_image_data, image_size_line, bind, set_err, set_err_msg, goto_done,
      get, set_data, set_fdata, set_loc, call, when, printf, ret.
    rewrite Hh, Hor. cbn [negb Z.eqb par with_err].
    destruct (negb (verbose (par s1) =? 0)); reflexivity.
  - rewrite done_events_free. cbn [loc s2 failed_read with_err_msg with_err with_loc data].
    split; [now intros [_ H] | now split].
  - rewrite done_events_free. now intros [H _].
Qed.

(** ** A snapshot that fails *)

(** [n0] levels are written, and the next one fails. *)
Lemma save_gss_levels_stop fo oc id b v n0 :
  forall m s e fm,
    active fm = true ->
    (forall k, (k < n0)%nat ->
       let s' := s + Z.of_nat k in
       let p := gss_level_path (pattern fm) b (o_cur oc) s' in
       strlen b + strlen (gss_suffix (o_cur oc) s') < sizeof_tmp /\
       strlen p < name_size K /\ fo p "w" = true /\ pgm_insert_rc oc p = 0) ->
    let s0 := s + Z.of_nat n0 in
    let p0 := gss_level_path (pattern fm) b (o_cur oc) s0 in
    let rc := if fo p0 "w" then pgm_insert_rc oc p0 else VL_ERR_IO K in
    strlen b + strlen (gss_suffix (o_cur oc) s0) < sizeof_tmp ->
    strlen p0 < name_size K ->
    fo p0 "w" = false \/ pgm_insert_rc oc p0 <> 0 ->
    exists fm',
      save_gss_levels fo oc id b v
        (mkPgm (octave_width oc) (octave_height oc) 255 1) (n0 + S m) s e fm
      = (Some rc, Some rc, fm',
         flat_map (gss_level_events id (pattern fm) b v oc)
                  (map (fun k => s + Z.of_nat k) (seq 0 n0))
         ++ gss_failed_level_events id (pattern fm) b oc s0 (fo p0 "w")
                                    (pgm_insert_rc oc p0))
      /\ file fm' = (if fo p0 "w" then Some p0 else None).
Proof.
  induction n0 as [|n0 IH]; intros m s e fm Ha Hok s0 p0 rc Hq0 Hp0 Hfail.
  - subst s0 p0 rc. rewrite Z.add_0_r in *. cbn [Nat.add save_gss_levels seq map flat_map app].
    unfold vl_file_meta_open. rewrite Ha. cbn [negb].
    rewrite (truncate_fits (sizeof_tmp - strlen b)) by lia.
    fold (gss_level_path (pattern fm) b (o_cur oc) s).
    set (p := gss_level_path (pattern fm) b (o_cur oc) s) in *.
    replace (name_size K <=? strlen p) with false by (symmetry; apply Z.leb_gt; lia).
    rewrite (truncate_fits (name_size K)) by lia.
    cbn [name set_name set_file file].
    unfold gss_failed_level_events. fold p.
    destruct (fo p "w") eqn:Hfo.
    + destruct Hfail as [Hf | Hrc]; [discriminate|].
      rewrite ok_eqb. cbn [negb name set_name set_file file].
      rewrite (neqb_true _ Hrc). eexists. split; reflexivity.
    + rewrite io_eqb. cbn [negb]. eexists. split; reflexivity.
  - destruct (Hok 0%nat ltac:(lia)) as (Hq & Hp & Hfo & Hrc).
    cbn zeta in Hq, Hp, Hfo, Hrc. rewrite Z.add_0_r in *.
    cbn [Nat.add save_gss_levels].
    unfold vl_file_meta_open. rewrite Ha. cbn [negb].
    rewrite (truncate_fits (sizeof_tmp - strlen b)) by lia.
    fold (gss_level_path (pattern fm) b (o_cur oc) s).
    set (p := gss_level_path (pattern fm) b (o_cur oc) s) in *.
    replace (name_size K <=? strlen p) with false by (symmetry; apply Z.leb_gt; lia).
    rewrite (truncate_fits (name_size K)) by lia.
    cbn [name set_name set_file file]. rewrite Hfo, err_ok_zero.
    rewrite Z.eqb_refl. cbn [negb name set_name set_file file].
    rewrite Hrc, Z.eqb_refl. cbn [negb].
    unfold vl_file_meta_close. cbn [name set_name set_file file].
    set (fm2 := set_file (set_file (set_name fm p) (Some p)) None).
    destruct (IH m (s + 1) (Some 0) fm2) as (fm' & Heq & Hfile).
    { exact Ha. }
    { intros k Hk. specialize (Hok (S k) ltac:(lia)). cbn zeta in Hok |- *.
      replace (s + 1 + Z.of_nat k) with (s + Z.of_nat (S k)) by lia. exact Hok. }
    { replace (s + 1 + Z.of_nat n0) with s0 by (subst s0; lia). exact Hq0. }
    { replace (s + 1 + Z.of_nat n0) with s0 by (subst s0; lia). exact Hp0. }
    { replace (s + 1 + Z.of_nat n0) with s0 by (subst s0; lia). exact Hfail. }
    replace (s + 1 + Z.of_nat n0) with s0 in Heq, Hfile by (subst s0; lia).
    change (pattern fm2) with (pattern fm) in Heq, Hfile. fold p0 in Heq, Hfile.
    rewrite Heq. exists fm'. split; [|exact Hfile].
    fold rc. cbn [seq map flat_map]. rewrite Z.add_0_r.
    rewrite <- seq_shift, map_map.
    assert (Hm : map (fun k => s + 1 + Z.of_nat k) (seq 0 n0)
                 = map (fun k => s + Z.of_nat (S k)) (seq 0 n0)).
    { apply map_ext. intros k. lia. }
    rewrite Hm. f_equal. unfold gss_level_events at 2. fold p. unfold narrowed_plane.
    cbv zeta. rewrite <- !app_assoc. reflexivity.
Qed.

(** X16.  A snapshot stops at the first level whose file cannot be opened or
    written: the levels before it have been written and stay on disk, no
    later level is attempted, and the statements after [save_gss_quit]
    release the buffer and close the file if it was opened.  The local [err]
    holds [VL_ERR_IO] or the status of the write, and the function still
    ends without a [return]. *)
Theorem snapshot_stops_at_first_failure (fo : string -> string -> bool) (S : Z)
    (oc : octave_env) (id : sink_id) (fm : VlFileMeta) (b : string) (v s0 : Z) :
  active fm = true ->
  file fm = None ->
  gss_malloc_ok oc = true ->
  strlen b < sizeof_tmp ->
  0 <= s0 < S ->
  (forall s, 0 <= s < s0 ->
     let p := gss_level_path (pattern fm) b (o_cur oc) s in
     strlen b + strlen (gss_suffix (o_cur oc) s) < sizeof_tmp /\
     strlen p < name_size K /\ fo p "w" = true /\ pgm_insert_rc oc p = 0) ->
  let p0 := gss_level_path (pattern fm) b (o_cur oc) s0 in
  strlen b + strlen (gss_suffix (o_cur oc) s0) < sizeof_tmp ->
  strlen p0 < name_size K ->
  fo p0 "w" = false \/ pgm_insert_rc oc p0 <> 0 ->
  let r := save_gss fo S oc id fm b v in
  gss_events r
  = Malloc GssBuffer true
    :: flat_map (gss_level_events id (pattern fm) b v oc) (levels s0)
    ++ gss_failed_level_events id (pattern fm) b oc s0 (fo p0 "w") (pgm_insert_rc oc p0)
    ++ Free GssBuffer :: (if fo p0 "w" then [Fclose id p0] else []) /\
  gss_err r = Some (if fo p0 "w" then pgm_insert_rc oc p0 else VL_ERR_IO K) /\
  gss_returned r = None /\
  file (gss_fm r) = None.
Proof.
  intros Ha Hf Hm Hb Hs0 Hok p0 Hq0 Hp0 Hfail r.
  destruct (save_gss_levels_stop fo oc id b v (Z.to_nat s0)
              (Z.to_nat S - Z.to_nat s0 - 1) 0 None fm Ha) as (fm' & Heq & Hfile).
  { intros k Hk. cbn zeta. rewrite Z.add_0_l. apply Hok. lia. }
  { rewrite Z.add_0_l, Z2Nat.id by lia. exact Hq0. }
  { rewrite Z.add_0_l, Z2Nat.id by lia. exact Hp0. }
  { rewrite Z.add_0_l, Z2Nat.id by lia. exact Hfail. }
  rewrite Z.add_0_l, Z2Nat.id in Heq, Hfile by lia. fold p0 in Heq, Hfile.
  replace (Z.to_nat s0 + Datatypes.S (Z.to_nat S - Z.to_nat s0 - 1))%nat
    with (Z.to_nat S) in Heq by lia.
  assert (Hm0 : map (fun k => 0 + Z.of_nat k) (seq 0 (Z.to_nat s0)) = levels s0).
  { unfold levels. apply map_ext. intros k. lia. }
  rewrite Hm0 in Heq.
  subst r. unfold save_gss. rewrite Ha, Hm. cbn [negb].
  replace (sizeof_tmp <=? strlen b) with false by (symmetry; apply Z.leb_gt; lia).
  rewrite Heq. unfold vl_file_meta_close.
  destruct (fo p0 "w"); rewrite Hfile;
    cbn [gss_events gss_fm gss_err gss_returned file set_file];
    rewrite <- ?app_assoc; repeat split; try reflexivity; exact Hfile.
Qed.

(** ** The thresholds *)

Lemma it_bind {A B} (m : M A) (f : A -> M B) :
  ignores_thresholds m -> (forall a, ignores_thresholds (f a)) ->
  ignores_thresholds (bind m f).
Proof.
  intros Hm Hf et pt st. unfold bind. rewrite Hm.
  destruct (m st) as [[fl st1] ev1]. destruct fl as [a| | |]; try reflexivity.
  rewrite Hf. now destruct (f a st1) as [[r st2] ev2].
Qed.

Lemma it_get {B} (f : state -> M B) :
  (forall st, ignores_thresholds (f st)) ->
  (forall et pt st, f (with_thresholds et pt st) = f st) ->
  ignores_thresholds (bind get f).
Proof.
  intros Hf He et pt st. unfold bind, get. rewrite He, Hf.
  now destruct (f st st) as [[r st2] ev2].
Qed.

Lemma it_if {A} (b : bool) (m1 m2 : M A) :
  ignores_thresholds m1 -> ignores_thresholds m2 ->
  ignores_thresholds (if b then m1 else m2).
Proof. now destruct b. Qed.

Lemma it_when (b : bool) (m : M unit) :
  ignores_thresholds m -> ignores_thresholds (when b m).
Proof. destruct b; [auto | intros _ et pt st; reflexivity]. Qed.

Lemma it_for_each {A} (l : list A) (body : A -> M unit) :
  (forall a, ignores_thresholds (body a)) -> ignores_thresholds (for_each l body).
Proof.
  intros H. induction l as [|a l IH]; cbn [for_each].
  - intros et pt st. reflexivity.
  - apply it_bind; [apply H | intros _; exact IH].
Qed.

Lemma it_at_done (body after : M unit) :
  ignores_thresholds body -> ignores_thresholds after ->
  ignores_thresholds (at_done body after).
Proof.
  intros Hb Ha et pt st. unfold at_done. rewrite Hb.
  destruct (body st) as [[fl st1] ev1].
  destruct fl as [a| | |]; try reflexivity;
    rewrite Ha; now destruct (after st1) as [[r st2] ev2].
Qed.

Ltac it_step :=
  lazymatch goal with
  | |- ignores_thresholds (bind get _) => apply it_get; [intros ? | reflexivity]
  | |- ignores_thresholds (bind _ _) => apply it_bind; [|intros ?]
  | |- ignores_thresholds (if _ then _ else _) => apply it_if
  | |- ignores_thresholds (when _ _) => apply it_when
  | |- ignores_thresholds (for_each _ _) => apply it_for_each; intros ?
  | |- ignores_thresholds (match ?x with _ => _ end) => destruct x
  | |- ignores_thresholds _ => intros ? ? ?; reflexivity
  end.

Lemma it_emit_keys ks : ignores_thresholds (emit_keys ks).
Proof.
  unfold emit_keys. destruct ks as [|k0 rest]; [intros et pt st; reflexivity|].
  apply it_for_each. intros k. apply it_for_each. intros o.
  unfold emit_orientation, fprintf. repeat it_step.
Qed.

Lemma it_optionally_save_gss e b oc : ignores_thresholds (optionally_save_gss e b oc).
Proof. unfold optionally_save_gss. cbv zeta. repeat it_step. Qed.

Lemma it_octave_loop e b steps : ignores_thresholds (octave_loop e b steps).
Proof.
  induction steps as [|[rc oc] rest IH]; cbn [octave_loop].
  - repeat it_step.
  - apply it_bind; [intros et pt st; reflexivity | intros _].
    apply it_if; [intros et pt st; reflexivity|].
    apply it_get; [intros st | reflexivity].
    apply it_bind; [repeat it_step | intros _].
    apply it_bind; [apply it_optionally_save_gss | intros _].
    apply it_bind; [repeat it_step | intros _].
    apply it_bind; [apply it_emit_keys | intros _]. exact IH.
Qed.

Lemma it_process_image e : ignores_thresholds (process_image e).
Proof.
  unfold process_image. apply it_at_done.
  - unfold image_body.
    apply it_bind; [intros et pt st; reflexivity | intros _].
    apply it_bind; [| intros b].
    { unfold determine_files, file_meta_open, WERR, set_in. cbv zeta. repeat it_step. }
    apply it_bind; [| intros _].
    { unfold read_image_data, set_data, set_fdata. repeat it_step. }
    apply it_bind; [| intros _].
    { unfold new_filter, set_filt. repeat it_step. }
    apply it_bind; [apply it_octave_loop | intros _].
    unfold meta_file, fprintf. repeat it_step.
  - unfold done_block, release_filter, release_image_data, close_input,
      file_meta_close, print_error, set_filt, set_data, set_in.
    repeat it_step.
Qed.

(** X18.  The thresholds that [--edges-tresh] and [--peaks-tresh] set are
    never read by the image loop: with other values of the two, the loop
    takes the same path, performs the same calls and leaves the same state,
    the thresholds apart. *)
Theorem thresholds_have_no_effect (images : list image_env) (et pt : float)
    (st : state) :
  for_each images process_image (with_thresholds et pt st)
  = let '(fl, st', evs) := for_each images process_image st in
    (fl, with_thresholds et pt st', evs).
Proof.
  apply (it_for_each images process_image it_process_image).
Qed.

(** X17.  Whatever happens to a snapshot, it releases the buffer it took and
    leaves its sink closed: over the calls of [save_gss] nothing stays held,
    neither the buffer nor the file of a level. *)
Theorem snapshot_releases_what_it_takes (fo : string -> string -> bool) (S : Z)
    (oc : octave_env) (id : sink_id) (fm : VlFileMeta) (b : string) (v : Z) :
  file fm = None ->
  held no_resources (gss_events (save_gss fo S oc id fm b v)) = no_resources /\
  file (gss_fm (save_gss fo S oc id fm b v)) = None.
Proof.
  intros Hf. apply save_gss_held; [exact Hf | now destruct id].
Qed.

(** X19.  The descriptors sink is opened first.  If that fails, with the
    overflow status or another, the image is given up with this status and
    the message of the macro [WERR]; the frames and meta sinks are not
    opened, and the statements after [done] close the input. *)
Theorem output_open_failure_skips_image (e : image_env) (st : state) (rc : Z)
    (fm : VlFileMeta) (evs : list event) :
  strlen (img_basename e) < sizeof_basename ->
  fopen_in_ok e = true ->
  quiescent st ->
  vl_file_meta_open (fopen_ok e) Dsc (sinks st Dsc) (img_basename e) "w" = (rc, fm, evs) ->
  rc <> 0 ->
  exists st',
    process_image e st
    = (Next tt, st',
       image_banner e st ++ FopenIn (img_name e) true :: evs
                     ++ [FcloseIn; error_line st']) /\
    err st' = rc /\
    err_msg st'
    = truncate sizeof_err_msg
        (if rc =? VL_ERR_OVERFLOW K then "Output file name too long."
         else "Could not open '" +++ name fm +++ "' for writing.") /\
    exit_code st' = 1.
Proof.
  intros Hfit Hin Hq Hopen Hrc.
  assert (Hfile : file fm = None).
  { destruct (vl_file_meta_open_cases (fopen_ok e) Dsc (sinks st Dsc) (img_basename e) "w")
      as [H | [H | [H | H]]]; cbv zeta in H; rewrite H in Hopen;
      injection Hopen as <- <- <-; try (now rewrite err_ok_zero in Hrc);
      [apply Hq | reflexivity]. }
  set (msg := truncate sizeof_err_msg
                (if rc =? VL_ERR_OVERFLOW K then "Output file name too long."
                 else "Could not open '" +++ name fm +++ "' for writing.")).
  set (s1 := with_err_msg msg
               (with_err rc
                  (with_sink Dsc fm (with_loc (mkLoc true false false false) st)))).
  assert (Hb : image_body e st
               = (GotoDone, s1, image_banner e st ++ FopenIn (img_name e) true :: evs)).
  { unfold image_body. rewrite (bind_next _ _ _ _ _ _ (set_loc_run _ st)).
    unfold determine_files, image_banner, file_meta_open, WERR. cbv zeta.
    rewrite (truncate_fits sizeof_basename) by exact Hfit.
    apply Z.leb_gt in Hfit. rewrite Hfit, Hin.
    cbv [bind set_err set_err_msg get set_in set_loc set_sink call when printf ret
         goto_done].
    cbn [negb Z.eqb err with_err par with_loc sinks]. subst s1 msg.
    destruct (negb (verbose (par st) =? 0)), (1 <? verbose (par st));
      cbv beta iota zeta; cbn [sinks with_loc with_err]; rewrite Hopen;
      cbn [err with_err with_sink sinks]; rewrite upd_sink_same, (neqb_true _ Hrc);
      destruct (rc =? VL_ERR_OVERFLOW K); cbn [app]; rewrite ?app_nil_r; reflexivity. }
  exists (done_state s1).
  rewrite (process_image_goto _ _ _ _ Hb), error_line_done.
  assert (Hd : done_events s1 = [FcloseIn; error_line s1]).
  { unfold done_events, close_events. subst s1.
    cbn [loc sinks err with_err_msg with_err with_sink with_loc filt data in_].
    rewrite upd_sink_same, Hfile, !upd_sink_other by discriminate.
    rewrite !Hq, (neqb_true _ Hrc). reflexivity. }
  rewrite Hd. split; [now rewrite <- !app_assoc|].
  rewrite done_state_err, done_state_err_msg, done_state_exit_code.
  split; [reflexivity|]. split; [reflexivity|].
  cbn [err s1 with_err with_err_msg]. now rewrite (proj2 (Z.eqb_neq _ _) Hrc).
Qed.

(** ** The tests of the numeric options *)

(** X20.  [--octaves], [--levels] and [--first-octave] store what [sscanf]
    scanned and raise [VL_ERR_BAD_ARG] exactly when [sscanf] converted
    nothing ([n = 0]) or the variable is negative afterwards.  A count of
    -1, which [sscanf] returns at the end of the input, is not a
    rejection: the variable keeps its previous value, and the option passes
    if that value is not negative. *)
Theorem integer_option_test (argv0 : string) (it : opt_item) (st : state) (n v : Z) :
  ch it = chr "O" \/ ch it = chr "S" \/ ch it = opt_first_octave ->
  sscanf_d (optarg it) (int_option_var (ch it) (par st)) = (n, v) ->
  exists st',
    process_option argv0 it st = (Next tt, st', []) /\
    int_option_var (ch it) (par st') = v /\
    if (n =? 0) || (v <? 0)
    then err st' = VL_ERR_BAD_ARG K /\
         err_msg st' = truncate sizeof_err_msg (not_an_integer it)
    else err st' = err st /\ err_msg st' = err_msg st.
Proof.
  intros Hc Hs. unfold process_option, int_option_var in *. cbv zeta.
  destruct Hc as [Hc | [Hc | Hc]]; rewrite Hc in *; revert Hs; code_tests; intros Hs;
    unfold bind, get; rewrite Hs; unfold set_par, when, ERR, bind, set_err,
      set_err_msg, ret;
    destruct ((n =? 0) || (v <? 0)); eexists; repeat split.
Qed.

(** X21.  [--edges-tresh] and [--peaks-tresh] store what [sscanf] scanned
    and raise [VL_ERR_BAD_ARG] exactly when [sscanf] converted nothing or
    the value compares below zero; a value that is not a number compares
    below nothing and passes. *)
Theorem threshold_option_test (argv0 : string) (it : opt_item) (st : state)
    (n : Z) (v : float) :
  ch it = opt_edges_tresh \/ ch it = opt_peaks_tresh ->
  sscanf_lf (optarg it) (float_option_var (ch it) (par st)) = (n, v) ->
  exists st',
    process_option argv0 it st = (Next tt, st', []) /\
    float_option_var (ch it) (par st') = v /\
    if (n =? 0) || PrimFloat.ltb v 0%float
    then err st' = VL_ERR_BAD_ARG K /\
         err_msg st' = truncate sizeof_err_msg (not_a_float it)
    else err st' = err st /\ err_msg st' = err_msg st.
Proof.
  intros Hc Hs. unfold process_option, float_option_var in *. cbv zeta.
  destruct Hc as [Hc | Hc]; rewrite Hc in *; revert Hs; code_tests; intros Hs;
    unfold bind, get; rewrite Hs; unfold set_par, when, ERR, bind, set_err,
      set_err_msg, ret;
    destruct ((n =? 0) || PrimFloat.ltb v 0%float); eexists; repeat split.
Qed.

(** X22.  When [vl_sift_new] returns no filter the image is given up with
    [VL_ERR_ALLOC]: the filter had been asked for with the dimensions of the
    image and the [O], [S] and [omin] of the options, and the statements
    after [done] free the image data and delete no filter. *)
Theorem filter_failure_skips_image (e : image_env) (st : state) (b : string)
    (s1 : state) (ev1 : list event) :
  determine_files e (with_loc (mkLoc false false false false) st) = (Next b, s1, ev1) ->
  pgm_head_rc e = 0 ->
  malloc_data_ok e = true ->
  malloc_fdata_ok e = true ->
  pgm_data_rc e = 0 ->
  sift_new_ok e = false ->
  let s2 := with_err_msg (truncate sizeof_err_msg "Could not allocate SIFT filter.")
              (with_err (VL_ERR_ALLOC K)
                 (with_loc (mkLoc (in_ (loc s1)) true true false) s1)) in
  process_image e st
  = (Next tt, done_state s2,
     ev1 ++ image_size_line e s1
         ++ [Malloc Data true; Malloc Fdata true;
             SiftNew (width (pim e)) (height (pim e))
                     (par_O (par s1)) (par_S (par s1)) (par_omin (par s1)) false]
         ++ done_events s2) /\
  In (Free Data) (done_events s2) /\
  ~ In SiftDelete (done_events s2).
Proof.
  intros Hdet Hh Hd Hf Hrc Hn. cbv zeta.
  set (s2 := with_err_msg _ _).
  split; [|split].
  - enough (Hb : image_body e st
                 = (GotoDone, s2,
                    ev1 ++ image_size_line e s1
                        ++ [Malloc Data true; Malloc Fdata true;
                            SiftNew (width (pim e)) (height (pim e))
                                    (par_O (par s1)) (par_S (par s1))
                                    (par_omin (par s1)) false]))
      by (rewrite (process_image_goto _ _ _ _ Hb); now rewrite <- !app_assoc).
    rewrite (image_body_after_files _ _ _ _ _ Hdet).
    unfold read_image_data, new_filter, image_size_line. rewrite Hh, Hd, Hf, Hrc, Hn.
    cbv [bind set_err set_err_msg goto_done get set_data set_fdata set_filt set_loc
         call when printf ret].
    cbn [negb Z.eqb orb par with_err with_loc].
    destruct (negb (verbose (par s1) =? 0)); reflexivity.
  - apply done_events_free. split; reflexivity.
  - unfold done_events, close_events. rewrite !in_app_iff.
    cbn [loc s2 with_err_msg with_err with_loc filt data in_].
    assert (Hc : forall id, ~ In SiftDelete
                               match file (sinks s2 id) with
                               | Some f => [Fclose id f]
                               | None => []
                               end).
    { intros id. destruct (file (sinks s2 id)); cbn; intuition discriminate. }
    pose proof (Hc Frm). pose proof (Hc Dsc). pose proof (Hc Met). pose proof (Hc Gss).
    assert (H4 : ~ In SiftDelete (if in_ (loc s1) then [FcloseIn] else []))
      by (destruct (in_ (loc s1)); cbn; intuition discriminate).
    assert (H5 : ~ In SiftDelete (if negb (err s2 =? 0) then [error_line s2] else []))
      by (destruct (negb (err s2 =? 0)); cbn; unfold error_line; intuition discriminate).
    cbn [In]. intuition discriminate.
Qed.

(** ** The frames output of a run *)

(** Options that fall through print nothing, and leave the sinks alone
    unless they configure one. *)
Lemma process_option_silent argv0 it st st' evs :
  process_option argv0 it st = (Next tt, st', evs) ->
  evs = [] /\ (sink_option_code (ch it) = false -> sinks st' = sinks st).
Proof.
  unfold process_option, sink_option, file_meta_parse, ERR, sink_option_code.
  cbv zeta.
  repeat match goal with
         | |- context [if ?c =? ?d then _ else _] => destruct (c =? d)
         end;
    unfold bind, get, set_err, set_err_msg, set_par, set_sink, printf, call, exit,
      assert_fail, when, ret;
    repeat match goal with
           | |- context [vl_file_meta_parse ?a ?b] => destruct (vl_file_meta_parse a b)
           | |- context [sscanf_d ?a ?b] => destruct (sscanf_d a b)
           | |- context [sscanf_lf ?a ?b] => destruct (sscanf_lf a b)
           end;
    cbn;
    repeat match goal with
           | |- context [if ?c then _ else _] => destruct c; cbn
           end;
    intros H; try discriminate; injection H as <- <-;
    (split;
     [ reflexivity
     | intros Hn; cbn in Hn; rewrite ?orb_true_r in Hn;
       first [reflexivity | discriminate] ]).
Qed.

Lemma parse_options_silent argv0 items :
  Forall (fun it => sink_option_code (ch it) = false) items ->
  forall st st' evs,
    parse_options argv0 items st = (Next tt, st', evs) ->
    evs = [] /\ sinks st' = sinks st.
Proof.
  induction 1 as [|it rest Hit _ IH]; intros st st' evs Hrun.
  - rewrite parse_options_nil in Hrun. injection Hrun as <- <-. now split.
  - destruct (Z.eq_dec (err st) 0) as [Hz|Hnz].
    + rewrite parse_options_cons in Hrun by exact Hz. unfold bind in Hrun.
      destruct (process_option argv0 it st) as [[fl1 st1] ev1] eqn:Hopt.
      destruct fl1 as [[]| | |]; try discriminate.
      destruct (process_option_silent _ _ _ _ _ Hopt) as [-> Hs1].
      destruct (parse_options argv0 rest st1) as [[fl2 st2] ev2] eqn:Hrest.
      injection Hrun as -> <- <-.
      destruct (IH _ _ _ Hrest) as [-> Hs2].
      split; [reflexivity|]. rewrite Hs2. now apply Hs1.
    + rewrite parse_options_error in Hrun by exact Hnz.
      injection Hrun as <- <-. now split.
Qed.

Lemma print_sinks_stdout st :
  exists evs, print_sinks st = (Next tt, st, evs) /\
              Forall (fun ev => is_stdout ev = true) evs.
Proof.
  unfold print_sinks, PRNFO, bind, get, printf, call, when.
  destruct (1 <? verbose (par st)); eexists; (split; [reflexivity|]);
    now repeat constructor.
Qed.

Lemma vl_file_meta_open_other fo j fm b mode :
  j <> Frm -> Forall no_open (snd (vl_file_meta_open fo j fm b mode)).
Proof.
  intros Hj.
  destruct (vl_file_meta_open_cases fo j fm b mode) as [H | [H | [H | H]]];
    cbv zeta in H; rewrite H; repeat constructor;
    unfold no_open; cbn; now apply sink_id_eqb_neq.
Qed.

Lemma save_gss_no_open fo S oc fm b v :
  Forall no_open (gss_events (save_gss fo S oc Gss fm b v)).
Proof.
  pose proof (save_gss_uses Frm fo S oc b v fm ltac:(discriminate)) as H.
  eapply Forall_impl; [|exact H].
  intros ev Hev. unfold no_open. unfold uses in Hev.
  now destruct (opens Frm ev).
Qed.

Lemma done_events_no_open st : filter (opens Frm) (done_events st) = [].
Proof.
  unfold done_events, close_events.
  destruct (filt (loc st)), (data (loc st)), (in_ (loc st)),
    (file (sinks st Frm)), (file (sinks st Dsc)), (file (sinks st Met)),
    (file (sinks st Gss)), (negb (err st =? 0)); reflexivity.
Qed.

Lemma frames_sink_done P st : frames_sink P st -> frames_sink P (done_state st).
Proof.
  unfold frames_sink. destruct (done_state_sink st Frm) as [-> | [_ ?]]; [|discriminate].
  auto.
Qed.

Lemma orientation_events_no_open st keys0 o :
  Forall no_open (orientation_events st keys0 o).
Proof.
  unfold orientation_events, descriptor_record, frames_record.
  apply Forall_app_intro.
  - destruct (active (sinks st Frm)); now repeat constructor.
  - destruct (active (sinks st Dsc)); [|constructor].
    apply Forall_app_intro; [|now repeat constructor].
    apply Forall_map, Forall_forall. intros i _. reflexivity.
Qed.

Lemma emit_keys_no_open ks st :
  exists evs, emit_keys ks st = (Next tt, st, evs) /\ Forall no_open evs.
Proof.
  destruct ks as [|k0 rest].
  - exists []. split; [reflexivity | constructor].
  - eexists. split; [apply emit_keys_calls|].
    apply Forall_flat_map, Forall_forall. intros k _.
    apply Forall_flat_map, Forall_forall. intros o _.
    apply orientation_events_no_open.
Qed.

Section FramesOutput.

(** The frames sink is active with the pattern [P]: the body of the image
    loop opens it once, in [determine_files], and keeps it as it is. *)
Variable P : string.

Ltac sink_leaf :=
  unfold failed, frames_sink in *;
  cbn [err sinks with_err with_err_msg with_loc with_sink] in *;
  rewrite ?upd_sink_other by discriminate;
  first [ assumption
        | split; [ first [ apply err_io_nz | apply err_alloc_nz | apply err_overflow_nz
                         | match goal with
                           | H : negb (?x =? 0) = true |- ?x <> 0 =>
                               apply negb_true_iff, Z.eqb_neq in H; exact H
                           end ]
                 | assumption ] ].

Ltac quiet_emits :=
  repeat lazymatch goal with
         | |- emits _ (ret tt) => apply emits_ret; constructor
         | |- emits _ (printf _ _) => apply emits_call; now repeat constructor
         | |- emits _ (bind get _) => apply emits_get; intros ?
         | |- emits _ (bind _ _) => apply emits_bind; [apply Forall_app_intro | |]
         | |- emits _ (when _ _) => apply emits_when_cond; [constructor | intros ?]
         end.

Ltac quiet_step :=
  lazymatch goal with
  | |- wp _ (ret _) _ _ _ => apply wp_ret
  | |- wp _ goto_done _ _ _ => apply wp_goto_done
  | |- wp _ (bind get _) _ _ _ => apply wp_get
  | |- wp _ (bind _ _) _ _ _ => apply wp_bind
  | |- wp _ (set_err _) _ _ _ => apply wp_set_err
  | |- wp _ (set_err_msg _) _ _ _ => apply wp_set_err_msg
  | |- wp _ (set_loc _) _ _ _ => apply wp_set_loc
  | |- wp _ (if _ then _ else _) _ _ _ => apply wp_if; intros ?
  | |- wp _ (call _) _ _ _ => apply wp_call; [now repeat constructor|]
  end.

Lemma quiet_read_image_data e st :
  frames_sink P st ->
  wp no_open (read_image_data e) (fun _ s => frames_sink P s)
     (fun s => failed s /\ frames_sink P s) st.
Proof.
  intros Hk. unfold read_image_data.
  apply wp_bind, wp_set_err.
  apply wp_bind. apply wp_if; intros ?; [repeat quiet_step; sink_leaf | apply wp_ret].
  apply wp_get. apply wp_bind, wp_emits; [quiet_emits|].
  apply wp_bind. apply wp_bind, wp_call; [now repeat constructor|].
  unfold set_data, set_fdata. apply wp_bind, wp_get, wp_set_loc.
  apply wp_get, wp_set_loc.
  apply wp_bind. apply wp_if; intros ?; [repeat quiet_step; sink_leaf | apply wp_ret].
  apply wp_bind, wp_set_err.
  apply wp_if; intros ?; [repeat quiet_step; sink_leaf | apply wp_ret; sink_leaf].
Qed.

Lemma quiet_new_filter e st :
  frames_sink P st ->
  wp no_open (new_filter e) (fun _ s => frames_sink P s)
     (fun s => failed s /\ frames_sink P s) st.
Proof.
  intros Hk. unfold new_filter. apply wp_get.
  apply wp_bind. apply wp_bind, wp_call; [now repeat constructor|].
  unfold set_filt. apply wp_get, wp_set_loc.
  apply wp_if; intros ?; [repeat quiet_step; sink_leaf | apply wp_ret; sink_leaf].
Qed.

Lemma quiet_optionally_save_gss e b oc st :
  frames_sink P st ->
  wp no_open (optionally_save_gss e b oc) (fun _ s => frames_sink P s)
     (fun s => failed s /\ frames_sink P s) st.
Proof.
  intros Hk. unfold optionally_save_gss. apply wp_get.
  apply wp_when; [intros _ | intros _; exact Hk].
  cbv zeta. apply wp_bind, wp_set_sink.
  apply wp_bind, wp_call; [apply save_gss_no_open|].
  apply wp_bind, wp_set_err. apply wp_get.
  apply wp_if; intros Hnz; [repeat quiet_step; sink_leaf | apply wp_ret; sink_leaf].
Qed.

Lemma quiet_octave_loop e b steps :
  forall st,
    frames_sink P st ->
    wp no_open (octave_loop e b steps) (fun _ s => frames_sink P s)
       (fun s => failed s /\ frames_sink P s) st.
Proof.
  induction steps as [|[rc oc] rest IH]; intros st Hk; cbn [octave_loop].
  - apply wp_bind, wp_set_err. apply wp_set_err. exact Hk.
  - apply wp_bind, wp_set_err. apply wp_if; intros _.
    { apply wp_set_err. exact Hk. }
    apply wp_get.
    apply wp_bind, wp_emits; [quiet_emits|].
    apply wp_bind.
    apply (wp_conseq _ _ _ _ _ _ _
             (quiet_optionally_save_gss e b oc (with_err rc st) Hk)); [|auto].
    intros _ s2 Hk2.
    apply wp_bind, wp_emits; [quiet_emits|].
    apply wp_bind.
    destruct (emit_keys_no_open (keys oc) s2) as (evs & Eq & Hev).
    unfold wp at 1. rewrite Eq. split; [exact Hev|]. now apply IH.
Qed.

Lemma quiet_tail e b st :
  frames_sink P st ->
  wp no_open
     (read_image_data e ;; new_filter e ;; octave_loop e b (octaves e) ;; meta_file e)
     (fun _ s => frames_sink P s) (fun s => failed s /\ frames_sink P s) st.
Proof.
  intros Hk.
  apply wp_bind.
  apply (wp_conseq _ _ _ _ _ _ _ (quiet_read_image_data e st Hk)); [|auto].
  intros _ s1 Hk1. apply wp_bind.
  apply (wp_conseq _ _ _ _ _ _ _ (quiet_new_filter e s1 Hk1)); [|auto].
  intros _ s2 Hk2. apply wp_bind.
  apply (wp_conseq _ _ _ _ _ _ _ (quiet_octave_loop e b (octaves e) s2 Hk2)); [|auto].
  intros _ s3 Hk3. apply wp_meta_file; [reflexivity | exact Hk3].
Qed.


Lemma wpx_noopen {A B} (m : M A) (f : A -> M B) (Qs : B -> state -> Prop)
    (L : list event) (Rs : state -> Prop) (I : A -> state -> Prop)
    (F : state -> Prop) st :
  wp no_open m I F st ->
  (forall a s, I a s ->
     wpx (f a) (fun b s2 ev2 => Qs b s2 /\ filter (opens Frm) ev2 = L)
         (fun s2 _ => Rs s2) s) ->
  (forall s, F s -> Rs s) ->
  wpx (bind m f) (fun b s2 evs => Qs b s2 /\ filter (opens Frm) evs = L)
      (fun s2 _ => Rs s2) st.
Proof.
  intros Hm Hf HR.
  apply (wpx_wp no_open m f _ _ I F st Hm); [|auto].
  intros a s ev1 He Hi.
  apply (wpx_conseq _ _ _ _ _ _ (Hf a s Hi)); [|auto].
  intros b s2 ev2 [HQ HL]. split; [exact HQ|].
  rewrite filter_app, (filter_none (opens Frm) ev1 He). exact HL.
Qed.

Lemma wpx_open_frames {B} fo b (rest : M B) (Qs : B -> state -> Prop) st :
  frames_sink P st ->
  (forall s, frames_sink P s ->
     wpx rest (fun x s2 ev2 => Qs x s2 /\ filter (opens Frm) ev2 = [])
         (fun s2 _ => failed s2 /\ frames_sink P s2) s) ->
  wpx (file_meta_open fo Frm b "w" ;; WERR Frm ;; rest)
      (fun x s2 evs =>
         Qs x s2 /\
         filter (opens Frm) evs = [Fopen Frm (vl_string_replace_wildcard P b) "w" true])
      (fun s2 _ => failed s2 /\ frames_sink P s2) st.
Proof.
  intros [Ha Hp] Hrest.
  assert (Hgo : forall s (Q : B -> state -> list event -> Prop),
             err s <> 0 -> frames_sink P s ->
             wpx (WERR Frm ;; rest) Q (fun s2 _ => failed s2 /\ frames_sink P s2) s).
  { intros s Q Hnz Hk. apply wpx_bind. unfold WERR. apply wpx_get.
    unfold wpx, bind, set_err_msg, goto_done.
    destruct (err s =? VL_ERR_OVERFLOW K); [now split|].
    rewrite (neqb_true _ Hnz). now split. }
  apply wpx_bind. unfold wpx at 1, file_meta_open, bind, get, set_sink, call, set_err.
  unfold vl_file_meta_open. rewrite Ha, Hp. cbn [negb].
  set (full := vl_string_replace_wildcard P b).
  destruct (name_size K <=? strlen full) eqn:Hov; cbn [app].
  { apply Hgo; [apply err_overflow_nz|].
    split; cbn; now rewrite upd_sink_same. }
  apply Z.leb_gt in Hov. rewrite (truncate_fits _ _ Hov). cbn [name set_name].
  destruct (fo full "w"); cbn [app].
  - apply wpx_bind. unfold WERR. apply wpx_get.
    cbn [err with_err]. rewrite err_ok_zero.
    replace (0 =? VL_ERR_OVERFLOW K) with false
      by (symmetry; apply Z.eqb_neq; intros H; symmetry in H;
          now apply (err_overflow_nz K)).
    cbn [Z.eqb negb]. unfold wpx at 1, ret.
    match goal with |- wpx _ _ _ ?s =>
      assert (Hk : frames_sink P s) by (split; cbn; now rewrite upd_sink_same)
    end.
    apply (wpx_conseq _ _ _ _ _ _ (Hrest _ Hk)); [|auto].
    intros x s2 ev2 [HQ HL]. split; [exact HQ|].
    cbn [app filter opens sink_id_eqb]. now rewrite HL.
  - apply Hgo; [apply err_io_nz|].
    split; cbn; now rewrite upd_sink_same.
Qed.

Lemma quiet_open_output {A} fo j b (rest : M A) (Qs : A -> state -> Prop)
    (L : list event) st :
  j <> Frm ->
  frames_sink P st ->
  (forall s, frames_sink P s ->
     wpx rest (fun x s2 ev2 => Qs x s2 /\ filter (opens Frm) ev2 = L)
         (fun s2 _ => failed s2 /\ frames_sink P s2) s) ->
  wpx (file_meta_open fo j b "w" ;; WERR j ;; rest)
      (fun x s2 evs => Qs x s2 /\ filter (opens Frm) evs = L)
      (fun s2 _ => failed s2 /\ frames_sink P s2) st.
Proof.
  intros Hj Hk Hrest.
  apply (wpx_noopen _ _ _ _ _ (fun _ s => frames_sink P s)
                    (fun s => failed s /\ frames_sink P s)); [| |auto].
  { apply wp_file_meta_open. intros e0 fm evs Ho. split.
    - pose proof (vl_file_meta_open_other fo j (sinks st j) b "w" Hj) as Hq.
      now rewrite Ho in Hq.
    - destruct Hk as [Ha Hp]. split; cbn; now rewrite upd_sink_other. }
  intros _ s1 Hk1.
  apply (wpx_noopen _ _ _ _ _ (fun _ s => frames_sink P s)
                    (fun s => failed s /\ frames_sink P s)); [| |auto].
  { unfold WERR. apply wp_get.
    apply wp_if; intros Hov.
    { apply wp_bind, wp_set_err_msg. apply wp_goto_done. split; [|exact Hk1].
      unfold failed. cbn in *. apply Z.eqb_eq in Hov. rewrite Hov.
      apply err_overflow_nz. }
    apply wp_if; intros Hnz.
    { apply wp_bind, wp_set_err_msg. apply wp_goto_done. split; [|exact Hk1].
      unfold failed. cbn in *. now apply negb_true_iff, Z.eqb_neq in Hnz. }
    apply wp_ret. exact Hk1. }
  intros _ s2 Hk2. now apply Hrest.
Qed.

Lemma wpx_determine_files e st :
  frames_sink P st ->
  wpx (determine_files e)
      (fun b s evs =>
         (b = img_basename e /\ frames_sink P s) /\
         filter (opens Frm) evs = [frames_open P e])
      (fun s _ => failed s /\ frames_sink P s) st.
Proof.
  intros Hk. unfold frames_open, frame_path.
  destruct (sizeof_basename <=? strlen (img_basename e)) eqn:Hov.
  { assert (Hb : determine_files e st
                 = (GotoDone,
                    with_err (VL_ERR_OVERFLOW K)
                      (with_err_msg
                         (truncate sizeof_err_msg
                            ("Basename of '" +++ img_name e +++ "' is too long")) st),
                    [])).
    { unfold determine_files. cbv zeta. unfold bind, set_err, get.
      rewrite Hov. reflexivity. }
    unfold wpx. rewrite Hb. split; [apply err_overflow_nz | exact Hk]. }
  unfold determine_files. cbv zeta. rewrite Hov.
  apply Z.leb_gt in Hov. rewrite (truncate_fits _ _ Hov).
  apply (wpx_noopen _ _ _ _ _ (fun _ s => frames_sink P s)
                    (fun s => failed s /\ frames_sink P s));
    [now apply wp_set_err | | auto].
  intros _ s0 Hk0. apply wpx_get.
  apply (wpx_noopen _ _ _ _ _ (fun _ s => frames_sink P s)
                    (fun s => failed s /\ frames_sink P s)); [| |auto].
  { apply wp_if; intros ?; [repeat quiet_step; sink_leaf | now apply wp_ret]. }
  intros _ s1 Hk1.
  apply (wpx_noopen _ _ _ _ _ (fun _ s => frames_sink P s)
                    (fun s => failed s /\ frames_sink P s));
    [apply wp_emits; [quiet_emits | exact Hk1] | | auto].
  intros _ s2 Hk2.
  apply (wpx_noopen _ _ _ _ _ (fun _ s => frames_sink P s)
                    (fun s => failed s /\ frames_sink P s));
    [apply wp_emits; [quiet_emits | exact Hk2] | | auto].
  intros _ s3 Hk3.
  apply (wpx_noopen _ _ _ _ _ (fun _ s => frames_sink P s)
                    (fun s => failed s /\ frames_sink P s)); [| |auto].
  { apply wp_bind, wp_call; [now repeat constructor|].
    unfold set_in. apply wp_get, wp_set_loc. exact Hk3. }
  intros _ s4 Hk4.
  apply (wpx_noopen _ _ _ _ _ (fun _ s => frames_sink P s)
                    (fun s => failed s /\ frames_sink P s)); [| |auto].
  { apply wp_if; intros ?; [repeat quiet_step; sink_leaf | now apply wp_ret]. }
  intros _ s5 Hk5.
  apply quiet_open_output; [discriminate | exact Hk5 |]. intros s6 Hk6.
  apply wpx_open_frames; [exact Hk6|]. intros s7 Hk7.
  apply quiet_open_output; [discriminate | exact Hk7 |]. intros s8 Hk8.
  apply wpx_get.
  apply (wpx_noopen _ _ _ _ _ (fun _ s => frames_sink P s)
                    (fun s => failed s /\ frames_sink P s));
    [apply wp_emits; [quiet_emits | exact Hk8] | | auto].
  intros _ s9 Hk9. unfold wpx, ret.
  split; [split; [reflexivity | exact Hk9] | reflexivity].
Qed.

Lemma wpx_image_frames e st :
  frames_sink P st ->
  wpx (image_body e)
      (fun _ s evs => frames_sink P s /\ filter (opens Frm) evs = [frames_open P e])
      (fun s _ => failed s /\ frames_sink P s) st.
Proof.
  intros Hk. unfold image_body.
  apply (wpx_noopen _ _ _ _ _ (fun _ s => frames_sink P s)
                    (fun s => failed s /\ frames_sink P s));
    [now apply wp_set_loc | | auto].
  intros _ s0 Hk0. apply wpx_bind.
  apply (wpx_conseq _ _ _ _ _ _ (wpx_determine_files e s0 Hk0)); [|auto].
  intros b s1 ev1 [[_ Hk1] Hev1].
  apply (wpx_conseq _ _ _ _ _ _
           (wpx_of_wp no_open _ _ _ s1 (quiet_tail e b s1 Hk1))).
  - intros _ s2 ev2 [Hev2 Hk2]. split; [exact Hk2|].
    now rewrite filter_app, Hev1, (filter_none (opens Frm) ev2 Hev2).
  - intros s2 ev2 [_ H]. exact H.
Qed.

End FramesOutput.

(** The frames file of an image: with an active frames sink, an image that
    ends with [err] zero has opened its frames file once, under the path of
    the pattern, and written one line to it for each orientation. *)
Lemma process_image_frames P e st :
  frames_sink P st ->
  let '(fl, st', evs) := process_image e st in
  frames_sink P st' /\
  (err st' = 0 ->
   filter (opens Frm) evs = [frames_open P e] /\
   count is_frames_line evs = frames_lines e).
Proof.
  intros Hk.
  pose proof (wpx_image_frames P e st Hk) as Hb. unfold wpx in Hb.
  pose proof (count_process_image Frm true is_frames_line 1 ltac:(discriminate)
                frames_line_is_record orientation_frames_lines e st (proj1 Hk)) as Hc.
  unfold process_image, at_done in *.
  destruct (image_body e st) as [[fl st1] ev1].
  destruct fl as [[]| | |]; try contradiction; rewrite done_block_run in *.
  - destruct Hb as [Hk1 Hev]. split; [now apply frames_sink_done|].
    intros Hz. split.
    + now rewrite filter_app, Hev, done_events_no_open.
    + rewrite (Hc Hz). unfold frames_lines. lia.
  - destruct Hb as [Hf Hk1]. split; [now apply frames_sink_done|].
    intros Hz. rewrite done_state_err in Hz. contradiction.
Qed.

Lemma batch_frames P images :
  forall st,
    frames_sink P st ->
    let '(fl, st', evs) := for_each images process_image st in
    forallb (fun z => z =? 0) (batch_errors images st) = true ->
    filter (opens Frm) evs = map (frames_open P) images /\
    count is_frames_line evs = list_sum (map frames_lines images).
Proof.
  induction images as [|e rest IH]; intros st Hk; cbn [for_each batch_errors].
  - intros _. split; reflexivity.
  - unfold bind. pose proof (process_image_frames P e st Hk) as H1.
    pose proof (process_image_report e st) as H2.
    destruct (process_image e st) as [[fl1 st1] ev1].
    destruct H2 as (-> & _). destruct H1 as [Hk1 H1].
    specialize (IH st1 Hk1).
    destruct (for_each rest process_image st1) as [[fl2 st2] ev2].
    cbn [forallb]. intros Hall. apply andb_true_iff in Hall. destruct Hall as [Hz Hall].
    apply Z.eqb_eq in Hz. destruct (H1 Hz) as [Ho1 Hc1].
    destruct (IH Hall) as [Ho2 Hc2].
    split.
    + rewrite filter_app, Ho1, Ho2. reflexivity.
    + rewrite count_app, Hc1, Hc2. reflexivity.
Qed.

(** A run that returns 0 has gone through the option loop without a word,
    and through every image without error. *)
Lemma main_frames argv0 items images st evs :
  Forall (fun it => sink_option_code (ch it) = false) items ->
  main argv0 items images = (Next 0, st, evs) ->
  filter (opens Frm) evs = map (frames_open "%.frame") images /\
  count is_frames_line evs = list_sum (map frames_lines images).
Proof.
  intros Hn Hm. unfold main in Hm. unfold bind at 1 in Hm.
  pose proof (parse_options_effect argv0 items init_state (err_ok_zero K)) as He.
  destruct (parse_options argv0 items init_state) as [[fl1 st1] ev1] eqn:Hparse.
  destruct fl1 as [[]| | |]; try discriminate.
  destruct (parse_options_silent argv0 items Hn _ _ _ Hparse) as [-> Hs].
  destruct He as (_ & Hc1 & _ & _).
  destruct (Z.eq_dec (err st1) 0) as [Hz|Hnz].
  2:{ assert (Hck : check_parsing_errors argv0 st1
                    = (Exit 1, st1, [option_diagnostic argv0 st1])).
      { unfold check_parsing_errors, bind, get. now rewrite (neqb_true _ Hnz). }
      unfold bind at 1 in Hm. rewrite Hck in Hm. discriminate. }
  assert (Hck : check_parsing_errors argv0 st1 = (Next tt, st1, [])).
  { unfold check_parsing_errors, bind, get. now rewrite (neqb_false _ Hz). }
  rewrite (bind_next _ _ _ _ _ _ Hck) in Hm.
  destruct (print_sinks_stdout st1) as (ev2 & Hpr & Hs2).
  rewrite (bind_next _ _ _ _ _ _ Hpr) in Hm.
  assert (Hk : frames_sink "%.frame" st1) by (split; rewrite Hs; reflexivity).
  pose proof (batch_frames "%.frame" images st1 Hk) as Hf.
  pose proof (batch_report images st1) as Hb.
  unfold bind at 1 in Hm.
  destruct (for_each images process_image st1) as [[fl3 st3] ev3].
  destruct Hb as (-> & _ & _ & Hc3).
  unfold bind, get, ret in Hm. cbn [app] in Hm.
  injection Hm as Hc <- <-.
  assert (Hall : forallb (fun z => z =? 0) (batch_errors images st1) = true).
  { destruct (forallb _ _); [reflexivity|]. rewrite Hc3 in Hc. discriminate. }
  destruct (Hf Hall) as [Ho Hl].
  assert (Ho2 : filter (opens Frm) ev2 = []).
  { apply filter_none. eapply Forall_impl; [|exact Hs2].
    intros ev Hev. destruct ev as [| | | |s fmt args| | | | |]; try discriminate.
    reflexivity. }
  assert (Hl2 : count is_frames_line ev2 = 0%nat).
  { unfold count. rewrite filter_none; [reflexivity|].
    eapply Forall_impl; [|exact Hs2].
    intros ev Hev. destruct ev as [| | | |s fmt args| | | | |]; try discriminate.
    destruct s; [reflexivity | discriminate | discriminate]. }
  rewrite app_nil_r, !filter_app, !count_app, Ho, Ho2, Hl, Hl2.
  split; reflexivity.
Qed.

(** C10.  At start-up the frames sink is active with pattern ["%.frame"] and
    the ASCII protocol, and the descriptors, meta, gss and read-frames sinks
    are inactive; a run whose options configure no sink keeps these flags
    and performs no call that uses a sink other than the frames sink.  It
    does produce the frames output: with the frames sink as it is at
    start-up, the processing of an image that ends with [err] zero opens the
    frames file of the image once, under the name that the pattern
    ["%.frame"] makes of the base name, and writes one line to it for each
    orientation of each keypoint of the octaves processed; and a run that
    returns 0 has done so, in turn, for each of its images. *)
Theorem default_run_frames_only (argv0 : string) (items : list opt_item)
    (images : list image_env) :
  Forall (fun it => sink_option_code (ch it) = false) items ->
  sinks init_state Frm = mkFileMeta true "%.frame" (VL_PROT_ASCII K) "" None /\
  (forall id, id <> Frm -> active (sinks init_state id) = false) /\
  (forall e st,
      sinks st Frm = sinks init_state Frm ->
      let '(_, st', evs) := process_image e st in
      err st' = 0 ->
      filter (opens Frm) evs = [Fopen Frm (frame_path "%.frame" e) "w" true] /\
      count is_frames_line evs = frames_lines e) /\
  let '(fl, st, evs) := main argv0 items images in
  (forall id, active (sinks st id) = active (sinks init_state id)) /\
  (forall id, id <> Frm -> Forall (fun ev => uses id ev = false) evs) /\
  (fl = Next 0 ->
   filter (opens Frm) evs
   = map (fun e => Fopen Frm (frame_path "%.frame" e) "w" true) images /\
   count is_frames_line evs = list_sum (map frames_lines images)).
Proof.
  intros Hn. split; [reflexivity|]. split.
  { intros id Hid. destruct id; try reflexivity. congruence. }
  split.
  { intros e st Hs.
    assert (Hk : frames_sink "%.frame" st) by (split; rewrite Hs; reflexivity).
    pose proof (process_image_frames "%.frame" e st Hk) as H.
    destruct (process_image e st) as [[fl st'] evs]. apply H. }
  pose proof (fun id => sink_inv_main id argv0 items images Hn) as Hp.
  pose proof (main_frames argv0 items images) as Hf.
  destruct (main argv0 items images) as [[fl st] evs].
  split; [|split].
  - intros id. apply (Hp id).
  - intros id Hid. apply (Hp id). destruct id; try reflexivity. congruence.
  - intros ->. exact (Hf st evs Hn eq_refl).
Qed.

End Driver.

(** * Instances on the sample inputs *)

Lemma inactive_sink_never_used_witness :
  active (sinks (init_state sample_headers) Dsc) = false /\
  let '(_, st', evs) :=
    for_each [sample_image] (process_image sample_headers trunc_uint8)
             (init_state sample_headers) in
  active (sinks st' Dsc) = false /\ Forall (fun ev => uses Dsc ev = false) evs.
Proof.
  split; [reflexivity|].
  apply (inactive_sink_never_used sample_headers trunc_uint8 Dsc [sample_image]
           (init_state sample_headers)).
  reflexivity.
Defined.

Lemma default_run_frames_only_witness :
  Forall (fun it => sink_option_code (ch it) = false) [mkOpt 118 None "-v"] /\
  let '(fl, st, evs) :=
    main sample_headers trunc_uint8 sample_parse sample_sscanf_d sample_sscanf_lf
         "0.9" (fun _ => "ascii") "sift" [mkOpt 118 None "-v"] [sample_image] in
  (forall id, active (sinks st id) = active (sinks (init_state sample_headers) id)) /\
  (forall id, id <> Frm -> Forall (fun ev => uses id ev = false) evs) /\
  fl = Next 0 /\
  filter (opens Frm) evs = [Fopen Frm "a.frame" "w" true] /\
  count is_frames_line evs = 3%nat.
Proof.
  assert (Hn : Forall (fun it => sink_option_code (ch it) = false)
                      [mkOpt 118 None "-v"]) by (repeat constructor).
  split; [exact Hn|].
  pose proof (default_run_frames_only sample_headers trunc_uint8 sample_parse
                sample_sscanf_d sample_sscanf_lf "0.9" (fun _ => "ascii") "sift"
                [mkOpt 118 None "-v"] [sample_image] Hn) as H.
  destruct H as (_ & _ & _ & H).
  destruct (main sample_headers trunc_uint8 sample_parse sample_sscanf_d
                 sample_sscanf_lf "0.9" (fun _ => "ascii") "sift"
                 [mkOpt 118 None "-v"] [sample_image]) as [[fl st] evs] eqn:E.
  assert (Hfl : fl = Next 0).
  { apply (f_equal (fun r => fst (fst r))) in E. vm_compute in E. now symmetry. }
  destruct H as (H1 & H2 & H3).
  split; [exact H1|]. split; [exact H2|]. split; [exact Hfl|].
  destruct (H3 Hfl) as [Ho Hl]. split; [exact Ho | exact Hl].
Defined.

(** C3 (as stated) fails: the filter answers the second octave advance with
    the allocation error, which is neither zero nor the signal for no more
    octaves, and the image is processed to its normal end: [main] returns 0,
    [err] is zero and nothing is written to the error stream. *)
Lemma octave_advance_failure_not_fatal :
  VL_ERR_ALLOC sample_headers <> 0 /\
  VL_ERR_ALLOC sample_headers <> VL_ERR_EOF sample_headers /\
  octaves failing_filter_image
  = [(0, sample_octave); (VL_ERR_ALLOC sample_headers, sample_octave)] /\
  let '(fl, st, evs) :=
    main sample_headers trunc_uint8 sample_parse sample_sscanf_d sample_sscanf_lf
         "0.9" (fun _ => "ascii") "sift" [] [failing_filter_image] in
  fl = Next 0 /\ err st = 0 /\ forallb (fun ev => negb (is_stderr ev)) evs = true.
Proof.
  split; [discriminate|]. split; [discriminate|]. split; [reflexivity|].
  vm_compute. repeat split.
Qed.

Lemma octave_advance_status_ends_loop_witness :
  2 <> 0 /\
  let '(fl, st', evs) :=
    at_done (octave_loop sample_headers trunc_uint8 sample_image "a"
                         [(2, sample_octave)] ;;
             meta_file sample_image)
            done_block (init_state sample_headers) in
  fl = Next tt /\ err st' = 0 /\ exit_code st' = exit_code (init_state sample_headers) /\
  Forall (fun ev => is_stderr ev = false) evs.
Proof.
  split; [discriminate|].
  apply (octave_advance_status_ends_loop sample_headers trunc_uint8 sample_image "a"
           2 sample_octave [] (init_state sample_headers)).
  discriminate.
Defined.

Lemma save_gss_returns_no_status_witness :
  active (mkFileMeta true "%.pgm" 1 "" None) = true /\
  gss_returned (save_gss sample_headers trunc_uint8 (fun _ _ => true) 3
                         alloc_failing_octave Gss
                         (mkFileMeta true "%.pgm" 1 "" None) "a" 0) = None /\
  (gss_malloc_ok alloc_failing_octave = false ->
   gss_err (save_gss sample_headers trunc_uint8 (fun _ _ => true) 3
                     alloc_failing_octave Gss
                     (mkFileMeta true "%.pgm" 1 "" None) "a" 0)
   = Some (VL_ERR_ALLOC sample_headers)).
Proof.
  split; [reflexivity|].
  apply (save_gss_returns_no_status sample_headers trunc_uint8 (fun _ _ => true) 3
           alloc_failing_octave Gss (mkFileMeta true "%.pgm" 1 "" None) "a" 0).
  reflexivity.
Defined.

(** C4 (evaluation of the code).  The run [sift --gss dir/a.pgm] in which the
    file of the first snapshot level cannot be opened: [save_gss] meets the
    I/O error and returns no value; [main], reading zero, goes on with the
    image, prints no diagnostic and returns 0. *)
Lemma snapshot_failure_goes_unreported :
  let '(fl, st, evs) :=
    main sample_headers trunc_uint8 sample_parse sample_sscanf_d sample_sscanf_lf
         "0.9" (fun _ => "ascii") "sift"
         [mkOpt opt_gss None "--gss"] [snapshot_failing_image] in
  In (Fopen Gss "a_-1_000.pgm" "w" false) evs /\
  forallb (fun ev => negb (is_stderr ev)) evs = true /\
  fl = Next 0.
Proof. vm_compute. split; [|split; reflexivity]. do 6 right. now left. Qed.


Lemma meta_needs_ascii_protocol_witness :
  ch (mkOpt 1001 (Some "%.meta:bin") "--meta") = 1001 /\
  exists st' msg,
    main sample_headers trunc_uint8 binary_parse sample_sscanf_d sample_sscanf_lf
         "0.9" (fun _ => "ascii") "sift"
         ([mkOpt 118 None "-v"] ++ mkOpt 1001 (Some "%.meta:bin") "--meta" :: [])
         [sample_image]
    = (Exit 1, st',
       [] ++ [Fprintf Stderr "%s: error: %s (%d)\n"
                      [AStr "sift"; AStr msg; AInt (VL_ERR_BAD_ARG sample_headers)]]).
Proof.
  split; [reflexivity|].
  eapply (meta_needs_ascii_protocol sample_headers trunc_uint8 binary_parse
            sample_sscanf_d sample_sscanf_lf "0.9" (fun _ => "ascii") "sift"
            [mkOpt 118 None "-v"] (mkOpt 1001 (Some "%.meta:bin") "--meta") []
            [sample_image]).
  - reflexivity.
  - reflexivity.
  - reflexivity.
  - discriminate.
Defined.

Lemma image_resources_released_witness :
  quiescent (init_state sample_headers) /\ released no_resources /\
  let '(fl, st', evs) :=
    process_image sample_headers trunc_uint8 snapshot_failing_image
                  (init_state sample_headers) in
  fl = Next tt /\ quiescent st' /\
  in_ (loc st') = false /\ data (loc st') = false /\ filt (loc st') = false /\
  released (held no_resources evs).
Proof.
  assert (Hq : quiescent (init_state sample_headers)) by (intros id; now destruct id).
  assert (Hr : released no_resources).
  { split; [intros id; now destruct id | now repeat split]. }
  split; [exact Hq|]. split; [exact Hr|].
  apply (image_resources_released sample_headers trunc_uint8 snapshot_failing_image
           (init_state sample_headers) no_resources Hq Hr).
Defined.

(** The converted samples [fdata] are another matter: the statements after
    [done] release [data] only, and the trace of an image still holds the
    buffer of [fdata] at its end. *)
Remark converted_data_stays_allocated :
  let '(_, _, evs) :=
    process_image sample_headers trunc_uint8 sample_image (init_state sample_headers) in
  r_fdata (held no_resources evs) = 1%nat.
Proof. vm_compute. reflexivity. Qed.


(** An image processed with the descriptors sink alone active: three lines of
    128 fields, and nothing for the frames sink. *)
Lemma one_record_per_orientation_witness :
  exists fl st' evs,
    process_image sample_headers trunc_uint8 sample_image
      (with_sink Frm (mkFileMeta false "%.frame" 1 "" None)
         (with_sink Dsc (mkFileMeta true "%.descr" 1 "" None)
            (init_state sample_headers)))
    = (fl, st', evs) /\
    err st' = 0 /\
    count is_frames_line evs = 0%nat /\
    count is_descriptor_line evs = 3%nat /\
    count is_descriptor_field evs = 384%nat /\
    Forall (fun ev => uses Frm ev = false) evs.
Proof.
  destruct (process_image sample_headers trunc_uint8 sample_image
              (with_sink Frm (mkFileMeta false "%.frame" 1 "" None)
                 (with_sink Dsc (mkFileMeta true "%.descr" 1 "" None)
                    (init_state sample_headers))))
    as [[fl st'] evs] eqn:E.
  exists fl, st', evs. split; [reflexivity|].
  assert (H0 : err st' = 0).
  { apply (f_equal (fun r => err (snd (fst r)))) in E. vm_compute in E. now symmetry. }
  split; [exact H0|].
  destruct (one_record_per_orientation sample_headers trunc_uint8 sample_image _ fl st' evs
              E H0) as (_ & Hf & Hd & Hg & Hn).
  split; [exact Hf|]. split; [exact Hd|]. split; [exact Hg|].
  apply Hn. reflexivity.
Defined.


Lemma information_option_exits_witness :
  main sample_headers trunc_uint8 sample_parse sample_sscanf_d sample_sscanf_lf
       "0.9" (fun _ => "ascii") "sift"
       ([mkOpt 118 None "-v"] ++ mkOpt 1000 None "--version" :: [mkOpt 63 None "-x"])
       [sample_image]
  = (Exit 0,
     with_par (mkParams 2%float 2%float (-1) 3 (-1) 1) (init_state sample_headers),
     [] ++ [Fprintf Stdout "sift: driver version: %s libvl version: %s"
                    [AStr "alpha-1"; AStr "0.9"]]).
Proof.
  apply (information_option_exits sample_headers trunc_uint8 sample_parse
           sample_sscanf_d sample_sscanf_lf "0.9" (fun _ => "ascii") "sift"
           [mkOpt 118 None "-v"] (mkOpt 1000 None "--version") [mkOpt 63 None "-x"]
           [sample_image]);
    [reflexivity | reflexivity | right; reflexivity].
Defined.

Lemma unhandled_option_aborts_witness :
  handled_option opt_orientations = false /\
  main sample_headers trunc_uint8 sample_parse sample_sscanf_d sample_sscanf_lf
       "0.9" (fun _ => "ascii") "sift"
       ([] ++ mkOpt opt_orientations (Some "1") "--orientations" :: [])
       [sample_image]
  = (Abort, init_state sample_headers, []).
Proof.
  split; [reflexivity|].
  apply (unhandled_option_aborts sample_headers trunc_uint8 sample_parse
           sample_sscanf_d sample_sscanf_lf "0.9" (fun _ => "ascii") "sift"
           [] (mkOpt opt_orientations (Some "1") "--orientations") [] [sample_image]);
    reflexivity.
Defined.

Lemma verbose_counts_options_witness :
  verbose (par (snd (fst (parse_options sample_headers sample_parse sample_sscanf_d
                            sample_sscanf_lf "0.9" "sift"
                            [mkOpt 118 None "-v"; mkOpt 1003 None "--descriptors";
                             mkOpt 118 None "-v"]
                            (init_state sample_headers)))))
  = 0 + 2.
Proof.
  eapply (verbose_counts_options sample_headers sample_parse sample_sscanf_d
            sample_sscanf_lf "0.9" "sift"
            [mkOpt 118 None "-v"; mkOpt 1003 None "--descriptors"; mkOpt 118 None "-v"]
            (init_state sample_headers));
    [reflexivity | vm_compute; reflexivity | reflexivity].
Defined.

Lemma parsed_parameters_in_range_witness :
  params_in_range
    (par (snd (fst (parse_options sample_headers sample_parse
                      (fun _ _ => (1, 5)) sample_sscanf_lf "0.9" "sift"
                      [mkOpt 83 (Some "5") "--levels"] (init_state sample_headers))))).
Proof.
  eapply (parsed_parameters_in_range sample_headers sample_parse (fun _ _ => (1, 5))
            sample_sscanf_lf "0.9" "sift" [mkOpt 83 (Some "5") "--levels"]);
    [vm_compute; reflexivity | reflexivity].
Defined.

Lemma option_error_ends_run_witness :
  Forall (fun it => ch it <> chr "?" /\ ch it <> chr ":")
         [mkOpt 83 (Some "x") "--levels"] /\
  exists st1 ev1,
    parse_options sample_headers sample_parse (fun _ v => (0, v)) sample_sscanf_lf
                  "0.9" "sift" [mkOpt 83 (Some "x") "--levels"]
                  (init_state sample_headers)
    = (Next tt, st1, ev1) /\
    err st1 = VL_ERR_BAD_ARG sample_headers /\
    Forall (fun e => is_stderr e = false) ev1 /\
    main sample_headers trunc_uint8 sample_parse (fun _ v => (0, v)) sample_sscanf_lf
         "0.9" (fun _ => "ascii") "sift"
         ([mkOpt 83 (Some "x") "--levels"] ++ [mkOpt 118 None "-v"]) [sample_image]
    = (Exit 1, st1, ev1 ++ [option_diagnostic "sift" st1]).
Proof.
  assert (Hg : Forall (fun it => ch it <> chr "?" /\ ch it <> chr ":")
                      [mkOpt 83 (Some "x") "--levels"]).
  { constructor; [split; discriminate | constructor]. }
  split; [exact Hg|].
  eexists _, _. split; [vm_compute; reflexivity|].
  apply (option_error_ends_run sample_headers trunc_uint8 sample_parse
           (fun _ v => (0, v)) sample_sscanf_lf "0.9" (fun _ => "ascii") "sift"
           [mkOpt 83 (Some "x") "--levels"] [mkOpt 118 None "-v"] [sample_image]);
    [exact Hg | vm_compute; reflexivity | vm_compute; discriminate].
Defined.


Lemma batch_exit_status_witness :
  exists st' evs,
    main sample_headers trunc_uint8 sample_parse sample_sscanf_d sample_sscanf_lf
         "0.9" (fun _ => "ascii") "sift" [] [sample_image; unreadable_image; sample_image]
    = (Next 1, st', evs) /\
    List.length (filter is_stderr evs) = 1%nat.
Proof.
  destruct (batch_exit_status sample_headers trunc_uint8 sample_parse sample_sscanf_d
              sample_sscanf_lf "0.9" (fun _ => "ascii") "sift" []
              [sample_image; unreadable_image; sample_image]
              (init_state sample_headers) [] eq_refl eq_refl) as (st' & evs & Hm & Hn).
  exists st', evs. split; [exact Hm | exact Hn].
Defined.

Lemma quiet_run_prints_nothing_witness :
  verbose (par (init_state sample_headers)) = 0 /\
  let '(_, _, evs) :=
    for_each [sample_image; unreadable_image] (process_image sample_headers trunc_uint8)
             (init_state sample_headers) in
  filter is_stdout evs = [].
Proof.
  split; [reflexivity|].
  apply (quiet_run_prints_nothing sample_headers trunc_uint8
           [sample_image; unreadable_image] (init_state sample_headers)).
  reflexivity.
Defined.

Lemma basename_overflow_skips_image_witness :
  exists st',
    process_image sample_headers trunc_uint8 long_named_image (init_state sample_headers)
    = (Next tt, st', [error_line st']) /\
    err st' = VL_ERR_OVERFLOW sample_headers /\
    err_msg st'
    = truncate sizeof_err_msg ("Basename of '" +++ "dir/0.pgm" +++ "' is too long") /\
    exit_code st' = 1.
Proof.
  apply (basename_overflow_skips_image sample_headers trunc_uint8 long_named_image
           (init_state sample_headers)).
  - vm_compute. discriminate.
  - intros id. now destruct id.
Defined.

Lemma unreadable_input_skips_image_witness :
  exists st',
    process_image sample_headers trunc_uint8 unreadable_image (init_state sample_headers)
    = (Next tt, st', [] ++ [FopenIn "dir/b.pgm" false; error_line st']) /\
    err st' = VL_ERR_IO sample_headers /\
    err_msg st'
    = truncate sizeof_err_msg ("Could not open '" +++ "dir/b.pgm" +++ "' for reading.") /\
    exit_code st' = 1.
Proof.
  apply (unreadable_input_skips_image sample_headers trunc_uint8 unreadable_image
           (init_state sample_headers)).
  - reflexivity.
  - reflexivity.
  - intros id. now destruct id.
Defined.

Lemma pgm_status_reporting_witness :
  exists b s1 ev1,
    determine_files sample_headers corrupt_header_image
      (with_loc (mkLoc false false false false) (init_state sample_headers))
    = (Next b, s1, ev1) /\
    let s2 := failed_read (VL_ERR_IO sample_headers) "PGM header corrputed."
                          (data (loc s1)) (fdata (loc s1)) s1 in
    process_image sample_headers trunc_uint8 corrupt_header_image
                  (init_state sample_headers)
    = (Next tt, done_state s2, ev1 ++ done_events s2).
Proof.
  destruct (determine_files sample_headers corrupt_header_image
              (with_loc (mkLoc false false false false) (init_state sample_headers)))
    as [[fl s1] ev1] eqn:E.
  assert (Hfl : fl = Next "a").
  { apply (f_equal (fun r => fst (fst r))) in E. vm_compute in E. now symmetry. }
  subst fl. exists "a", s1, ev1. split; [reflexivity|].
  apply (proj1 (pgm_status_reporting sample_headers trunc_uint8 corrupt_header_image
                  (init_state sample_headers) "a" s1 ev1 E)).
  vm_compute. discriminate.
Defined.

Lemma allocation_failure_skips_image_witness :
  exists b s1 ev1,
    determine_files sample_headers data_alloc_failing_image
      (with_loc (mkLoc false false false false) (init_state sample_headers))
    = (Next b, s1, ev1) /\
    let s2 := failed_read (VL_ERR_ALLOC sample_headers) "Could not allocate enough memory."
                          false true s1 in
    process_image sample_headers trunc_uint8 data_alloc_failing_image
                  (init_state sample_headers)
    = (Next tt, done_state s2,
       ev1 ++ image_size_line data_alloc_failing_image s1
           ++ [Malloc Data false; Malloc Fdata true] ++ done_events s2) /\
    (In (Free Data) (done_events s2) <-> false = true) /\
    ~ In (Free Fdata) (done_events s2).
Proof.
  destruct (determine_files sample_headers data_alloc_failing_image
              (with_loc (mkLoc false false false false) (init_state sample_headers)))
    as [[fl s1] ev1] eqn:E.
  assert (Hfl : fl = Next "a").
  { apply (f_equal (fun r => fst (fst r))) in E. vm_compute in E. now symmetry. }
  subst fl. exists "a", s1, ev1. split; [reflexivity|].
  apply (allocation_failure_skips_image sample_headers trunc_uint8
           data_alloc_failing_image (init_state sample_headers) "a" s1 ev1 E).
  - reflexivity.
  - left. reflexivity.
Defined.

Lemma snapshot_stops_at_first_failure_witness :
  let fo := fun (p : string) (_ : string) => negb (String.eqb p "a_-1_001.pgm") in
  let r := save_gss sample_headers trunc_uint8 fo 3 sample_octave Gss
                    (mkFileMeta true "%.pgm" 1 "" None) "a" 0 in
  gss_events r
  = Malloc GssBuffer true
    :: flat_map (gss_level_events trunc_uint8 Gss "%.pgm" "a" 0 sample_octave) (levels 1)
    ++ gss_failed_level_events trunc_uint8 Gss "%.pgm" "a" sample_octave 1 false 0
    ++ Free GssBuffer :: [] /\
  gss_err r = Some (VL_ERR_IO sample_headers) /\
  gss_returned r = None /\
  file (gss_fm r) = None.
Proof.
  intros fo r.
  apply (snapshot_stops_at_first_failure sample_headers trunc_uint8 fo 3 sample_octave
           Gss (mkFileMeta true "%.pgm" 1 "" None) "a" 0 1); try reflexivity.
  - lia.
  - intros s Hs. assert (Hz : s = 0) by lia. subst s. vm_compute. repeat split.
  - left. reflexivity.
Defined.

Lemma snapshot_releases_what_it_takes_witness :
  held no_resources
       (gss_events (save_gss sample_headers trunc_uint8
                             (fun p _ => negb (String.eqb p "a_-1_001.pgm")) 3
                             sample_octave Gss (mkFileMeta true "%.pgm" 1 "" None) "a" 0))
  = no_resources /\
  file (gss_fm (save_gss sample_headers trunc_uint8
                         (fun p _ => negb (String.eqb p "a_-1_001.pgm")) 3
                         sample_octave Gss (mkFileMeta true "%.pgm" 1 "" None) "a" 0))
  = None.
Proof.
  apply (snapshot_releases_what_it_takes sample_headers trunc_uint8
           (fun p _ => negb (String.eqb p "a_-1_001.pgm")) 3 sample_octave Gss
           (mkFileMeta true "%.pgm" 1 "" None) "a" 0).
  reflexivity.
Defined.

Lemma output_open_failure_skips_image_witness :
  let st := with_sink Dsc (mkFileMeta true "%.descr" 1 "" None)
                      (init_state sample_headers) in
  exists st',
    process_image sample_headers trunc_uint8 descriptors_unwritable_image st
    = (Next tt, st',
       [] ++ FopenIn "dir/a.pgm" true :: [Fopen Dsc "a.descr" "w" false]
          ++ [FcloseIn; error_line st']) /\
    err st' = VL_ERR_IO sample_headers /\
    err_msg st' = "Could not open 'a.descr' for writing." /\
    exit_code st' = 1.
Proof.
  intros st.
  apply (output_open_failure_skips_image sample_headers trunc_uint8
           descriptors_unwritable_image st (VL_ERR_IO sample_headers)
           (mkFileMeta true "%.descr" 1 "a.descr" None)
           [Fopen Dsc "a.descr" "w" false]).
  - reflexivity.
  - reflexivity.
  - intros id. now destruct id.
  - vm_compute. reflexivity.
  - vm_compute. discriminate.
Defined.

Lemma integer_option_test_witness :
  exists st',
    process_option sample_headers sample_parse (fun _ v => (-1, v)) sample_sscanf_lf
                   "0.9" "sift" (mkOpt 83 (Some "") "--levels") (init_state sample_headers)
    = (Next tt, st', []) /\
    par_S (par st') = 3 /\
    err st' = 0 /\ err_msg st' = "".
Proof.
  apply (integer_option_test sample_headers sample_parse (fun _ v => (-1, v))
           sample_sscanf_lf "0.9" "sift" (mkOpt 83 (Some "") "--levels")
           (init_state sample_headers) (-1) 3).
  - right. left. reflexivity.
  - reflexivity.
Defined.

Lemma threshold_option_test_witness :
  exists st',
    process_option sample_headers sample_parse sample_sscanf_d
                   (fun _ _ => (1, PrimFloat.nan))
                   "0.9" "sift" (mkOpt opt_peaks_tresh (Some "nan") "--peaks-tresh")
                   (init_state sample_headers)
    = (Next tt, st', []) /\
    peaks_tresh (par st') = PrimFloat.nan /\
    err st' = 0 /\ err_msg st' = "".
Proof.
  apply (threshold_option_test sample_headers sample_parse sample_sscanf_d
           (fun _ _ => (1, PrimFloat.nan)) "0.9" "sift"
           (mkOpt opt_peaks_tresh (Some "nan") "--peaks-tresh")
           (init_state sample_headers) 1 PrimFloat.nan).
  - right. reflexivity.
  - reflexivity.
Defined.


Lemma filter_failure_skips_image_witness :
  exists b s1 ev1,
    determine_files sample_headers filter_failing_image
      (with_loc (mkLoc false false false false) (init_state sample_headers))
    = (Next b, s1, ev1) /\
    let s2 := with_err_msg (truncate sizeof_err_msg "Could not allocate SIFT filter.")
                (with_err (VL_ERR_ALLOC sample_headers)
                   (with_loc (mkLoc (in_ (loc s1)) true true false) s1)) in
    process_image sample_headers trunc_uint8 filter_failing_image
                  (init_state sample_headers)
    = (Next tt, done_state s2,
       ev1 ++ image_size_line filter_failing_image s1
           ++ [Malloc Data true; Malloc Fdata true;
               SiftNew 2 2 (par_O (par s1)) (par_S (par s1)) (par_omin (par s1)) false]
           ++ done_events s2) /\
    In (Free Data) (done_events s2) /\
    ~ In SiftDelete (done_events s2).
Proof.
  destruct (determine_files sample_headers filter_failing_image
              (with_loc (mkLoc false false false false) (init_state sample_headers)))
    as [[fl s1] ev1] eqn:E.
  assert (Hfl : fl = Next "a").
  { apply (f_equal (fun r => fst (fst r))) in E. vm_compute in E. now symmetry. }
  subst fl. exists "a", s1, ev1. split; [reflexivity|].
  apply (filter_failure_skips_image sample_headers trunc_uint8 filter_failing_image
           (init_state sample_headers) "a" s1 ev1 E); reflexivity.
Defined.
